(** * Verification of the mol* text tokenizer, colour scale and task framework

    The development embeds the TypeScript sources in Rocq:

    - [Tokenizer] / [TokenBuilder]: the line tokenizer of mol-io
      (functions [eatLine], [markLine], [readLine], [readLines],
      [readLinesAsync], [eatValue], [skipWhitespace], [trim], [trimStr],
      and the token buffer with [resize], [add], [addUnchecked],
      [create]);
    - [Number]: the doubles of JavaScript with the operations that the
      colour scale uses ([-], [/], [*], [Math.min], [Math.max],
      [Math.floor], [Math.ceil], indexing an array);
    - [ColorScale]: the colour scale of mol-util;
    - [StructConn]: the link records of an mmCIF model with their residue
      and atom indices ([fromModel], [getResidueEntries],
      [getAtomEntries]);
    - [IntraUnitLink]: the choice of a reference atom for a link;
    - [ProgressTree]: the printer of progress trees of the mol-task tests;
    - [Scheduler] and [Task]: the cooperative task framework (mol-task),
      whose implementation is not part of the sources at hand and is
      modelled from its specification.

    JavaScript numbers that hold integers (positions, counts, offsets) are
    modelled as [Z]; strings as lists of UTF-16 code units; a [Uint32Array]
    as a list of [Z] whose writes wrap modulo 2^32 and are dropped when out
    of range. *)

From Stdlib Require Import ZArith List Lia Bool Ascii String.
From Stdlib Require Import QArith Qround Qpower Qabs Lqa SpecFloat.
From stdpp Require Import base list pretty strings gmap.

Open Scope Z_scope.

(** ** JavaScript primitives used by the sources *)

Module JS.

(** [s.charCodeAt(i)]: the code unit at index [i]; [None] stands for the
    [NaN] returned outside of [0 <= i < s.length]. *)
Definition charCodeAt (s : list Z) (i : Z) : option Z :=
  if 0 <=? i then s !! Z.to_nat i else None.

(** [code === k] for the result of [charCodeAt], as a [switch] compares
    it with a [case] label; [NaN] equals no label. *)
Definition isCode (code : option Z) (k : Z) : bool :=
  match code with
  | Some c => c =? k
  | None => false
  end.

(** [s.substring(a, b)]: both indices are clamped to [0, s.length] and
    swapped when [a > b]. *)
Definition substring (s : list Z) (a b : Z) : list Z :=
  let len := Z.of_nat (List.length s) in
  let a' := Z.min (Z.max a 0) len in
  let b' := Z.min (Z.max b 0) len in
  let from := Z.min a' b' in
  let to := Z.max a' b' in
  take (Z.to_nat (to - from)) (drop (Z.to_nat from) s).

(** [x | 0] on an integer-valued number: conversion to a signed 32-bit
    integer. *)
Definition toInt32 (x : Z) : Z := (x + 2 ^ 31) mod 2 ^ 32 - 2 ^ 31.

(** Conversion applied to a value stored in a [Uint32Array]. *)
Definition toUint32 (x : Z) : Z := x mod 2 ^ 32.

(** [new Uint32Array(n)]: [n] zeros; a negative length throws a
    [RangeError] ([None]).  Engine-specific upper limits on the length are
    not modelled. *)
Definition newUint32Array (n : Z) : option (list Z) :=
  if n <? 0 then None else Some (replicate (Z.to_nat n) 0).

(** [a[i] = v] on a [Uint32Array]: the value is stored modulo 2^32; a write
    outside of [0 <= i < a.length] is ignored. *)
Definition writeUint32 (a : list Z) (i v : Z) : list Z :=
  if (0 <=? i) && (i <? Z.of_nat (List.length a))
  then <[Z.to_nat i := toUint32 v]> a
  else a.

(** [a[i]] on a typed array; [None] stands for [undefined]. *)
Definition readIndex {A} (a : list A) (i : Z) : option A :=
  if 0 <=? i then a !! Z.to_nat i else None.

(** [target.set(source)]: copies [source] to the front of [target]; throws
    a [RangeError] ([None]) when [source] is longer than [target]. *)
Definition setUint32Array (target source : list Z) : option (list Z) :=
  if (List.length source <=? List.length target)%nat
  then Some (source ++ drop (List.length source) target)
  else None.

End JS.

(** ** Data model *)

(** [interface Tokenizer]. *)
Record Tokenizer := mkTokenizer {
  data : list Z;
  position : Z;
  length : Z;
  lineNumber : Z;
  tokenStart : Z;
  tokenEnd : Z
}.

Definition set_position (v : Z) (s : Tokenizer) : Tokenizer :=
  mkTokenizer (data s) v (length s) (lineNumber s) (tokenStart s) (tokenEnd s).
Definition set_lineNumber (v : Z) (s : Tokenizer) : Tokenizer :=
  mkTokenizer (data s) (position s) (length s) v (tokenStart s) (tokenEnd s).
Definition set_tokenStart (v : Z) (s : Tokenizer) : Tokenizer :=
  mkTokenizer (data s) (position s) (length s) (lineNumber s) v (tokenEnd s).
Definition set_tokenEnd (v : Z) (s : Tokenizer) : Tokenizer :=
  mkTokenizer (data s) (position s) (length s) (lineNumber s) (tokenStart s) v.

(** [tokenizer.data], under a name that stays visible where another record
    has a [data] field of its own. *)
Abbreviation tokenizer_data := data (only parsing).

(** ** TokenBuilder *)

Module TokenBuilder.

(** [interface Builder extends Tokens]: the object behind every [Tokens]
    value; [Tokens] exposes its fields [data], [count] and [indices]. *)
Record Builder := mkBuilder {
  data : list Z;
  count : Z;
  indices : list Z;
  offset : Z;
  indicesLenMinus2 : Z
}.

(** [resize]: the new length is [(1.61 * length) | 0].  For every length
    below 2^31 the double-precision product has the same integer part as
    the exact [161 * length / 100]: the double nearest to 1.61 lies above
    it by less than 1e-16. *)
Definition resize (builder : Builder) : option Builder :=
  let len := Z.of_nat (List.length (indices builder)) in
  match JS.newUint32Array (JS.toInt32 (161 * len / 100)) with
  | None => None
  | Some fresh =>
    match JS.setUint32Array fresh (indices builder) with
    | None => None
    | Some newBuffer =>
      Some (mkBuilder (data builder) (count builder) newBuffer (offset builder)
              (JS.toInt32 (Z.of_nat (List.length newBuffer) - 2)))
    end
  end.

(** Body shared by [add] and [addUnchecked]: two writes through
    [offset++], then [count++]. *)
Definition push (builder : Builder) (start end_ : Z) : Builder :=
  let indices1 := JS.writeUint32 (indices builder) (offset builder) start in
  let offset1 := offset builder + 1 in
  let indices2 := JS.writeUint32 indices1 offset1 end_ in
  let offset2 := offset1 + 1 in
  mkBuilder (data builder) (count builder + 1) indices2 offset2
    (indicesLenMinus2 builder).

Definition add (tokens : Builder) (start end_ : Z) : option Builder :=
  if indicesLenMinus2 tokens <? offset tokens then
    match resize tokens with
    | None => None
    | Some builder => Some (push builder start end_)
    end
  else Some (push tokens start end_).

Definition addUnchecked (tokens : Builder) (start end_ : Z) : Builder :=
  push tokens start end_.

(** [new Uint32Array(size)] is given at least ten slots here, so its length
    is never negative. *)
Definition create (tokenizer : Tokenizer) (size : Z) : Builder :=
  let size := Z.max 10 size in
  mkBuilder (tokenizer_data tokenizer) 0 (replicate (Z.to_nat size) 0) 0
    (JS.toInt32 (size - 2)).

End TokenBuilder.

(** ** Promise outcomes *)

(** Modelled from the spec: what a computation throws, the
    [Task.Aborted(reason)] marker or any other error (sections 4.3 and 7;
    mol-task itself is not among the sources). *)
Inductive TaskError :=
| Aborted (reason : string)
| Failure (error : string).

(** Modelled from the spec: a settled promise (section 4.4). *)
Inductive Outcome (A : Type) :=
| Resolved (value : A)
| Rejected (e : TaskError).
Arguments Resolved {A} value.
Arguments Rejected {A} e.

(** ** Scheduler (mol-task) *)

Module Scheduler.

(** The argument of [ctx.update({ message, current, max })]. *)
Record Progress := mkProgress {
  message : string;
  current : Z;
  max : Z
}.

(** Modelled from the spec: the [RuntimeContext] of mol-task, whose source
    is not available.  Per sections 3 and 4.2 a context owns a progress node
    into which [update] merges its argument, an abort flag that is set from
    outside and only read at checkpoints, and a throttle [shouldUpdate].
    The outside world is given by two oracles: [abortRequested k] is what
    the [k]-th checkpoint of this context reads from the flag and
    [shouldUpdate k] the throttle at that moment.  [checkpoint] counts the
    checkpoints passed and [updates] records the arguments of the [update]
    calls, oldest first. *)
Record RuntimeContext := mkRuntimeContext {
  abortRequested : nat -> option string;
  shouldUpdate : nat -> bool;
  checkpoint : nat;
  updates : list Progress
}.

(** Modelled from the spec: [ctx.update(progress)] as used from a
    [reportProgress] hook, whose result is discarded ([reportProgress]
    returns [void], section 4.1): the fields are merged into the node. *)
Definition update (ctx : RuntimeContext) (progress : Progress)
    : RuntimeContext :=
  mkRuntimeContext (abortRequested ctx) (shouldUpdate ctx) (checkpoint ctx)
    (updates ctx ++ [progress]).

(** Modelled from the spec: the suspension point after a chunk, section
    4.1: control returns to the host and the abort flag is read. *)
Definition suspend (ctx : RuntimeContext) : RuntimeContext * option string :=
  (mkRuntimeContext (abortRequested ctx) (shouldUpdate ctx)
     (S (checkpoint ctx)) (updates ctx),
   abortRequested ctx (checkpoint ctx)).

(** Modelled from the spec: [chunkedSubtask] of mol-task, section 4.1.
    Each round invokes [processChunk] with the current chunk size, invokes
    [reportProgress] (on the subset of chunks selected by the throttle),
    suspends and reads the abort flag, signalling abort when it is set, and
    ends the loop when [processChunk] consumed less than the chunk size.
    The spec fixes only the initial chunk size: [nextChunkSize i] is the
    size the scheduler picks for the chunk after the [i]-th one.
    [processChunk] and [reportProgress] return the objects they mutate.
    The loop need not end for an arbitrary [processChunk]; [None] means that
    it is still running after [fuel] chunks. *)
Fixpoint chunkedSubtask_loop {S : Type} (fuel : nat) (round : nat)
    (ctx : RuntimeContext) (chunkSize : Z) (state : S)
    (processChunk : Z -> S -> Z * S)
    (reportProgress : RuntimeContext -> S -> RuntimeContext)
    (nextChunkSize : nat -> Z)
    : option (RuntimeContext * S * Outcome unit) :=
  match fuel with
  | O => None
  | Datatypes.S fuel' =>
    let '(consumed, state) := processChunk chunkSize state in
    let ctx :=
      if shouldUpdate ctx (checkpoint ctx) then reportProgress ctx state
      else ctx in
    let '(ctx, flag) := suspend ctx in
    match flag with
    | Some reason => Some (ctx, state, Rejected (Aborted reason))
    | None =>
      if consumed <? chunkSize then Some (ctx, state, Resolved tt)
      else chunkedSubtask_loop fuel' (Datatypes.S round) ctx
             (nextChunkSize round) state processChunk reportProgress
             nextChunkSize
    end
  end.

(** Modelled from the spec: [chunkedSubtask(ctx, initialChunkSize, state,
    processChunk, reportProgress)], the loop above from its first round. *)
Definition chunkedSubtask {S : Type} (fuel : nat) (ctx : RuntimeContext)
    (initialChunkSize : Z) (state : S) (processChunk : Z -> S -> Z * S)
    (reportProgress : RuntimeContext -> S -> RuntimeContext)
    (nextChunkSize : nat -> Z)
    : option (RuntimeContext * S * Outcome unit) :=
  chunkedSubtask_loop fuel 0 ctx initialChunkSize state processChunk
    reportProgress nextChunkSize.

End Scheduler.

(** ** Tokenizer *)

Module Tokenizer.

Definition getTokenString (state : Tokenizer) : list Z :=
  JS.substring (data state) (tokenStart state) (tokenEnd state).

(** Resets the state. *)
Definition reset (state : Tokenizer) : Tokenizer :=
  mkTokenizer (data state) 0 (length state) 1 0 0.

(** The [while (state.position < state.length)] loop of [eatLine].  Every
    iteration that does not return advances [position] by one, so the loop
    runs at most [length - position] times; [fuel] counts these iterations
    down and [eatLine] starts it at that bound (see [eatLine_loop_fuel]). *)
Fixpoint eatLine_loop (fuel : nat) (state : Tokenizer) : Tokenizer :=
  if position state <? length state then
    match fuel with
    | O => state
    | S fuel' =>
      let code := JS.charCodeAt (data state) (position state) in
      if JS.isCode code 10 then (* \n *)
        let state := set_tokenEnd (position state) state in
        let state := set_position (position state + 1) state in
        set_lineNumber (lineNumber state + 1) state
      else if JS.isCode code 13 then (* \r *)
        let state := set_tokenEnd (position state) state in
        let state := set_position (position state + 1) state in
        let state := set_lineNumber (lineNumber state + 1) state in
        if JS.isCode (JS.charCodeAt (data state) (position state)) 10
        then set_position (position state + 1) state
        else state
      else eatLine_loop fuel' (set_position (position state + 1) state)
    end
  else set_tokenEnd (position state) state.

(** Eat everything until a newline occurs. *)
Definition eatLine (state : Tokenizer) : Tokenizer :=
  eatLine_loop (Z.to_nat (length state - position state)) state.

(** Sets the current token start to the current position. *)
Definition markStart (state : Tokenizer) : Tokenizer :=
  set_tokenStart (position state) state.

(** Sets the current token start to current position and moves to the next
    line. *)
Definition markLine (state : Tokenizer) : Tokenizer :=
  eatLine (set_tokenStart (position state) state).

(** Returns the line and the advanced state. *)
Definition readLine (state : Tokenizer) : list Z * Tokenizer :=
  let state := markLine state in
  (getTokenString state, state).

(** [for (let i = 0; i < count; i++)] with [n] iterations left. *)
Fixpoint readLinesChunk_loop (n : nat) (state : Tokenizer)
    (tokens : TokenBuilder.Builder) : Tokenizer * TokenBuilder.Builder :=
  match n with
  | O => (state, tokens)
  | S n' =>
    let state := markLine state in
    let tokens :=
      TokenBuilder.addUnchecked tokens (tokenStart state) (tokenEnd state) in
    readLinesChunk_loop n' state tokens
  end.

Definition readLinesChunk (state : Tokenizer) (count : Z)
    (tokens : TokenBuilder.Builder) : Tokenizer * TokenBuilder.Builder :=
  readLinesChunk_loop (Z.to_nat count) state tokens.

(** Advance the state by the given number of lines and return line
    starts/ends as tokens. *)
Definition readLines (state : Tokenizer) (count : Z)
    : Tokenizer * TokenBuilder.Builder :=
  let lineTokens := TokenBuilder.create state (count * 2) in
  readLinesChunk state count lineTokens.

(** The objects the callbacks of [readLinesAsync] work on: the tokenizer
    passed as [state], and the variables [lineTokens] and
    [linesAlreadyRead] that the [processChunk] closure captures. *)
Record ReadLinesVars := mkReadLinesVars {
  rl_state : Tokenizer;
  rl_lineTokens : TokenBuilder.Builder;
  rl_linesAlreadyRead : Z
}.

(** The [processChunk] callback of [readLinesAsync]. *)
Definition readLinesAsync_processChunk (count : Z) (chunkSize : Z)
    (vars : ReadLinesVars) : Z * ReadLinesVars :=
  let linesToRead := Z.min (count - rl_linesAlreadyRead vars) chunkSize in
  let '(state, lineTokens) :=
    readLinesChunk (rl_state vars) linesToRead (rl_lineTokens vars) in
  (linesToRead,
   mkReadLinesVars state lineTokens (rl_linesAlreadyRead vars + linesToRead)).

(** The object [{ message: 'Parsing...', current: state.position, max:
    length }] that the [reportProgress] callback of [readLinesAsync] builds;
    [length] is the constant read from the state on entry. *)
Definition readLinesAsync_progress (length : Z) (vars : ReadLinesVars)
    : Scheduler.Progress :=
  Scheduler.mkProgress "Parsing..." (position (rl_state vars)) length.

(** The [reportProgress] callback of [readLinesAsync]. *)
Definition readLinesAsync_reportProgress (length : Z)
    (ctx : Scheduler.RuntimeContext) (vars : ReadLinesVars)
    : Scheduler.RuntimeContext :=
  Scheduler.update ctx (readLinesAsync_progress length vars).

(** Advance the state by the given number of lines and return line
    starts/ends as tokens.  The result holds the context and the tokenizer
    as the call leaves them, and the settled promise.  [fuel] and
    [nextChunkSize] are passed on to [Scheduler.chunkedSubtask]. *)
Definition readLinesAsync (fuel : nat) (nextChunkSize : nat -> Z)
    (state : Tokenizer) (count : Z) (ctx : Scheduler.RuntimeContext)
    (initialLineCount : option Z)
    : option (Scheduler.RuntimeContext * Tokenizer
              * Outcome TokenBuilder.Builder) :=
  let initialLineCount := default 100000 initialLineCount in
  let length := length state in
  let lineTokens := TokenBuilder.create state (count * 2) in
  let linesAlreadyRead := 0 in
  match Scheduler.chunkedSubtask fuel ctx initialLineCount
          (mkReadLinesVars state lineTokens linesAlreadyRead)
          (readLinesAsync_processChunk count)
          (readLinesAsync_reportProgress length)
          nextChunkSize with
  | None => None
  | Some (ctx, vars, Rejected e) => Some (ctx, rl_state vars, Rejected e)
  | Some (ctx, vars, Resolved _) =>
    Some (ctx, rl_state vars, Resolved (rl_lineTokens vars))
  end.

(** The loop of [eatValue]; [fuel] as in [eatLine_loop]. *)
Fixpoint eatValue_loop (fuel : nat) (state : Tokenizer) : Tokenizer :=
  if position state <? length state then
    match fuel with
    | O => state
    | S fuel' =>
      let code := JS.charCodeAt (data state) (position state) in
      if JS.isCode code 9 || JS.isCode code 10 || JS.isCode code 13 || JS.isCode code 32
      then set_tokenEnd (position state) state
      else eatValue_loop fuel' (set_position (position state + 1) state)
    end
  else set_tokenEnd (position state) state.

(** Eat everything until a whitespace/newline occurs. *)
Definition eatValue (state : Tokenizer) : Tokenizer :=
  eatValue_loop (Z.to_nat (length state - position state)) state.

(** The loop of [skipWhitespace], with the local variable [prev]. *)
Fixpoint skipWhitespace_loop (fuel : nat) (prev : Z) (state : Tokenizer)
    : Z * Tokenizer :=
  if position state <? length state then
    match fuel with
    | O => (prev, state)
    | S fuel' =>
      let c := JS.charCodeAt (data state) (position state) in
      if JS.isCode c 9 then
        skipWhitespace_loop fuel' 9 (set_position (position state + 1) state)
      else if JS.isCode c 32 then
        skipWhitespace_loop fuel' 32 (set_position (position state + 1) state)
      else if JS.isCode c 10 then
        (* handle \r\n *)
        let state :=
          if negb (prev =? 13)
          then set_lineNumber (lineNumber state + 1) state
          else state in
        skipWhitespace_loop fuel' 10 (set_position (position state + 1) state)
      else if JS.isCode c 13 then
        let state := set_position (position state + 1) state in
        skipWhitespace_loop fuel' 13
          (set_lineNumber (lineNumber state + 1) state)
      else (prev, state)
    end
  else (prev, state).

(** Skips all the whitespace - space, tab, newline, CR.  Handles
    incrementing line count.  Returns [prev] and the advanced state. *)
Definition skipWhitespace (state : Tokenizer) : Z * Tokenizer :=
  skipWhitespace_loop (Z.to_nat (length state - position state)) 10 state.

(** The first loop of [trim] and of [trimStr],
    [while ((c === 9 || c === 32) && s <= e) c = data.charCodeAt(++s)],
    returning [s].  Each round moves [s] up towards [e], so there are at
    most [e - s + 1] rounds, the fuel the callers give. *)
Fixpoint trimStart_loop (fuel : nat) (data : list Z) (c : option Z) (s e : Z)
    : Z :=
  if (JS.isCode c 9 || JS.isCode c 32) && (s <=? e) then
    match fuel with
    | O => s
    | S fuel' =>
      let s := s + 1 in
      trimStart_loop fuel' data (JS.charCodeAt data s) s e
    end
  else s.

(** The second loop,
    [while ((c === 9 || c === 32) && e >= s) c = data.charCodeAt(--e)],
    returning [e]. *)
Fixpoint trimEnd_loop (fuel : nat) (data : list Z) (c : option Z) (s e : Z)
    : Z :=
  if (JS.isCode c 9 || JS.isCode c 32) && (s <=? e) then
    match fuel with
    | O => e
    | S fuel' =>
      let e := e - 1 in
      trimEnd_loop fuel' data (JS.charCodeAt data e) s e
    end
  else e.

(** Trims spaces and tabs. *)
Definition trim (state : Tokenizer) (start end_ : Z) : Tokenizer :=
  let data := data state in
  let s := start in
  let e := end_ - 1 in
  let c := JS.charCodeAt data s in
  let s := trimStart_loop (Z.to_nat (e - s + 1)) data c s e in
  let c := JS.charCodeAt data e in
  let e := trimEnd_loop (Z.to_nat (e - s + 1)) data c s e in
  let state := set_tokenStart s state in
  let state := set_tokenEnd (e + 1) state in
  set_position end_ state.

(** [function Tokenizer(data)]. *)
Definition Tokenizer (data : list Z) : Tokenizer :=
  mkTokenizer data 0 (Z.of_nat (List.length data)) 1 0 0.

End Tokenizer.

(** [trimStr], with the same two loops as [Tokenizer.trim]. *)
Definition trimStr (data : list Z) (start end_ : Z) : list Z :=
  let s := start in
  let e := end_ - 1 in
  let c := JS.charCodeAt data s in
  let s := Tokenizer.trimStart_loop (Z.to_nat (e - s + 1)) data c s e in
  let c := JS.charCodeAt data e in
  let e := Tokenizer.trimEnd_loop (Z.to_nat (e - s + 1)) data c s e in
  JS.substring data s (e + 1).

(** ** JavaScript numbers (IEEE 754 binary64) *)

(** The numbers of [ColorScale] need not be integers: they are the doubles
    of JavaScript.  The carrier is [spec_float] of the Standard Library,
    where [S754_finite s m e] is the number [(-1)^s * m * 2^e], next to the
    two zeros, the two infinities and [NaN].  An arithmetic operation
    returns its exact result rounded to the nearest double, ties to the even
    mantissa, with the cases of IEEE 754 for [NaN], the infinities and the
    signs of zero written out. *)
Module Number.

Definition number := spec_float.

Definition pow2 (e : Z) : Q := (2 ^ e)%Q.

(** The rational that a finite number is; 0 for the others. *)
Definition value (x : number) : Q :=
  match x with
  | S754_finite s m e =>
    let v := (inject_Z (Zpos m) * pow2 e)%Q in if s then (- v)%Q else v
  | _ => 0%Q
  end.

(** The nearest integer, the even one of two that are equally near. *)
Definition rne (q : Q) : Z :=
  let f := Qfloor q in
  match (q - inject_Z f ?= 1 # 2)%Q with
  | Lt => f
  | Gt => f + 1
  | Eq => if Z.even f then f else f + 1
  end.

(** [floor (log2 a)] of a positive rational. *)
Definition ilog2 (a : Q) : Z :=
  let k := Z.log2 (Qnum a) - Z.log2 (Zpos (Qden a)) in
  if Qle_bool (pow2 k) a then k else k - 1.

(** The exponent of the doubles around [a]: 53 bits of mantissa, and
    [2^-1074] the step of the subnormal numbers. *)
Definition binade (a : Q) : Z := Z.max (ilog2 a - 52) (-1074).

Definition mantissa (a : Q) : Z := rne (a / pow2 (binade a)).

(** The double nearest to the positive rational [a], with the sign [s]:
    an infinity from [2^1024 - 2^970] on, a zero below [2^-1075] and at
    it. *)
Definition round_pos (s : bool) (a : Q) : number :=
  let E := binade a in
  let m := mantissa a in
  if (971 <? E) || ((E =? 971) && (2 ^ 53 <=? m)) then S754_infinity s
  else if 2 ^ 53 <=? m then S754_finite s (2 ^ 52)%positive (E + 1)
  else match m with
       | Zpos p => S754_finite s p E
       | _ => S754_zero s
       end.

(** The double nearest to [q]; [szero] is the sign of the zero returned for
    an exact 0. *)
Definition round (szero : bool) (q : Q) : number :=
  match Qnum q with
  | Z0 => S754_zero szero
  | Zpos _ => round_pos false q
  | Zneg _ => round_pos true (- q)
  end.

(** An integer as a number, such as [colors.length - 1] or the literals [0]
    and [1]. *)
Definition ofZ (z : Z) : number := round false (inject_Z z).

(** The number that a decimal literal denotes. *)
Definition literal (q : Q) : number := round false q.

(** [x - y]. *)
Definition sub (x y : number) : number :=
  match x, y with
  | S754_nan, _ | _, S754_nan => S754_nan
  | S754_infinity sx, S754_infinity sy =>
    if Bool.eqb sx sy then S754_nan else x
  | S754_infinity _, _ => x
  | _, S754_infinity sy => S754_infinity (negb sy)
  | S754_zero sx, S754_zero sy => S754_zero (sx && negb sy)
  | _, _ => round false (value x - value y)
  end.

Definition sign (x : number) : bool :=
  match x with
  | S754_zero s | S754_infinity s | S754_finite s _ _ => s
  | S754_nan => false
  end.

(** [x * y]. *)
Definition mul (x y : number) : number :=
  match x, y with
  | S754_nan, _ | _, S754_nan => S754_nan
  | S754_infinity _, S754_zero _ | S754_zero _, S754_infinity _ => S754_nan
  | S754_infinity _, _ | _, S754_infinity _ =>
    S754_infinity (xorb (sign x) (sign y))
  | S754_zero _, _ | _, S754_zero _ => S754_zero (xorb (sign x) (sign y))
  | _, _ =>
    round_pos (xorb (sign x) (sign y)) (Qabs (value x) * Qabs (value y))
  end.

(** [x / y]. *)
Definition div (x y : number) : number :=
  match x, y with
  | S754_nan, _ | _, S754_nan => S754_nan
  | S754_infinity _, S754_infinity _ | S754_zero _, S754_zero _ => S754_nan
  | S754_infinity _, _ | _, S754_zero _ =>
    S754_infinity (xorb (sign x) (sign y))
  | S754_zero _, _ | _, S754_infinity _ =>
    S754_zero (xorb (sign x) (sign y))
  | _, _ =>
    round_pos (xorb (sign x) (sign y)) (Qabs (value x) / Qabs (value y))
  end.

(** The order of two numbers; [None] when one of them is [NaN].  The two
    zeros are equal. *)
Definition compare (x y : number) : option comparison :=
  match x, y with
  | S754_nan, _ | _, S754_nan => None
  | S754_infinity sx, S754_infinity sy =>
    Some (match sx, sy with
          | true, false => Lt
          | false, true => Gt
          | _, _ => Eq
          end)
  | S754_infinity s, _ => Some (if s then Lt else Gt)
  | _, S754_infinity s => Some (if s then Gt else Lt)
  | _, _ => Some (value x ?= value y)%Q
  end.

(** [x < y], [x <= y] and [x === y]. *)
Definition ltb (x y : number) : bool :=
  match compare x y with Some Lt => true | _ => false end.

Definition leb (x y : number) : bool :=
  match compare x y with Some Lt | Some Eq => true | _ => false end.

Definition eqb (x y : number) : bool :=
  match compare x y with Some Eq => true | _ => false end.

Definition is_nan (x : number) : bool :=
  match x with S754_nan => true | _ => false end.

(** The numbers that [||] takes as false: the zeros and [NaN]. *)
Definition falsy (x : number) : bool :=
  match x with S754_zero _ | S754_nan => true | _ => false end.

(** [Math.max(x, y)] and [Math.min(x, y)]: [NaN] when an operand is, and
    [+0] above [-0]. *)
Definition Math_max (x y : number) : number :=
  match compare x y with
  | None => S754_nan
  | Some Gt => x
  | Some Lt => y
  | Some Eq => if sign x then y else x
  end.

Definition Math_min (x y : number) : number :=
  match compare x y with
  | None => S754_nan
  | Some Lt => x
  | Some Gt => y
  | Some Eq => if sign x then x else y
  end.

(** [Math.floor(x)] and [Math.ceil(x)]: a number with an exponent from 0 on
    is an integer; a result 0 keeps the sign of [x]. *)
Definition Math_floor (x : number) : number :=
  match x with
  | S754_finite s m e =>
    if 0 <=? e then x
    else let f := Qfloor (value x) in
         if f =? 0 then S754_zero s else round false (inject_Z f)
  | _ => x
  end.

Definition Math_ceil (x : number) : number :=
  match x with
  | S754_finite s m e =>
    if 0 <=? e then x
    else let c := Qceiling (value x) in
         if c =? 0 then S754_zero s else round false (inject_Z c)
  | _ => x
  end.

(** The array index that a number names when it is used as a property key:
    the two zeros name 0, a positive integer names itself, and every other
    number ([-1], [0.5], [NaN], [Infinity]) names no index. *)
Definition toIndex (x : number) : option Z :=
  match x with
  | S754_zero _ => Some 0
  | S754_finite false _ _ =>
    let v := value x in
    if Qeq_bool v (inject_Z (Qfloor v)) then Some (Qfloor v) else None
  | _ => None
  end.

(** [a[x]]; [None] stands for [undefined]. *)
Definition index {A} (a : list A) (x : number) : option A :=
  match toIndex x with
  | Some i => a !! Z.to_nat i
  | None => None
  end.

End Number.

(** ** ColorScale (mol-util) *)

Module ColorScale.

(** A hex colour. *)
Definition Color := Z.

(** [ColorScaleProps] merged with [DefaultColorScale]; the labels play no
    part in [color]. *)
Record ColorScaleProps := mkColorScaleProps {
  domain : Number.number * Number.number;
  reverse : bool;
  props_colors : list Color
}.

(** The variables of the closure that [create] returns. *)
Record Scale := mkScale {
  colors : list Color;
  count1 : Number.number;
  diff : Number.number;
  min : Number.number;
  max : Number.number
}.

(** [diff = (max - min) || 1]: a difference that is zero or [NaN] is
    falsy. *)
Definition setDomain (_min _max : Number.number) (scale : Scale) : Scale :=
  let min := _min in
  let max := _max in
  let diff :=
    let d := Number.sub max min in
    if Number.falsy d then Number.ofZ 1 else d in
  mkScale (colors scale) (count1 scale) diff min max.

Definition create (props : ColorScaleProps) : Scale :=
  let _colors := props_colors props in
  let colors := if reverse props then rev _colors else _colors in
  let count1 := Number.ofZ (Z.of_nat (List.length colors) - 1) in
  setDomain (fst (domain props)) (snd (domain props))
    (mkScale colors count1 (Number.ofZ 0) (Number.ofZ 0) (Number.ofZ 0)).

(** [((value - min) / diff) * count1], the argument of the clamp. *)
Definition scaled (scale : Scale) (value : Number.number) : Number.number :=
  Number.mul (Number.div (Number.sub value (min scale)) (diff scale))
    (count1 scale).

(** The interpolation parameter [t] of [color]. *)
Definition parameter (scale : Scale) (value : Number.number) : Number.number :=
  Number.Math_min (Number.ofZ (Z.of_nat (List.length (colors scale)) - 1))
    (Number.Math_max (Number.ofZ 0) (scaled scale value)).

Section Color.

(** [Color.interpolate] of mol-util/color, whose source is not at hand. *)
Variable interpolate : Color -> Color -> Number.number -> Color.

(** [color(value)]; [None] when one of the two reads misses the palette,
    where JavaScript would hand [undefined] to [Color.interpolate]. *)
Definition color (scale : Scale) (value : Number.number) : option Color :=
  let t := parameter scale value in
  let tf := Number.Math_floor t in
  match Number.index (colors scale) tf,
        Number.index (colors scale) (Number.Math_ceil t) with
  | Some c1, Some c2 => Some (interpolate c1 c2 (Number.sub t tf))
  | _, _ => None
  end.

End Color.

End ColorScale.

(** ** Task, ExecutionContext and Run (mol-task) *)

Module Task.

(** Modelled from the spec: what a [run] function does with its context
    (sections 4.2 and 4.3; mol-task itself is not among the sources).  A
    computation is the sequence of its awaits:
    - [Return v] and [Throw e] end it;
    - [Delay ms] is [await Scheduler.delay(ms)], a suspension that reads no
      flag;
    - [Update] is [await ctx.update(message)], the checkpoint;
    - [UpdateDetached] is a call of [ctx.update] whose promise is dropped;
    - [IfShouldUpdate] is [if (ctx.shouldUpdate) await ctx.update(message)];
    - [RunChild] is [c = ctx.runChild(Task.create(name, run, onAbort))],
      which starts the child and keeps its promise as the next [c];
    - [Await i] is [await c] for the [i]-th promise so obtained.
    A chunked subtask reads the flag at each of its chunk boundaries, as
    [ctx.update] does, and counts as one [Update] per chunk.  Values are
    numbers, as in the test programs. *)
Inductive Computation : Type :=
| Return (value : Z)
| Throw (e : TaskError)
| Delay (ms : Z) (next : Computation)
| Update (message : string) (next : Computation)
| UpdateDetached (message : string) (next : Computation)
| IfShouldUpdate (message : string) (next : Computation)
| RunChild (name : string) (run : Computation) (onAbort : option string)
    (next : Computation)
| Await (child : nat) (next : Z -> Computation).

(** Modelled from the spec: [Task.create(name, run, onAbort?)], section 3.
    The cleanup callback is represented by the line it prints. *)
Record Task := create {
  name : string;
  run : Computation;
  onAbort : option string
}.

(** Modelled from the spec: [ctx.runChild(task)] with the promise kept. *)
Definition runChild (task : Task) (next : Computation) : Computation :=
  RunChild (name task) (run task) (onAbort task) next.

(** Modelled from the spec: the world around a run, sections 3, 4.4 and 5.
    Time is the virtual clock of the event loop, in milliseconds since
    [Run] was called; code between two suspensions takes no time.
    [abortRequested t] is the abort flag at time [t], with its reason, as
    the observer's [requestAbort] calls have set it; a request reaches
    every live node at once (the propagation the spec recommends).
    [shouldUpdate t] is the throttle. *)
Record Host := mkHost {
  abortRequested : Z -> option string;
  shouldUpdate : Z -> bool
}.

(** A node of the task tree is named by the spawn indices leading to it. *)
Definition Path := list nat.

(** Modelled from the spec: the record of one task node if nothing stops it
    from outside: when it started and settled, how its computation ended,
    its cleanup callback, and the children it spawned, in spawn order. *)
#[warnings="-register-all"] Inductive Execution : Type :=
| mkExecution (path : Path) (started finished : Z) (outcome : Outcome Z)
    (cleanup : option string) (children : list Execution).

Definition ex_started (e : Execution) : Z :=
  let 'mkExecution _ s _ _ _ _ := e in s.
Definition ex_finished (e : Execution) : Z :=
  let 'mkExecution _ _ f _ _ _ := e in f.
Definition ex_outcome (e : Execution) : Outcome Z :=
  let 'mkExecution _ _ _ o _ _ := e in o.
Definition ex_cleanup (e : Execution) : option string :=
  let 'mkExecution _ _ _ _ c _ := e in c.

(** Modelled from the spec: running a computation of the node at [path]
    from time [now] on, with the children [kids] spawned so far
    (sections 4.2 and 7).  The result is the time at which the computation
    ends, how it ends, and its children.
    - [ctx.update] and [ctx.runChild] fail with the Abort signal when the
      flag is set at the moment of the call; nothing else reads the flag.
    - A refused [runChild] starts no child: its promise is rejected at
      once and there is nothing to clean up.
    - [await c] resumes when the child has settled, with its value, or
      rethrows what the child was rejected with. *)
Fixpoint exec (host : Host) (c : Computation) (path : Path) (now : Z)
    (kids : list Execution) : Z * Outcome Z * list Execution :=
  match c with
  | Return v => (now, Resolved v, kids)
  | Throw e => (now, Rejected e, kids)
  | Delay ms next => exec host next path (now + Z.max 0 ms) kids
  | Update _ next =>
    match abortRequested host now with
    | Some reason => (now, Rejected (Aborted reason), kids)
    | None => exec host next path now kids
    end
  | UpdateDetached _ next => exec host next path now kids
  | IfShouldUpdate _ next =>
    if shouldUpdate host now then
      match abortRequested host now with
      | Some reason => (now, Rejected (Aborted reason), kids)
      | None => exec host next path now kids
      end
    else exec host next path now kids
  | RunChild _ body cleanup next =>
    let childPath := path ++ [List.length kids] in
    let child :=
      match abortRequested host now with
      | Some reason =>
        mkExecution childPath now now (Rejected (Aborted reason)) None []
      | None =>
        let '(finished, outcome, grandchildren) :=
          exec host body childPath now [] in
        mkExecution childPath now finished outcome cleanup grandchildren
      end in
    exec host next path now (kids ++ [child])
  | Await i next =>
    match kids !! i with
    | None => (now, Rejected (Failure "await of an unknown promise"), kids)
    | Some child =>
      let now := Z.max now (ex_finished child) in
      match ex_outcome child with
      | Resolved v => exec host (next v) path now kids
      | Rejected e => (now, Rejected e, kids)
      end
    end
  end.

(** Modelled from the spec: the execution of a task started at [now] as
    the node [path]. *)
Definition execute (host : Host) (task : Task) (path : Path) (now : Z)
    : Execution :=
  let '(finished, outcome, kids) := exec host (run task) path now [] in
  mkExecution path now finished outcome (onAbort task) kids.

(** Modelled from the spec: the nodes with a cleanup callback that are
    still pending at time [cut] in the subtree of [e], children before
    parents (sections 3 and 4.4).  A node is pending from its start until it
    settles; the descendants of a settled node are gone with it. *)
Fixpoint pendingAt (cut : Z) (e : Execution) : list Path :=
  match e with
  | mkExecution path started finished _ cleanup kids =>
    if (started <=? cut) && (cut <? finished) then
      concat (map (pendingAt cut) kids)
      ++ match cleanup with Some _ => [path] | None => [] end
    else []
  end.

(** Modelled from the spec: the [onAbort] calls made in the subtree of [e]
    up to time [cut], each with its time (section 4.4, "Abort", and
    section 7).  When a node ends with the Aborted marker, the callbacks of
    its still-pending descendants are invoked, innermost first, and then
    its own; any other ending invokes nothing.  A node that is still
    running at [cut] only passes on what its children have done by then. *)
Fixpoint onAbortCalls (cut : Z) (e : Execution) : list (Z * Path) :=
  match e with
  | mkExecution path started finished outcome cleanup kids =>
    if cut <? started then []
    else if finished <=? cut then
      concat (map (onAbortCalls finished) kids)
      ++ match outcome with
         | Rejected (Aborted _) =>
           map (fun p => (finished, p)) (concat (map (pendingAt finished) kids))
           ++ match cleanup with
              | Some _ => [(finished, path)]
              | None => []
              end
         | _ => []
         end
    else concat (map (onAbortCalls cut) kids)
  end.

(** Modelled from the spec: what the caller of [Run] sees, the settled
    promise, when it settled, and the cleanup callbacks invoked until
    then. *)
Record Settled := mkSettled {
  result : Outcome Z;
  settledAt : Z;
  cleanups : list (Z * Path)
}.

(** Modelled from the spec: [Run(task, observer, updateIntervalMs)],
    section 4.4.  The root node starts at time 0; the observer acts on the
    run only through [requestAbort], that is through [host]. *)
Definition Run (host : Host) (task : Task) : Settled :=
  let root := execute host task [] 0 in
  mkSettled (ex_outcome root) (ex_finished root)
    (onAbortCalls (ex_finished root) root).

End Task.

(** ** The test programs of mol-task *)

Module Tests.

Import Task.

(** The task of [test1]. *)
Definition test1 : Task := create "test" (Return 1) None.

Definition createTask (delayMs : Z) (r : Z) : Task :=
  create ("delayed value " ++ pretty r)
    (UpdateDetached ("Processing delayed... " ++ pretty r)
      (Delay delayMs
        (IfShouldUpdate "hello from delayed... "
          (Return r))))
    (Some ("On abort called " ++ pretty r)%string).

Definition abortAfter (delay : Z) : Task :=
  create ("abort after " ++ pretty delay)
    (Delay delay (Throw (Aborted "test")))
    None.

Definition testTree : Task :=
  create "test o"
    (Delay 250 (IfShouldUpdate "hi! 1"
    (Delay 125 (IfShouldUpdate "hi! 2"
    (Delay 250 (IfShouldUpdate "hi! 3"
    (runChild (createTask 250 1)
    (runChild (createTask 500 2)
    (runChild (createTask 750 3)
    (Await 0 (fun c1 =>
     Await 1 (fun c2 =>
     Await 2 (fun c3 =>
     let r := c1 + c2 + c3 in
     IfShouldUpdate "Almost done..." (Return (r + 1)))))))))))))))
    None.

End Tests.

(** ** StructConn (mol-model) *)

(** Indices are modelled as integers, which a template literal prints in
    decimal (as JavaScript does below 1e21). *)
Module StructConn.

Record Partner := mkPartner {
  residueIndex : Z;
  atomIndex : Z;
  symmetry : string
}.

(** [interface Entry]. *)
Record Entry := mkEntry {
  distance : Q;
  order : Z;
  flags : Z;
  partners : list Partner
}.

Definition _resKey (rA rB : Z) : string :=
  if rA <? rB then pretty rA +:+ "-" +:+ pretty rB
  else pretty rB +:+ "-" +:+ pretty rA.

Definition _emptyEntry : list Entry := [].

(** The body of the loops that fill an index:
    [if (index.has(key)) index.get(key).push(e) else index.set(key, [e])]. *)
Definition pushEntry {K} `{Countable K} (index : gmap K (list Entry))
    (key : K) (e : Entry) : gmap K (list Entry) :=
  match index !! key with
  | Some es => <[key := es ++ [e]]> index
  | None => <[key := [e]]> index
  end.

(** [class StructConnImpl]: the entries and the two indices, [None] while
    an index is [undefined]. *)
Record StructConnImpl := mkStructConnImpl {
  _residuePairIndex : option (gmap string (list Entry));
  _atomIndex : option (gmap Z (list Entry));
  entries : list Entry
}.

(** [constructor(public entries)]. *)
Definition StructConnImpl_new (entries : list Entry) : StructConnImpl :=
  mkStructConnImpl None None entries.

(** The two inner loops of [getResiduePairIndex] for one entry,
    [for (let i = 0; i < l - 1; i++) for (let j = i + i; j < l; j++)].
    Both [i] and [j] stay below [l], so [ps[i]] and [ps[j]] are partners. *)
Definition residuePairIndex_entry (index : gmap string (list Entry))
    (e : Entry) : gmap string (list Entry) :=
  let ps := partners e in
  let l := List.length ps in
  foldl (fun index i =>
    foldl (fun index j =>
      match ps !! i, ps !! j with
      | Some pi, Some pj =>
        let key := _resKey (residueIndex pi) (residueIndex pj) in
        pushEntry index key e
      | _, _ => index
      end) index (seq (i + i) (l - (i + i))))
    index (seq 0 (l - 1)).

Definition getResiduePairIndex (this : StructConnImpl)
    : gmap string (list Entry) * StructConnImpl :=
  match _residuePairIndex this with
  | Some index => (index, this)
  | None =>
    let index := foldl residuePairIndex_entry ∅ (entries this) in
    (index, mkStructConnImpl (Some index) (_atomIndex this) (entries this))
  end.

(** The inner loop of [getAtomIndex] for one entry. *)
Definition atomIndex_entry (index : gmap Z (list Entry)) (e : Entry)
    : gmap Z (list Entry) :=
  foldl (fun index p =>
    let key := atomIndex p in
    pushEntry index key e) index (partners e).

Definition getAtomIndex (this : StructConnImpl)
    : gmap Z (list Entry) * StructConnImpl :=
  match _atomIndex this with
  | Some index => (index, this)
  | None =>
    let index := foldl atomIndex_entry ∅ (entries this) in
    (index, mkStructConnImpl (_residuePairIndex this) (Some index)
              (entries this))
  end.

(** Both queries return their result and the object, whose index may have
    been built by the call. *)
Definition getResidueEntries (this : StructConnImpl)
    (residueAIndex residueBIndex : Z) : list Entry * StructConnImpl :=
  let '(index, this) := getResiduePairIndex this in
  (default _emptyEntry (index !! _resKey residueAIndex residueBIndex), this).

Definition getAtomEntries (this : StructConnImpl) (atomIndex : Z)
    : list Entry * StructConnImpl :=
  let '(index, this) := getAtomIndex this in
  (default _emptyEntry (index !! atomIndex), this).

(** The columns of one partner in a row of the [struct_conn] table, as [_p]
    reads them.  The lookups in the model that [_p] calls,
    [findResidueKey] and [findAtomIndexByLabelName], are not among the
    sources: a row carries what they return for it. *)
Record PartnerColumns := mkPartnerColumns {
  label_asym_id_present : bool;
  findResidueKey : Z;
  label_atom_id : string;
  findAtomIndexByLabelName : Z;
  symmetry_value : string
}.

(** A row of the table: both partners, [conn_type_id],
    [pdbx_value_order] and [pdbx_dist_value]. *)
Record Row := mkRow {
  ptnr1 : PartnerColumns;
  ptnr2 : PartnerColumns;
  conn_type_id : string;
  pdbx_value_order : string;
  pdbx_dist_value : Q
}.

(** What [fromModel] reads of a model: the cached property, the kind of the
    source data and the rows of its [struct_conn] table. *)
Record Model := mkModel {
  _staticPropertyData : option StructConnImpl;
  sourceData_kind : string;
  struct_conn : list Row
}.

(** [_p(row, ps)]; [None] is [undefined]. *)
Definition _p (ps : PartnerColumns) : option Partner :=
  if negb (label_asym_id_present ps) then None else
  let residueIndex := findResidueKey ps in
  if residueIndex <? 0 then None else
  let atomName := label_atom_id ps in
  (* turns out "mismat" records might not have atom name value *)
  if String.eqb atomName EmptyString then None else
  let atomIndex := findAtomIndexByLabelName ps in
  if atomIndex <? 0 then None else
  Some (mkPartner residueIndex atomIndex
          (if String.eqb (symmetry_value ps) EmptyString then "1_555"
           else symmetry_value ps)).

Definition _ps (row : Row) : list Partner :=
  let ret := [] in
  let ret := match _p (ptnr1 row) with Some p => ret ++ [p] | None => ret end in
  let ret := match _p (ptnr2 row) with Some p => ret ++ [p] | None => ret end in
  ret.

Section LinkTypeFlags.

(** The constants of [LinkType.Flag] and [String.prototype.toLowerCase],
    which the sources import. *)
Variables Flag_None Flag_Covalent Flag_Sulfide Flag_Hydrogen
  Flag_MetallicCoordination Flag_Ion : Z.
Variable toLowerCase : string -> string.

(** The body of the loop over the rows; [None] is [continue]. *)
Definition entryOfRow (row : Row) : option Entry :=
  let partners := _ps row in
  if (List.length partners <? 2)%nat then None else
  let type := conn_type_id row in
  let orderType := toLowerCase (pdbx_value_order row) in
  let order :=
    if String.eqb orderType "sing" then 1
    else if String.eqb orderType "doub" then 2
    else if String.eqb orderType "trip" then 3
    else if String.eqb orderType "quad" then 4
    else 1 in
  let flags :=
    if String.eqb type "covale" || String.eqb type "covale_base"
       || String.eqb type "covale_phosphate" || String.eqb type "covale_sugar"
       || String.eqb type "modres"
    then Flag_Covalent
    else if String.eqb type "disulf" then Z.lor Flag_Covalent Flag_Sulfide
    else if String.eqb type "hydrog" then Flag_Hydrogen
    else if String.eqb type "metalc" then Flag_MetallicCoordination
    else if String.eqb type "saltbr" then Flag_Ion
    else Flag_None in
  Some (mkEntry (pdbx_dist_value row) order flags partners).

(** [fromModel(model)]: the result, [None] for [undefined], and the model
    with the property it may have stored. *)
Definition fromModel (model : Model) : option StructConnImpl * Model :=
  match _staticPropertyData model with
  | Some cached => (Some cached, model)
  | None =>
    if negb (String.eqb (sourceData_kind model) "mmCIF") then (None, model)
    else if (List.length (struct_conn model) =? 0)%nat then (None, model)
    else
      let entries :=
        foldl (fun entries row =>
                 match entryOfRow row with
                 | Some e => entries ++ [e]
                 | None => entries
                 end) [] (struct_conn model) in
      let ret := StructConnImpl_new entries in
      (Some ret,
       mkModel (Some ret) (sourceData_kind model) (struct_conn model))
  end.

End LinkTypeFlags.

End StructConn.

(** ** The progress tree printer of the mol-task tests *)

Module ProgressTree.

(** The fields of a [Progress.Node] that [messageTree] reads:
    [progress.taskName], [progress.message] and [children]. *)
#[warnings="-register-all"] Inductive Node :=
| mkNode (taskName message : string) (children : list Node).

Definition taskName (n : Node) : string := let (t, _, _) := n in t.
Definition message (n : Node) : string := let (_, m, _) := n in m.
Definition children (n : Node) : list Node := let (_, _, c) := n in c.

(** The line break of the template literal and of [join]. *)
Definition newline : string := String (Ascii.ascii_of_nat 10) EmptyString.

(** [messageTree(root, prefix)]; the default [prefix = ''] is passed by the
    caller. *)
Fixpoint messageTree (root : Node) (prefix : string) : string :=
  match root with
  | mkNode taskName message children =>
    match children with
    | [] => prefix +:+ taskName +:+ ": " +:+ message
    | _ :: _ =>
      let newPrefix := prefix +:+ "  |_ " in
      let subTree := map (fun c => messageTree c newPrefix) children in
      prefix +:+ taskName +:+ ": " +:+ message +:+ newline
        +:+ String.concat newline subTree
    end
  end.

End ProgressTree.

(** ** The reference atom of a link (intra-unit link visual) *)

Module IntraUnitLink.

(** The arrays [a], [b] and [offset] of [unit.links]. *)
Record Links := mkLinks {
  a : list Z;
  b : list Z;
  offset : list Z
}.

(** [arr[i]] for an index that may itself be [undefined]. *)
Definition at_ (arr : list Z) (i : option Z) : option Z :=
  match i with
  | Some i => JS.readIndex arr i
  | None => None
  end.

(** The loop [for (; i < il; ++i) if (arr[i] !== other) return arr[i]],
    with [Some x] for a return at the value [x] and [None] when the loop
    runs out.  There are at most [il - i] rounds. *)
Fixpoint firstOther (fuel : nat) (arr : list Z) (other : option Z)
    (i il : Z) : option (option Z) :=
  if i <? il then
    match fuel with
    | O => None
    | S fuel' =>
      if decide (JS.readIndex arr i = other)
      then firstOther fuel' arr other (i + 1) il
      else Some (JS.readIndex arr i)
    end
  else None.

(** One of the two loops with its header
    [let i = offset[v], il = offset[v + 1]]; the comparison [i < il] fails
    when either is [undefined]. *)
Definition scanEdges (links : Links) (arr : list Z) (v other : option Z)
    : option (option Z) :=
  match at_ (offset links) v, at_ (offset links) ((fun x => x + 1) <$> v) with
  | Some i, Some il => firstOther (Z.to_nat (il - i)) arr other i il
  | _, _ => None
  end.

(** [referencePosition(edgeIndex)] up to the call of [pos]: [Some x] stands
    for [return pos(elements[x], vRef)] and [None] for [return null]. *)
Definition referencePosition (links : Links) (edgeIndex : Z)
    : option (option Z) :=
  let aI := JS.readIndex (a links) edgeIndex in
  let bI := JS.readIndex (b links) edgeIndex in
  let '(aI, bI) :=
    match aI, bI with
    | Some x, Some y => if y <? x then (bI, aI) else (aI, bI)
    | _, _ => (aI, bI)
    end in
  match scanEdges links (b links) aI bI with
  | Some x => Some x
  | None =>
    match scanEdges links (a links) bI aI with
    | Some x => Some x
    | None => None
    end
  end.

End IntraUnitLink.

(* ================================================================== *)
(** * Specification predicates *)
(* ================================================================== *)

(** ** Tokenizer: well-formed states *)

(** The state [Tokenizer(data)] builds, and every state reached from it:
    [length] is the length of [data] and [position] lies within it. *)
Definition tokenizer_wf (st : Tokenizer) : Prop :=
  length st = Z.of_nat (List.length (data st)) /\
  0 <= position st <= length st.

(** [st'] is [st] moved forward: same text, same bounds, and a position that
    did not decrease. *)
Definition advances (st st' : Tokenizer) : Prop :=
  data st' = data st /\ length st' = length st /\
  position st <= position st'.

(** The characters of [text] from index [from] up to, not including,
    [to]. *)
Definition slice (text : list Z) (from to : Z) : list Z :=
  take (Z.to_nat (to - from)) (drop (Z.to_nat from) text).

(** Line feed or carriage return. *)
Definition isLineBreak (c : Z) : Prop := c = 10 \/ c = 13.

(** Space or tab, the characters [trim] removes. *)
Definition isBlank (c : Z) : Prop := c = 9 \/ c = 32.

(** Tab, line feed, carriage return or space. *)
Definition isWhitespace (c : Z) : Prop := c = 9 \/ c = 10 \/ c = 13 \/ c = 32.

(** How [eatLine] ends: at the end of the input without a line break, or
    just behind a line feed, a lone carriage return, or the pair of both. *)
Definition lineEnd (st st' : Tokenizer) : Prop :=
  (tokenEnd st' = length st /\ position st' = length st /\
   lineNumber st' = lineNumber st) \/
  (lineNumber st' = lineNumber st + 1 /\
   ((JS.charCodeAt (data st) (tokenEnd st') = Some 10 /\
     position st' = tokenEnd st' + 1) \/
    (JS.charCodeAt (data st) (tokenEnd st') = Some 13 /\
     JS.charCodeAt (data st) (tokenEnd st' + 1) = Some 10 /\
     position st' = tokenEnd st' + 2) \/
    (JS.charCodeAt (data st) (tokenEnd st') = Some 13 /\
     JS.charCodeAt (data st) (tokenEnd st' + 1) <> Some 10 /\
     position st' = tokenEnd st' + 1))).

(** The line breaks in [text] as [skipWhitespace] counts them: every
    carriage return, and every line feed that does not follow one; [prev] is
    the character before [text]. *)
Fixpoint lineBreaksFrom (prev : Z) (text : list Z) : Z :=
  match text with
  | [] => 0
  | c :: rest =>
    (if (c =? 13) || ((c =? 10) && negb (prev =? 13)) then 1 else 0)
    + lineBreaksFrom c rest
  end.

(** The character at index [i] of [text] is a tab or a space. *)
Definition blankAt (text : list Z) (i : Z) : Prop :=
  exists c, JS.charCodeAt text i = Some c /\ isBlank c.

(** The text of the [i]-th token of a token buffer:
    [data.substring(indices[2 * i], indices[2 * i + 1])]. *)
Definition tokenText (tokens : TokenBuilder.Builder) (i : nat) : list Z :=
  match TokenBuilder.indices tokens !! (2 * i)%nat,
        TokenBuilder.indices tokens !! (2 * i + 1)%nat with
  | Some s, Some e => JS.substring (TokenBuilder.data tokens) s e
  | _, _ => []
  end.

(** A line break as [eatLine] consumes it, or nothing at the end of the
    input. *)
Definition lineBreak (br : list Z) : Prop :=
  br = [] \/ br = [10] \/ br = [13] \/ br = [13; 10].

(** ** StructConn: what the indices hold *)

(** Each index of the object is either not built yet or the one that the
    loops build from [entries]: the state of an object that was made by the
    constructor and only queried since. *)
Definition index_ok (sc : StructConn.StructConnImpl) : Prop :=
  (StructConn._residuePairIndex sc = None \/
   StructConn._residuePairIndex sc
     = Some (foldl StructConn.residuePairIndex_entry ∅
               (StructConn.entries sc))) /\
  (StructConn._atomIndex sc = None \/
   StructConn._atomIndex sc
     = Some (foldl StructConn.atomIndex_entry ∅ (StructConn.entries sc))).

(** One copy of [e] for each partner of [e] that is atom [a]. *)
Definition atomHits (a : Z) (e : StructConn.Entry) : list StructConn.Entry :=
  flat_map (fun p => if StructConn.atomIndex p =? a then [e] else [])
    (StructConn.partners e).

(** The residues [ra] and [rb] are those of the partners at positions [i]
    and [j] of [e], in either order, for positions [i < l - 1] and
    [i + i <= j < l] of the [l] partners. *)
Definition linksResidues (e : StructConn.Entry) (ra rb : Z) : Prop :=
  exists (i j : nat) pi pj,
    (i + 1 < List.length (StructConn.partners e))%nat /\
    (i + i <= j)%nat /\
    StructConn.partners e !! i = Some pi /\
    StructConn.partners e !! j = Some pj /\
    ((StructConn.residueIndex pi = ra /\ StructConn.residueIndex pj = rb) \/
     (StructConn.residueIndex pi = rb /\ StructConn.residueIndex pj = ra)).

(** One copy of [e] for each pair of partners that the loops of
    [getResiduePairIndex] visit and whose key is [key]. *)
Definition residueHits (key : string) (e : StructConn.Entry)
    : list StructConn.Entry :=
  let ps := StructConn.partners e in
  let l := List.length ps in
  flat_map (fun i =>
    flat_map (fun j =>
      match ps !! i, ps !! j with
      | Some pi, Some pj =>
        if decide (StructConn._resKey (StructConn.residueIndex pi)
                     (StructConn.residueIndex pj) = key)
        then [e] else []
      | _, _ => []
      end) (seq (i + i) (l - (i + i))))
    (seq 0 (l - 1)).

(** No character of the string is a dash. *)
Fixpoint noDash (s : string) : Prop :=
  match s with
  | EmptyString => True
  | String c rest => c <> "-"%char /\ noDash rest
  end.

(** ** The reference atom of a link *)

(** [x] is the first value in [arr] at the indices [from <= i < to] that
    differs from [other]. *)
Definition firstDiffering (arr : list Z) (other : option Z) (from to : Z)
    (x : option Z) : Prop :=
  exists i, from <= i < to /\ JS.readIndex arr i = x /\ x <> other /\
    forall k, from <= k < i -> JS.readIndex arr k = other.

(** All values in [arr] at the indices [from <= i < to] are [other]. *)
Definition allEqual (arr : list Z) (other : option Z) (from to : Z) : Prop :=
  forall k, from <= k < to -> JS.readIndex arr k = other.

(** ** The progress tree: nodes in the order of the printout *)

(** The nodes of the tree with their depths, parents before children,
    children in order. *)
Fixpoint preorder (depth : nat) (root : ProgressTree.Node)
    : list (nat * ProgressTree.Node) :=
  match root with
  | ProgressTree.mkNode _ _ children =>
    (depth, root) :: concat (map (preorder (S depth)) children)
  end.

(** [depth] copies of the marker that [messageTree] adds per level. *)
Fixpoint indent (depth : nat) : string :=
  match depth with
  | O => EmptyString
  | S d => indent d +:+ "  |_ "
  end.

(** The line for a node at a depth. *)
Definition renderLine (prefix : string) (entry : nat * ProgressTree.Node)
    : string :=
  prefix +:+ indent (fst entry) +:+ ProgressTree.taskName (snd entry)
    +:+ ": " +:+ ProgressTree.message (snd entry).

(** ** TokenBuilder: well-formed builders *)

(** What [TokenBuilder.create] establishes and [add] / [addUnchecked] (within
    capacity) maintain: a buffer of at least ten slots, an [offset] inside
    it, and [indicesLenMinus2] in step with the buffer. *)
Definition builder_wf (b : TokenBuilder.Builder) : Prop :=
  let len := Z.of_nat (List.length (TokenBuilder.indices b)) in
  10 <= len /\
  0 <= TokenBuilder.offset b <= len /\
  TokenBuilder.indicesLenMinus2 b = len - 2.

(** The grown buffer length [1.61 * length] still is a signed 32-bit
    integer, so that [| 0] leaves it as it is. *)
Definition builder_can_grow (b : TokenBuilder.Builder) : Prop :=
  161 * Z.of_nat (List.length (TokenBuilder.indices b)) / 100 < 2 ^ 31.

(** A value a [Uint32Array] stores unchanged. *)
Definition uint32 (v : Z) : Prop := 0 <= v < 2 ^ 32.

(** The loop of [readLinesChunk], followed write by write: both slots that
    [addUnchecked] is about to fill lie inside the buffer, in each of the
    [n] iterations. *)
Fixpoint writesInBounds (n : nat) (state : Tokenizer)
    (tokens : TokenBuilder.Builder) : Prop :=
  match n with
  | O => True
  | S n' =>
    let state := Tokenizer.markLine state in
    (0 <= TokenBuilder.offset tokens /\
     TokenBuilder.offset tokens + 1 <
       Z.of_nat (List.length (TokenBuilder.indices tokens))) /\
    writesInBounds n' state
      (TokenBuilder.addUnchecked tokens (tokenStart state) (tokenEnd state))
  end.

(** A caller that adds a list of tokens one after the other with
    [TokenBuilder.add], stopping at the first call that throws. *)
Fixpoint addAll (tokens : TokenBuilder.Builder) (pairs : list (Z * Z))
    : option TokenBuilder.Builder :=
  match pairs with
  | [] => Some tokens
  | (start, end_) :: rest =>
    match TokenBuilder.add tokens start end_ with
    | None => None
    | Some tokens => addAll tokens rest
    end
  end.

(** ** Chunked reading *)

(** No checkpoint of the context ever finds the abort flag set. *)
Definition never_aborted (ctx : Scheduler.RuntimeContext) : Prop :=
  forall k, Scheduler.abortRequested ctx k = None.

(** The variables of [readLinesAsync] on entry. *)
Definition readLinesAsync_start (state : Tokenizer) (count : Z)
    : Tokenizer.ReadLinesVars :=
  Tokenizer.mkReadLinesVars state (TokenBuilder.create state (count * 2)) 0.

(** The variables of [readLinesAsync] at a chunk boundary, whatever the
    scheduler does: any number of [processChunk] calls, with any chunk sizes,
    after the start. *)
Inductive chunkReachable (state : Tokenizer) (count : Z)
    : Tokenizer.ReadLinesVars -> Prop :=
| reach_start : chunkReachable state count (readLinesAsync_start state count)
| reach_chunk (chunkSize : Z) (vars : Tokenizer.ReadLinesVars) :
    chunkReachable state count vars ->
    chunkReachable state count
      (snd (Tokenizer.readLinesAsync_processChunk count chunkSize vars)).

(** ** Task tree *)


(** Nothing in [early] is an ancestor of, or equal to, something in
    [late]. *)
Definition apart (early late : list Task.Path) : Prop :=
  forall a d, In a early -> In d late -> ~ a `prefix_of` d.


(** A computation without a checkpoint: it never calls [ctx.update] or
    [ctx.runChild], and runs no chunked subtask. *)
Fixpoint checkpointFree (c : Task.Computation) : Prop :=
  match c with
  | Task.Return _ | Task.Throw _ => True
  | Task.Delay _ next => checkpointFree next
  | Task.Update _ _ | Task.UpdateDetached _ _ | Task.IfShouldUpdate _ _
  | Task.RunChild _ _ _ _ => False
  | Task.Await _ next => forall v, checkpointFree (next v)
  end.



(** The host on which nobody ever requests an abort. *)
Definition quietHost : Task.Host := Task.mkHost (fun _ => None) (fun _ => false).

(** ** Numbers: order and shape *)

Section NumberShapes.

Import Number.

(** What [round_pos] makes of a positive rational, before the check for
    overflow: the nearest multiple of [2^binade]. *)
Definition rval (a : Q) : Q := (inject_Z (mantissa a) * pow2 (binade a))%Q.

(** The order of the numbers that are not [NaN]. *)
Definition leN (x y : number) : Prop :=
  match x, y with
  | S754_nan, _ | _, S754_nan => False
  | S754_infinity true, _ => True
  | _, S754_infinity false => True
  | S754_infinity false, _ => False
  | _, S754_infinity true => False
  | _, _ => (value x <= value y)%Q
  end.

(** A zero, a negative number or [-Infinity]. *)
Definition isNonPos (x : number) : Prop :=
  match x with
  | S754_zero _ | S754_finite true _ _ | S754_infinity true => True
  | _ => False
  end.

(** A zero, a positive number or [Infinity]. *)
Definition isNonNeg (x : number) : Prop :=
  match x with
  | S754_zero _ | S754_finite false _ _ | S754_infinity false => True
  | _ => False
  end.

(** A positive number or [Infinity]. *)
Definition isPos (x : number) : Prop :=
  match x with
  | S754_finite false _ _ | S754_infinity false => True
  | _ => False
  end.

(** [x] is positive and at least [r]. *)
Definition atLeast (r : Q) (x : number) : Prop :=
  match x with
  | S754_infinity false => True
  | S754_finite false _ _ => (r <= value x)%Q
  | _ => False
  end.

(** A count: [+0] or a positive number. *)
Definition isCount (x : number) : Prop :=
  match x with
  | S754_zero false | S754_finite false _ _ => True
  | _ => False
  end.

(** A clamped number: [+0], or positive and at most the count [k]. *)
Definition clamped (k : Z) (t : number) : Prop :=
  match t with
  | S754_zero false => True
  | S754_finite false _ _ => (value t <= inject_Z k)%Q
  | _ => False
  end.

(** A binary64 value: the mantissa of a finite number is canonical, and its
    exponent is in range. *)
Definition isDouble (x : number) : Prop := valid_binary 53 1024 x = true.

(** A finite number has a mantissa below [2^53] and an exponent from
    [-1074] on. *)
Definition bounded53 (x : number) : Prop :=
  match x with
  | S754_finite _ m e => Zpos m < 2 ^ 53 /\ -1074 <= e
  | _ => True
  end.

End NumberShapes.

(** ** Numbers: a cross-check against the Standard Library *)

(** The same number, sign of zero included. *)
Definition sameNumber (x y : Number.number) : bool :=
  match x, y with
  | S754_zero a, S754_zero b | S754_infinity a, S754_infinity b => Bool.eqb a b
  | S754_nan, S754_nan => true
  | S754_finite a m e, S754_finite b m' e' =>
    Bool.eqb a b && (Zpos m =? Zpos m') && (e =? e')
  | _, _ => false
  end.

Definition sameOrder (a b : option comparison) : bool :=
  match a, b with
  | Some Eq, Some Eq | Some Lt, Some Lt | Some Gt, Some Gt | None, None => true
  | _, _ => false
  end.

(** The zeros, the infinities and [NaN]; the smallest double, the largest
    subnormal one and the largest one; [1e308] and [-1e308]; 1, 0.5, 0.1,
    1.4, 3, -2.5, 7, 10, 22 and [2^53 - 1]. *)
Definition sampleNumbers : list Number.number :=
  [ S754_zero false; S754_zero true; S754_infinity false; S754_infinity true;
    S754_nan;
    S754_finite false 1 (-1074);
    S754_finite false 4503599627370495 (-1074);
    S754_finite false 9007199254740991 971;
    S754_finite false 5010420900022432 971;
    S754_finite true 5010420900022432 971;
    S754_finite false 4503599627370496 (-52);
    S754_finite false 4503599627370496 (-53);
    S754_finite false 7205759403792794 (-56);
    S754_finite false 6305039478318694 (-52);
    S754_finite false 6755399441055744 (-51);
    S754_finite true 5629499534213120 (-51);
    S754_finite false 7881299347898368 (-50);
    S754_finite false 5629499534213120 (-49);
    S754_finite false 6192449487634432 (-48);
    S754_finite false 9007199254740991 0 ].

(* ================================================================== *)
(** * Proofs *)
(* ================================================================== *)

(** ** The embedding on small inputs *)

(** The text ["a\r\nb"]: the first line is ["a"], and the line break of two
    characters counts as one line. *)
Example readLine_crlf :
  Tokenizer.readLine (Tokenizer.Tokenizer [97; 13; 10; 98])
  = ([97], mkTokenizer [97; 13; 10; 98] 3 4 2 0 1).
Proof. reflexivity. Qed.

Example readLines_crlf :
  Tokenizer.readLines (Tokenizer.Tokenizer [97; 13; 10; 98]) 2
  = (mkTokenizer [97; 13; 10; 98] 4 4 2 3 4,
     TokenBuilder.mkBuilder [97; 13; 10; 98] 2
       [0; 1; 3; 4; 0; 0; 0; 0; 0; 0] 4 8).
Proof. reflexivity. Qed.

(** [" \r\n\t\nb"]: two line breaks, and the last whitespace seen is the
    newline. *)
Example skipWhitespace_mixed :
  Tokenizer.skipWhitespace (Tokenizer.Tokenizer [32; 13; 10; 9; 10; 98])
  = (10, mkTokenizer [32; 13; 10; 9; 10; 98] 5 6 3 0 0).
Proof. reflexivity. Qed.

Example eatValue_stops_at_space :
  Tokenizer.eatValue (Tokenizer.Tokenizer [97; 98; 32; 99])
  = mkTokenizer [97; 98; 32; 99] 2 4 1 0 2.
Proof. reflexivity. Qed.

(** A quarter into the domain [0, 10] of a three-colour scale the parameter
    is 1/2: the first two colours are read, with weight 1/2. *)
Example color_between_entries :
  ColorScale.color
    (fun c1 c2 w => if Number.eqb w (Number.literal (1 # 2)) then c1 + c2 else 0)
    (ColorScale.create
       (ColorScale.mkColorScaleProps (Number.ofZ 0, Number.ofZ 10) false
          [1; 2; 4]))
    (Number.literal (5 # 2))
  = Some 3.
Proof. vm_compute. reflexivity. Qed.

(** Seven tenths into the same domain the parameter is the double next
    below 1.4, and the weight handed to [Color.interpolate] is
    [0.3999999999999999]. *)
Example color_weight_is_rounded (interpolate :
    ColorScale.Color -> ColorScale.Color -> Number.number -> ColorScale.Color) :
  ColorScale.color interpolate
    (ColorScale.create
       (ColorScale.mkColorScaleProps (Number.ofZ 0, Number.ofZ 10) false
          [1; 2; 4]))
    (Number.ofZ 7)
  = Some (interpolate 2 4
            (Number.literal (3999999999999999 # 10000000000000000))).
Proof. vm_compute. reflexivity. Qed.

(** [(15 / 22) * 22] is [14.999999999999998]: over the domain [0, 22] of a
    palette of 23 colours the value 15 blends the entries 14 and 15. *)
Example color_next_to_an_entry (interpolate :
    ColorScale.Color -> ColorScale.Color -> Number.number -> ColorScale.Color) :
  let scale :=
    ColorScale.create
      (ColorScale.mkColorScaleProps (Number.ofZ 0, Number.ofZ 22) false
         (map Z.of_nat (seq 0 23))) in
  ColorScale.parameter scale (Number.ofZ 15)
  = Number.literal (14999999999999998 # 1000000000000000) /\
  ColorScale.color interpolate scale (Number.ofZ 15)
  = Some (interpolate 14 15
            (Number.literal (9999999999999982 # 10000000000000000))).
Proof. vm_compute. split; reflexivity. Qed.

(** [1e308] as a double, and the difference that overflows. *)
Example literal_1e308 :
  Number.literal (inject_Z (10 ^ 308))
  = S754_finite false 5010420900022432 971 /\
  Number.sub (Number.literal (inject_Z (10 ^ 308)))
    (Number.literal (inject_Z (- 10 ^ 308)))
  = S754_infinity false.
Proof. vm_compute. split; reflexivity. Qed.

(** On every pair of the sample numbers, subtraction, multiplication,
    division and comparison are those of the Standard Library's binary64
    ([SFsub], [SFmul], [SFdiv] at precision 53, and [SFcompare]). *)
Example operations_agree_on_samples :
  forallb (fun x => forallb (fun y =>
      sameNumber (Number.sub x y) (SFsub 53 1024 x y)
      && sameNumber (Number.mul x y) (SFmul 53 1024 x y)
      && sameNumber (Number.div x y) (SFdiv 53 1024 x y)
      && sameOrder (Number.compare x y) (SFcompare x y))
    sampleNumbers) sampleNumbers = true.
Proof. vm_compute. reflexivity. Qed.

(** On these operands the operations of [Number] are those of the Standard
    Library's binary64 ([SFsub], [SFdiv], [SFmul] at precision 53). *)
Example operations_agree_with_SpecFloat :
  let big := Number.literal (inject_Z (10 ^ 308)) in
  let small := Number.literal (inject_Z (- 10 ^ 308)) in
  let n k := Number.ofZ k in
  Number.sub big small = SFsub 53 1024 big small /\
  Number.sub (n 7) (n 0) = SFsub 53 1024 (n 7) (n 0) /\
  Number.div (n 7) (n 10) = SFdiv 53 1024 (n 7) (n 10) /\
  Number.mul (Number.div (n 7) (n 10)) (n 2)
  = SFmul 53 1024 (Number.div (n 7) (n 10)) (n 2) /\
  Number.div (n 15) (n 22) = SFdiv 53 1024 (n 15) (n 22) /\
  Number.mul (Number.div (n 15) (n 22)) (n 22)
  = SFmul 53 1024 (Number.div (n 15) (n 22)) (n 22) /\
  Number.sub (Number.literal (14 # 10)) (n 1)
  = SFsub 53 1024 (Number.literal (14 # 10)) (n 1) /\
  Number.div (Number.sub big small) (Number.sub big small)
  = SFdiv 53 1024 (Number.sub big small) (Number.sub big small).
Proof. vm_compute. repeat split. Qed.

(** An abort requested before the first checkpoint of a task: the run is
    rejected with the reason, and the callback of the task has run once. *)
Example abort_before_first_checkpoint :
  Task.Run (Task.mkHost (fun _ => Some "x"%string) (fun _ => true))
    (Task.create "t" (Task.Update "m" (Task.Return 1)) (Some "cb"%string))
  = Task.mkSettled (Rejected (Aborted "x")) 0 [(0, [])].
Proof. reflexivity. Qed.

Section JSFacts.

Lemma charCodeAt_Some s i c :
  JS.charCodeAt s i = Some c -> 0 <= i < Z.of_nat (List.length s).
Proof.
  unfold JS.charCodeAt. destruct (0 <=? i) eqn:Hi; [|discriminate].
  intros H. apply lookup_lt_Some in H. lia.
Qed.

Lemma isCode_true code k : JS.isCode code k = true -> code = Some k.
Proof.
  destruct code as [c|]; simpl; [|discriminate].
  intros H. apply Z.eqb_eq in H. now subst.
Qed.

Lemma substring_empty s a : JS.substring s a a = [].
Proof.
  unfold JS.substring.
  replace (Z.to_nat _) with 0%nat by lia. reflexivity.
Qed.

End JSFacts.

Section TokenizerLoops.

Local Ltac fields := unfold set_position, set_lineNumber, set_tokenStart,
  set_tokenEnd in *; simpl in *.

Lemma eatLine_loop_fuel fuel1 fuel2 st :
  length st - position st <= Z.of_nat fuel1 ->
  length st - position st <= Z.of_nat fuel2 ->
  Tokenizer.eatLine_loop fuel1 st = Tokenizer.eatLine_loop fuel2 st.
Proof.
  revert fuel2 st. induction fuel1 as [|f1 IH]; intros fuel2 st H1 H2.
  - simpl. destruct (position st <? length st) eqn:Hlt.
    + apply Z.ltb_lt in Hlt. lia.
    + destruct fuel2; simpl; now rewrite Hlt.
  - destruct fuel2 as [|f2].
    + simpl. destruct (position st <? length st) eqn:Hlt; [|reflexivity].
      apply Z.ltb_lt in Hlt. lia.
    + simpl. destruct (position st <? length st) eqn:Hlt; [|reflexivity].
      destruct (JS.isCode _ 10); [reflexivity|].
      destruct (JS.isCode _ 13); [reflexivity|].
      apply IH; fields; lia.
Qed.

(** The loop equation of the source: [eatLine] is its own loop body
    followed by [eatLine] again. *)
Lemma eatLine_unfold st :
  Tokenizer.eatLine st =
  if position st <? length st then
    let code := JS.charCodeAt (data st) (position st) in
    if JS.isCode code 10 then
      set_lineNumber (lineNumber st + 1)
        (set_position (position st + 1) (set_tokenEnd (position st) st))
    else if JS.isCode code 13 then
      let st1 := set_lineNumber (lineNumber st + 1)
        (set_position (position st + 1) (set_tokenEnd (position st) st)) in
      if JS.isCode (JS.charCodeAt (data st1) (position st1)) 10
      then set_position (position st1 + 1) st1 else st1
    else Tokenizer.eatLine (set_position (position st + 1) st)
  else set_tokenEnd (position st) st.
Proof.
  unfold Tokenizer.eatLine.
  destruct (position st <? length st) eqn:Hlt.
  - apply Z.ltb_lt in Hlt.
    destruct (Z.to_nat (length st - position st)) as [|f] eqn:Hf; [lia|].
    simpl. rewrite (proj2 (Z.ltb_lt _ _) Hlt).
    cbv zeta.
    destruct (JS.isCode _ 10); [reflexivity|].
    destruct (JS.isCode _ 13); [reflexivity|].
    apply eatLine_loop_fuel; fields; lia.
  - destruct (Z.to_nat _); simpl; now rewrite Hlt.
Qed.

Lemma eatLine_loop_bounds fuel st :
  tokenizer_wf st ->
  tokenizer_wf (Tokenizer.eatLine_loop fuel st) /\
  advances st (Tokenizer.eatLine_loop fuel st) /\
  tokenStart (Tokenizer.eatLine_loop fuel st) = tokenStart st.
Proof.
  revert st. induction fuel as [|f IH]; intros st [Hlen Hpos]; simpl.
  - destruct (position st <? length st); unfold tokenizer_wf, advances;
      fields; repeat split; try lia; auto.
  - destruct (position st <? length st) eqn:Hlt.
    2:{ unfold tokenizer_wf, advances; fields; repeat split; try lia; auto. }
    apply Z.ltb_lt in Hlt.
    destruct (JS.isCode (JS.charCodeAt (data st) (position st)) 10) eqn:H10.
    { unfold tokenizer_wf, advances; fields; repeat split; try lia; auto. }
    destruct (JS.isCode (JS.charCodeAt (data st) (position st)) 13) eqn:H13.
    { destruct (JS.isCode (JS.charCodeAt (data st) (position st + 1)) 10)
        eqn:Hnext.
      - apply isCode_true, charCodeAt_Some in Hnext.
        unfold tokenizer_wf, advances; fields; repeat split; try lia; auto.
      - unfold tokenizer_wf, advances; fields; repeat split; try lia; auto. }
    destruct (IH (set_position (position st + 1) st)) as (Hwf & Hadv & Hts).
    { unfold tokenizer_wf; fields; split; [auto | lia]. }
    destruct Hadv as (Hd & Hl & Hp). fields.
    repeat split; auto; try lia; apply Hwf.
Qed.

Lemma eatValue_loop_fuel fuel1 fuel2 st :
  length st - position st <= Z.of_nat fuel1 ->
  length st - position st <= Z.of_nat fuel2 ->
  Tokenizer.eatValue_loop fuel1 st = Tokenizer.eatValue_loop fuel2 st.
Proof.
  revert fuel2 st. induction fuel1 as [|f1 IH]; intros fuel2 st H1 H2.
  - simpl. destruct (position st <? length st) eqn:Hlt.
    + apply Z.ltb_lt in Hlt. lia.
    + destruct fuel2; simpl; now rewrite Hlt.
  - destruct fuel2 as [|f2].
    + simpl. destruct (position st <? length st) eqn:Hlt; [|reflexivity].
      apply Z.ltb_lt in Hlt. lia.
    + simpl. destruct (position st <? length st) eqn:Hlt; [|reflexivity].
      match goal with |- (if ?b then _ else _) = _ => destruct b end;
        [reflexivity|].
      apply IH; fields; lia.
Qed.

(** The loop equation of [eatValue]. *)
Lemma eatValue_unfold st :
  Tokenizer.eatValue st =
  if position st <? length st then
    let code := JS.charCodeAt (data st) (position st) in
    if JS.isCode code 9 || JS.isCode code 10 || JS.isCode code 13
       || JS.isCode code 32
    then set_tokenEnd (position st) st
    else Tokenizer.eatValue (set_position (position st + 1) st)
  else set_tokenEnd (position st) st.
Proof.
  unfold Tokenizer.eatValue.
  destruct (position st <? length st) eqn:Hlt.
  - apply Z.ltb_lt in Hlt.
    destruct (Z.to_nat (length st - position st)) as [|f] eqn:Hf; [lia|].
    simpl. rewrite (proj2 (Z.ltb_lt _ _) Hlt). cbv zeta.
    match goal with |- (if ?b then _ else _) = _ => destruct b end;
      [reflexivity|].
    apply eatValue_loop_fuel; fields; lia.
  - destruct (Z.to_nat _); simpl; now rewrite Hlt.
Qed.

Lemma eatValue_loop_bounds fuel st :
  tokenizer_wf st ->
  tokenizer_wf (Tokenizer.eatValue_loop fuel st) /\
  advances st (Tokenizer.eatValue_loop fuel st).
Proof.
  revert st. induction fuel as [|f IH]; intros st [Hlen Hpos]; simpl.
  - destruct (position st <? length st); unfold tokenizer_wf, advances;
      fields; repeat split; try lia; auto.
  - destruct (position st <? length st) eqn:Hlt.
    2:{ unfold tokenizer_wf, advances; fields; repeat split; try lia; auto. }
    apply Z.ltb_lt in Hlt.
    match goal with |- context [if ?b then _ else _] => destruct b end.
    { unfold tokenizer_wf, advances; fields; repeat split; try lia; auto. }
    destruct (IH (set_position (position st + 1) st)) as (Hwf & Hadv).
    { unfold tokenizer_wf; fields; split; [auto | lia]. }
    destruct Hadv as (Hd & Hl & Hp). fields.
    repeat split; auto; try lia; apply Hwf.
Qed.

Lemma skipWhitespace_loop_fuel fuel1 fuel2 prev st :
  length st - position st <= Z.of_nat fuel1 ->
  length st - position st <= Z.of_nat fuel2 ->
  Tokenizer.skipWhitespace_loop fuel1 prev st =
  Tokenizer.skipWhitespace_loop fuel2 prev st.
Proof.
  revert fuel2 prev st.
  induction fuel1 as [|f1 IH]; intros fuel2 prev st H1 H2.
  - simpl. destruct (position st <? length st) eqn:Hlt.
    + apply Z.ltb_lt in Hlt. lia.
    + destruct fuel2; simpl; now rewrite Hlt.
  - destruct fuel2 as [|f2].
    + simpl. destruct (position st <? length st) eqn:Hlt; [|reflexivity].
      apply Z.ltb_lt in Hlt. lia.
    + simpl. destruct (position st <? length st) eqn:Hlt; [|reflexivity].
      destruct (JS.isCode (JS.charCodeAt (data st) (position st)) 9).
      { apply IH; fields; lia. }
      destruct (JS.isCode (JS.charCodeAt (data st) (position st)) 32).
      { apply IH; fields; lia. }
      destruct (JS.isCode (JS.charCodeAt (data st) (position st)) 10).
      { apply IH; destruct (negb (prev =? 13)); fields; lia. }
      destruct (JS.isCode (JS.charCodeAt (data st) (position st)) 13).
      { apply IH; fields; lia. }
      reflexivity.
Qed.

(** The loop equation of [skipWhitespace], for the loop entered with any
    [prev]. *)
Lemma skipWhitespace_unfold prev st :
  let loop prev st :=
    Tokenizer.skipWhitespace_loop (Z.to_nat (length st - position st)) prev st in
  loop prev st =
  if position st <? length st then
    let c := JS.charCodeAt (data st) (position st) in
    if JS.isCode c 9 then loop 9 (set_position (position st + 1) st)
    else if JS.isCode c 32 then loop 32 (set_position (position st + 1) st)
    else if JS.isCode c 10 then
      let st1 := if negb (prev =? 13)
                 then set_lineNumber (lineNumber st + 1) st else st in
      loop 10 (set_position (position st1 + 1) st1)
    else if JS.isCode c 13 then
      let st1 := set_position (position st + 1) st in
      loop 13 (set_lineNumber (lineNumber st1 + 1) st1)
    else (prev, st)
  else (prev, st).
Proof.
  cbv zeta.
  destruct (position st <? length st) eqn:Hlt.
  - apply Z.ltb_lt in Hlt.
    destruct (Z.to_nat (length st - position st)) as [|f] eqn:Hf; [lia|].
    simpl. rewrite (proj2 (Z.ltb_lt _ _) Hlt).
    destruct (JS.isCode (JS.charCodeAt (data st) (position st)) 9).
    { apply skipWhitespace_loop_fuel; fields; lia. }
    destruct (JS.isCode (JS.charCodeAt (data st) (position st)) 32).
    { apply skipWhitespace_loop_fuel; fields; lia. }
    destruct (JS.isCode (JS.charCodeAt (data st) (position st)) 10).
    { apply skipWhitespace_loop_fuel; destruct (negb (prev =? 13));
        fields; lia. }
    destruct (JS.isCode (JS.charCodeAt (data st) (position st)) 13).
    { apply skipWhitespace_loop_fuel; fields; lia. }
    reflexivity.
  - destruct (Z.to_nat _); simpl; now rewrite Hlt.
Qed.

Lemma skipWhitespace_loop_bounds fuel prev st :
  tokenizer_wf st ->
  tokenizer_wf (snd (Tokenizer.skipWhitespace_loop fuel prev st)) /\
  advances st (snd (Tokenizer.skipWhitespace_loop fuel prev st)).
Proof.
  assert (Hstep : forall f p st0 st1,
    (forall p' st', tokenizer_wf st' ->
       tokenizer_wf (snd (Tokenizer.skipWhitespace_loop f p' st')) /\
       advances st' (snd (Tokenizer.skipWhitespace_loop f p' st'))) ->
    tokenizer_wf st1 -> advances st0 st1 ->
    tokenizer_wf (snd (Tokenizer.skipWhitespace_loop f p st1)) /\
    advances st0 (snd (Tokenizer.skipWhitespace_loop f p st1))).
  { intros f p st0 st1 IH Hwf (Hd & Hl & Hp).
    destruct (IH p st1 Hwf) as (Hwf' & Hd' & Hl' & Hp').
    split; [exact Hwf'|]. repeat split; try congruence; lia. }
  revert prev st. induction fuel as [|f IH]; intros prev st Hwf; simpl.
  - destruct (position st <? length st); simpl;
      unfold advances; repeat split; try apply Hwf; lia.
  - destruct Hwf as [Hlen Hpos].
    destruct (position st <? length st) eqn:Hlt.
    2:{ unfold tokenizer_wf, advances; simpl; repeat split; auto; lia. }
    apply Z.ltb_lt in Hlt.
    destruct (JS.isCode (JS.charCodeAt (data st) (position st)) 9).
    { apply Hstep; [exact IH| |]; unfold tokenizer_wf, advances; fields;
        repeat split; auto; lia. }
    destruct (JS.isCode (JS.charCodeAt (data st) (position st)) 32).
    { apply Hstep; [exact IH| |]; unfold tokenizer_wf, advances; fields;
        repeat split; auto; lia. }
    destruct (JS.isCode (JS.charCodeAt (data st) (position st)) 10).
    { apply Hstep; [exact IH| |]; destruct (negb (prev =? 13));
        unfold tokenizer_wf, advances; fields; repeat split; auto; lia. }
    destruct (JS.isCode (JS.charCodeAt (data st) (position st)) 13).
    { apply Hstep; [exact IH| |]; unfold tokenizer_wf, advances; fields;
        repeat split; auto; lia. }
    unfold tokenizer_wf, advances; simpl; repeat split; auto; lia.
Qed.

Lemma advances_refl st : advances st st.
Proof. unfold advances. repeat split; lia. Qed.

Lemma advances_trans st1 st2 st3 :
  advances st1 st2 -> advances st2 st3 -> advances st1 st3.
Proof.
  intros (Hd & Hl & Hp) (Hd' & Hl' & Hp').
  unfold advances. repeat split; try congruence; lia.
Qed.

Lemma eatLine_bounds st :
  tokenizer_wf st ->
  tokenizer_wf (Tokenizer.eatLine st) /\ advances st (Tokenizer.eatLine st).
Proof.
  intros Hwf. unfold Tokenizer.eatLine.
  destruct (eatLine_loop_bounds (Z.to_nat (length st - position st)) st Hwf)
    as (H1 & H2 & _). now split.
Qed.

Lemma markLine_bounds st :
  tokenizer_wf st ->
  tokenizer_wf (Tokenizer.markLine st) /\
  advances st (Tokenizer.markLine st).
Proof.
  intros Hwf. unfold Tokenizer.markLine.
  apply (eatLine_bounds (set_tokenStart (position st) st)). exact Hwf.
Qed.

Lemma markLine_tokenStart st :
  tokenStart (Tokenizer.markLine st) = position st.
Proof.
  unfold Tokenizer.markLine, Tokenizer.eatLine.
  generalize (Z.to_nat (length (set_tokenStart (position st) st)
                        - position (set_tokenStart (position st) st))).
  intros fuel.
  assert (H : forall f s, tokenStart (Tokenizer.eatLine_loop f s)
                          = tokenStart s).
  { induction f as [|f IH]; intros s; simpl.
    - destruct (position s <? length s); reflexivity.
    - destruct (position s <? length s); [|reflexivity].
      destruct (JS.isCode (JS.charCodeAt (data s) (position s)) 10);
        [reflexivity|].
      destruct (JS.isCode (JS.charCodeAt (data s) (position s)) 13).
      + destruct (JS.isCode _ 10); reflexivity.
      + rewrite IH. reflexivity. }
  rewrite H. reflexivity.
Qed.

Lemma readLinesChunk_loop_bounds n st tokens :
  tokenizer_wf st ->
  tokenizer_wf (fst (Tokenizer.readLinesChunk_loop n st tokens)) /\
  advances st (fst (Tokenizer.readLinesChunk_loop n st tokens)).
Proof.
  revert st tokens. induction n as [|n IH]; intros st tokens Hwf; simpl.
  - split; [exact Hwf | apply advances_refl].
  - destruct (markLine_bounds st Hwf) as (Hwf1 & Hadv1).
    destruct (IH (Tokenizer.markLine st)
      (TokenBuilder.addUnchecked tokens
         (tokenStart (Tokenizer.markLine st))
         (tokenEnd (Tokenizer.markLine st))) Hwf1) as (Hwf2 & Hadv2).
    split; [exact Hwf2 | eapply advances_trans; eauto].
Qed.

Lemma eatLine_at_end st :
  position st = length st ->
  Tokenizer.eatLine st = set_tokenEnd (position st) st.
Proof.
  intros Hend. rewrite eatLine_unfold.
  replace (position st <? length st) with false; [reflexivity|].
  symmetry. apply Z.ltb_ge. lia.
Qed.

Lemma Tokenizer_wf text : tokenizer_wf (Tokenizer.Tokenizer text).
Proof. unfold tokenizer_wf, Tokenizer.Tokenizer. simpl. lia. Qed.

End TokenizerLoops.

(** C8. Every forward operation of the tokenizer ([eatLine], [eatValue],
    [skipWhitespace], [markLine], [readLine], [readLines]) keeps
    [0 <= position <= length] and never moves [position] backwards; at the
    end of the input [eatLine] leaves [position] where it is and sets
    [tokenEnd] to it, and [readLine] returns the empty string. *)
Theorem forward_operations_keep_position_in_bounds (st : Tokenizer) (count : Z) :
  tokenizer_wf st ->
  (tokenizer_wf (Tokenizer.eatLine st) /\ advances st (Tokenizer.eatLine st)) /\
  (tokenizer_wf (Tokenizer.eatValue st) /\ advances st (Tokenizer.eatValue st)) /\
  (tokenizer_wf (snd (Tokenizer.skipWhitespace st)) /\
   advances st (snd (Tokenizer.skipWhitespace st))) /\
  (tokenizer_wf (Tokenizer.markLine st) /\ advances st (Tokenizer.markLine st)) /\
  (tokenizer_wf (snd (Tokenizer.readLine st)) /\
   advances st (snd (Tokenizer.readLine st))) /\
  (tokenizer_wf (fst (Tokenizer.readLines st count)) /\
   advances st (fst (Tokenizer.readLines st count))) /\
  (position st = length st ->
   position (Tokenizer.eatLine st) = position st /\
   tokenEnd (Tokenizer.eatLine st) = position st /\
   fst (Tokenizer.readLine st) = [] /\
   position (snd (Tokenizer.readLine st)) = position st).
Proof.
  intros Hwf.
  split; [now apply eatLine_bounds|].
  split; [now apply eatValue_loop_bounds|].
  split; [now apply skipWhitespace_loop_bounds|].
  split; [now apply markLine_bounds|].
  split; [now apply markLine_bounds|].
  split; [now apply readLinesChunk_loop_bounds|].
  intros Hend. rewrite (eatLine_at_end st Hend).
  repeat split.
  unfold Tokenizer.readLine, Tokenizer.markLine. simpl.
  rewrite eatLine_at_end by exact Hend.
  unfold Tokenizer.getTokenString. simpl. apply substring_empty.
  unfold Tokenizer.readLine, Tokenizer.markLine. simpl.
  rewrite eatLine_at_end by exact Hend. reflexivity.
Qed.

(** The theorem at the text ["a\r\nb"], before and after its two lines. *)
Lemma forward_operations_witness :
  let st := fst (Tokenizer.readLines (Tokenizer.Tokenizer [97; 13; 10; 98]) 2) in
  tokenizer_wf st /\ position st = length st /\
  fst (Tokenizer.readLine st) = [] /\
  position (snd (Tokenizer.readLine st)) = 4.
Proof.
  pose proof (forward_operations_keep_position_in_bounds
    (fst (Tokenizer.readLines (Tokenizer.Tokenizer [97; 13; 10; 98]) 2)) 1)
    as H.
  assert (Hwf : tokenizer_wf
    (fst (Tokenizer.readLines (Tokenizer.Tokenizer [97; 13; 10; 98]) 2))).
  { split; vm_compute; [reflexivity | split; discriminate]. }
  specialize (H Hwf).
  destruct H as (_ & _ & _ & _ & _ & _ & Hend).
  specialize (Hend eq_refl). destruct Hend as (_ & _ & Hline & Hpos).
  cbv zeta. split; [exact Hwf|].
  split; [reflexivity|].
  split; [exact Hline | exact Hpos].
Defined.

(** ** TokenBuilder *)

Section TokenBuilderFacts.

Import TokenBuilder.

Lemma toInt32_id x : - 2 ^ 31 <= x < 2 ^ 31 -> JS.toInt32 x = x.
Proof.
  intros H. unfold JS.toInt32. rewrite Z.mod_small; lia.
Qed.

Lemma toUint32_id v : uint32 v -> JS.toUint32 v = v.
Proof. intros H. unfold JS.toUint32. apply Z.mod_small. exact H. Qed.

Lemma writeUint32_length a i v :
  List.length (JS.writeUint32 a i v) = List.length a.
Proof.
  unfold JS.writeUint32.
  destruct ((0 <=? i) && (i <? Z.of_nat (List.length a)));
    [apply length_insert | reflexivity].
Qed.

Lemma writeUint32_same a i v :
  0 <= i < Z.of_nat (List.length a) ->
  JS.writeUint32 a i v !! Z.to_nat i = Some (JS.toUint32 v).
Proof.
  intros H. unfold JS.writeUint32.
  replace ((0 <=? i) && (i <? Z.of_nat (List.length a))) with true
    by (symmetry; apply andb_true_iff; split;
        [apply Z.leb_le | apply Z.ltb_lt]; lia).
  apply list_lookup_insert_eq. lia.
Qed.

Lemma writeUint32_other a i v (j : nat) :
  j <> Z.to_nat i -> JS.writeUint32 a i v !! j = a !! j.
Proof.
  intros H. unfold JS.writeUint32.
  destruct ((0 <=? i) && (i <? Z.of_nat (List.length a))); [|reflexivity].
  apply list_lookup_insert_ne. congruence.
Qed.

(** What the two writes and the increments of [add] / [addUnchecked] do to
    a builder with room for one more pair. *)
Lemma push_spec b start end_ :
  0 <= offset b ->
  offset b + 1 < Z.of_nat (List.length (indices b)) ->
  let b' := push b start end_ in
  count b' = count b + 1 /\
  offset b' = offset b + 2 /\
  data b' = data b /\
  indicesLenMinus2 b' = indicesLenMinus2 b /\
  List.length (indices b') = List.length (indices b) /\
  indices b' !! Z.to_nat (offset b) = Some (JS.toUint32 start) /\
  indices b' !! Z.to_nat (offset b + 1) = Some (JS.toUint32 end_) /\
  (forall j : nat, (j < Z.to_nat (offset b))%nat ->
     indices b' !! j = indices b !! j).
Proof.
  intros H0 H1. unfold push. simpl.
  repeat split; try lia.
  - now rewrite !writeUint32_length.
  - rewrite writeUint32_other by lia. apply writeUint32_same. lia.
  - apply writeUint32_same. rewrite writeUint32_length. lia.
  - intros j Hj. rewrite !writeUint32_other by lia. reflexivity.
Qed.

(** [resize] on a buffer that can grow: the old contents, followed by
    zeros, in a buffer of [161 * length / 100] slots. *)
Lemma resize_spec b :
  builder_wf b -> builder_can_grow b ->
  exists b',
    resize b = Some b' /\
    count b' = count b /\ offset b' = offset b /\ data b' = data b /\
    Z.of_nat (List.length (indices b')) =
      161 * Z.of_nat (List.length (indices b)) / 100 /\
    indicesLenMinus2 b' = Z.of_nat (List.length (indices b')) - 2 /\
    (forall j : nat, (j < List.length (indices b))%nat ->
       indices b' !! j = indices b !! j).
Proof.
  intros (Hlen & Hoff & Hm2) Hgrow. unfold builder_can_grow in Hgrow.
  set (len := Z.of_nat (List.length (indices b))) in *.
  assert (Hnew : len + 6 <= 161 * len / 100).
  { apply Z.div_le_lower_bound; lia. }
  unfold resize. fold len.
  rewrite toInt32_id by lia.
  unfold JS.newUint32Array.
  replace (161 * len / 100 <? 0) with false
    by (symmetry; apply Z.ltb_ge; lia).
  unfold JS.setUint32Array. rewrite length_replicate.
  replace (List.length (indices b) <=? Z.to_nat (161 * len / 100))%nat
    with true by (symmetry; apply Nat.leb_le; lia).
  eexists. split; [reflexivity|]. simpl.
  assert (Hl : Z.of_nat (List.length
    (indices b ++ drop (List.length (indices b))
       (replicate (Z.to_nat (161 * len / 100)) 0))) = 161 * len / 100).
  { rewrite length_app, length_drop, length_replicate. lia. }
  repeat split; auto.
  - rewrite Hl. apply toInt32_id. lia.
  - intros j Hj. apply lookup_app_l. exact Hj.
Qed.

Lemma create_wf st size :
  Z.max 10 size - 2 < 2 ^ 31 ->
  builder_wf (create st size) /\
  Z.of_nat (List.length (indices (create st size))) = Z.max 10 size /\
  offset (create st size) = 0 /\ count (create st size) = 0.
Proof.
  intros H. unfold builder_wf, create. simpl.
  rewrite length_replicate.
  repeat split; try lia. rewrite toInt32_id; lia.
Qed.

End TokenBuilderFacts.

Section ReadLinesCapacity.

Import TokenBuilder.

Lemma readLinesChunk_loop_writes n : forall st tk,
  0 <= offset tk ->
  offset tk + 2 * Z.of_nat n <= Z.of_nat (List.length (indices tk)) ->
  writesInBounds n st tk /\
  let tk' := snd (Tokenizer.readLinesChunk_loop n st tk) in
  count tk' = count tk + Z.of_nat n /\
  offset tk' = offset tk + 2 * Z.of_nat n /\
  List.length (indices tk') = List.length (indices tk).
Proof.
  induction n as [|n IH]; intros st tk H0 Hroom.
  - simpl. repeat split; lia.
  - cbn [writesInBounds Tokenizer.readLinesChunk_loop].
    set (st1 := Tokenizer.markLine st).
    destruct (push_spec tk (tokenStart st1) (tokenEnd st1))
      as (Hc & Ho & _ & _ & Hl & _); [lia | lia |].
    destruct (IH st1 (addUnchecked tk (tokenStart st1) (tokenEnd st1)))
      as (Hw & Hc' & Ho' & Hl').
    { unfold addUnchecked. lia. }
    { unfold addUnchecked. rewrite Ho, Hl. lia. }
    unfold addUnchecked in *. cbv zeta in *.
    split; [split; [lia | exact Hw]|].
    rewrite Hc', Ho', Hl', Hc, Ho, Hl. repeat split; lia.
Qed.

End ReadLinesCapacity.

(** C9. [TokenBuilder.add] records the pair it is given and increments
    [count] by one, growing the buffer when it is full and keeping every
    pair stored before; and the buffer of [max(10, 2 * count)] slots that
    [readLines] allocates holds each of the [2 * count] writes that
    [readLinesChunk] makes through [addUnchecked]. *)
Theorem tokens_are_recorded_within_the_buffer :
  (forall (b : TokenBuilder.Builder) (start end_ : Z),
     builder_wf b -> builder_can_grow b -> uint32 start -> uint32 end_ ->
     exists b',
       TokenBuilder.add b start end_ = Some b' /\
       TokenBuilder.count b' = TokenBuilder.count b + 1 /\
       TokenBuilder.offset b' = TokenBuilder.offset b + 2 /\
       TokenBuilder.indices b' !! Z.to_nat (TokenBuilder.offset b)
         = Some start /\
       TokenBuilder.indices b' !! Z.to_nat (TokenBuilder.offset b + 1)
         = Some end_ /\
       (forall j : nat, (j < Z.to_nat (TokenBuilder.offset b))%nat ->
          TokenBuilder.indices b' !! j = TokenBuilder.indices b !! j) /\
       Z.of_nat (List.length (TokenBuilder.indices b')) =
         (if TokenBuilder.indicesLenMinus2 b <? TokenBuilder.offset b
          then 161 * Z.of_nat (List.length (TokenBuilder.indices b)) / 100
          else Z.of_nat (List.length (TokenBuilder.indices b))) /\
       builder_wf b') /\
  (forall (st : Tokenizer) (count : Z),
     0 <= count ->
     let lineTokens := TokenBuilder.create st (count * 2) in
     let tokens := snd (Tokenizer.readLines st count) in
     Z.of_nat (List.length (TokenBuilder.indices lineTokens))
       = Z.max 10 (2 * count) /\
     writesInBounds (Z.to_nat count) st lineTokens /\
     TokenBuilder.count tokens = count /\
     TokenBuilder.offset tokens = 2 * count /\
     TokenBuilder.offset tokens
       <= Z.of_nat (List.length (TokenBuilder.indices tokens))).
Proof.
  split.
  - intros b start end_ Hwf Hgrow Hs He.
    pose proof Hwf as (Hlen & Hoff & Hm2).
    unfold TokenBuilder.add.
    destruct (TokenBuilder.indicesLenMinus2 b <? TokenBuilder.offset b) eqn:Hfull.
    + apply Z.ltb_lt in Hfull.
      destruct (resize_spec b Hwf Hgrow)
        as (b1 & Hr & Hc1 & Ho1 & _ & Hl1 & Hm1 & Hkeep1).
      rewrite Hr.
      assert (Hnew : Z.of_nat (List.length (TokenBuilder.indices b)) + 6
                     <= Z.of_nat (List.length (TokenBuilder.indices b1))).
      { rewrite Hl1. apply Z.div_le_lower_bound; lia. }
      destruct (push_spec b1 start end_)
        as (Hc & Ho & _ & Hm & Hl & Hst & Hen & Hkeep); [lia | lia |].
      eexists. split; [reflexivity|].
      rewrite Ho1 in *.
      rewrite (toUint32_id _ Hs) in Hst. rewrite (toUint32_id _ He) in Hen.
      split; [lia|]. split; [lia|]. split; [exact Hst|]. split; [exact Hen|].
      split.
      { intros j Hj. rewrite Hkeep by exact Hj. apply Hkeep1. lia. }
      split; [rewrite Hl; exact Hl1|].
      unfold builder_wf. rewrite Hl, Ho, Hm. cbv zeta. lia.
    + apply Z.ltb_ge in Hfull.
      destruct (push_spec b start end_)
        as (Hc & Ho & _ & Hm & Hl & Hst & Hen & Hkeep); [lia | lia |].
      eexists. split; [reflexivity|].
      rewrite (toUint32_id _ Hs) in Hst. rewrite (toUint32_id _ He) in Hen.
      split; [lia|]. split; [lia|]. split; [exact Hst|]. split; [exact Hen|].
      split; [exact Hkeep|].
      split; [rewrite Hl; reflexivity|].
      unfold builder_wf. rewrite Hl, Ho, Hm. cbv zeta. lia.
  - intros st count Hcount. cbv zeta.
    unfold Tokenizer.readLines, Tokenizer.readLinesChunk.
    assert (Hlen : Z.of_nat (List.length
      (TokenBuilder.indices (TokenBuilder.create st (count * 2))))
      = Z.max 10 (2 * count)).
    { unfold TokenBuilder.create. simpl. rewrite length_replicate. lia. }
    destruct (readLinesChunk_loop_writes (Z.to_nat count) st
                (TokenBuilder.create st (count * 2)))
      as (Hw & Hc & Ho & Hl).
    { simpl. lia. }
    { rewrite Hlen. simpl. lia. }
    cbv zeta in Hc, Ho, Hl. simpl in Hc, Ho.
    split; [exact Hlen|]. split; [exact Hw|].
    rewrite Hc, Ho, Hl, Hlen. repeat split; lia.
Qed.

(** The theorem at a full ten-slot buffer, as [readLines] leaves it after
    five lines, and at [readLines] over two lines. *)
Lemma tokens_are_recorded_witness :
  let text := [97; 10; 98; 10; 99; 10; 100; 10; 101; 10] in
  let b := snd (Tokenizer.readLines (Tokenizer.Tokenizer text) 5) in
  (builder_wf b /\ builder_can_grow b /\ uint32 10 /\ uint32 12) /\
  (exists b',
     TokenBuilder.add b 10 12 = Some b' /\
     TokenBuilder.count b' = 6 /\
     TokenBuilder.indices b' !! 10%nat = Some 10 /\
     TokenBuilder.indices b' !! 11%nat = Some 12 /\
     Z.of_nat (List.length (TokenBuilder.indices b')) = 16) /\
  0 <= 2 /\
  writesInBounds 2 (Tokenizer.Tokenizer text)
    (TokenBuilder.create (Tokenizer.Tokenizer text) 4).
Proof.
  cbv zeta.
  set (text := [97; 10; 98; 10; 99; 10; 100; 10; 101; 10]).
  set (b := snd (Tokenizer.readLines (Tokenizer.Tokenizer text) 5)).
  destruct tokens_are_recorded_within_the_buffer as [Hadd Hread].
  assert (Hhyp : builder_wf b /\ builder_can_grow b /\ uint32 10 /\ uint32 12).
  { unfold builder_wf, builder_can_grow, uint32. vm_compute.
    intuition discriminate. }
  split; [exact Hhyp|].
  destruct Hhyp as (H1 & H2 & H3 & H4).
  destruct (Hadd b 10 12 H1 H2 H3 H4)
    as (b' & Hb' & Hc & _ & Hs & He & _ & Hl & _).
  split.
  - exists b'. split; [exact Hb'|]. split; [exact Hc|].
    split; [exact Hs|]. split; [exact He|]. exact Hl.
  - assert (H02 : 0 <= 2) by discriminate.
    split; [exact H02|].
    exact (proj1 (proj2 (Hread (Tokenizer.Tokenizer text) 2 H02))).
Defined.

(** ** Chunked reading *)

Section ChunkedReading.

Import Tokenizer.

Lemma readLinesChunk_loop_app a b : forall st tk,
  readLinesChunk_loop (a + b) st tk =
  readLinesChunk_loop b (fst (readLinesChunk_loop a st tk))
    (snd (readLinesChunk_loop a st tk)).
Proof.
  induction a as [|a IH]; intros st tk; simpl; [reflexivity|].
  apply IH.
Qed.

Lemma processChunk_eq count chunkSize vars :
  let linesToRead := Z.min (count - rl_linesAlreadyRead vars) chunkSize in
  let r := readLinesChunk (rl_state vars) linesToRead (rl_lineTokens vars) in
  readLinesAsync_processChunk count chunkSize vars =
  (linesToRead,
   mkReadLinesVars (fst r) (snd r) (rl_linesAlreadyRead vars + linesToRead)).
Proof.
  cbv zeta. unfold readLinesAsync_processChunk.
  destruct (readLinesChunk _ _ _). reflexivity.
Qed.

Variable count : Z.
Variable len : Z.
Variable nextChunkSize : nat -> Z.
Hypothesis next_positive : forall i, 1 <= nextChunkSize i.

(** The chunked loop of [readLinesAsync] settles within
    [count - linesAlreadyRead + 1] chunks, whatever the context does. *)
Lemma readLines_loop_settles fuel : forall round ctx chunkSize vars,
  1 <= chunkSize ->
  0 <= rl_linesAlreadyRead vars <= count ->
  (Z.to_nat (count - rl_linesAlreadyRead vars) < fuel)%nat ->
  exists r,
    Scheduler.chunkedSubtask_loop fuel round ctx chunkSize vars
      (readLinesAsync_processChunk count)
      (readLinesAsync_reportProgress len) nextChunkSize = Some r.
Proof.
  induction fuel as [|fuel IH]; intros round ctx chunkSize vars Hc Hread Hf;
    [lia|].
  cbn [Scheduler.chunkedSubtask_loop].
  rewrite processChunk_eq. cbv zeta. unfold Scheduler.suspend.
  match goal with |- context [Scheduler.abortRequested ?c ?k] =>
    destruct (Scheduler.abortRequested c k) end; [eauto|].
  destruct (Z.min (count - rl_linesAlreadyRead vars) chunkSize <? chunkSize)
    eqn:Hlast; [eauto|].
  apply Z.ltb_ge in Hlast.
  apply IH; simpl; [apply next_positive | lia | lia].
Qed.

(** Without an abort request the loop resolves, having read exactly the
    lines that were left, as one [readLinesChunk] call would. *)
Lemma readLines_loop_transparent fuel : forall round ctx chunkSize vars,
  never_aborted ctx ->
  1 <= chunkSize ->
  0 <= rl_linesAlreadyRead vars <= count ->
  (Z.to_nat (count - rl_linesAlreadyRead vars) < fuel)%nat ->
  exists ctx',
    Scheduler.chunkedSubtask_loop fuel round ctx chunkSize vars
      (readLinesAsync_processChunk count)
      (readLinesAsync_reportProgress len) nextChunkSize =
    Some (ctx',
          let r := readLinesChunk (rl_state vars)
                     (count - rl_linesAlreadyRead vars)
                     (rl_lineTokens vars) in
          mkReadLinesVars (fst r) (snd r) count,
          Resolved tt).
Proof.
  induction fuel as [|fuel IH];
    intros round ctx chunkSize vars Hna Hc Hread Hf; [lia|].
  cbn [Scheduler.chunkedSubtask_loop].
  rewrite processChunk_eq. cbv zeta. unfold Scheduler.suspend.
  set (ctx1 := if Scheduler.shouldUpdate ctx (Scheduler.checkpoint ctx)
               then _ else ctx).
  assert (Hna1 : Scheduler.abortRequested ctx1 = Scheduler.abortRequested ctx).
  { subst ctx1. destruct (Scheduler.shouldUpdate _ _); reflexivity. }
  rewrite Hna1, Hna.
  destruct (Z.min (count - rl_linesAlreadyRead vars) chunkSize <? chunkSize)
    eqn:Hlast.
  - apply Z.ltb_lt in Hlast.
    replace (Z.min (count - rl_linesAlreadyRead vars) chunkSize)
      with (count - rl_linesAlreadyRead vars) by lia.
    eexists. repeat f_equal. lia.
  - apply Z.ltb_ge in Hlast.
    replace (Z.min (count - rl_linesAlreadyRead vars) chunkSize)
      with chunkSize by lia.
    edestruct IH as (ctx' & Hrec); [| | | | rewrite Hrec].
    + intros k. simpl. apply Hna.
    + apply next_positive.
    + simpl. lia.
    + simpl. lia.
    + exists ctx'. simpl. unfold readLinesChunk.
      replace (Z.to_nat (count - rl_linesAlreadyRead vars))
        with (Z.to_nat chunkSize
              + Z.to_nat (count - (rl_linesAlreadyRead vars + chunkSize)))%nat
        by lia.
      rewrite readLinesChunk_loop_app. reflexivity.
Qed.

End ChunkedReading.

Section ChunkedSubtaskFuel.

Context {S : Type}.
Variable processChunk : Z -> S -> Z * S.
Variable reportProgress : Scheduler.RuntimeContext -> S -> Scheduler.RuntimeContext.
Variable nextChunkSize : nat -> Z.

(** A loop that has settled with some fuel settles the same way with
    more. *)
Lemma chunkedSubtask_loop_fuel_mono fuel : forall extra round ctx chunkSize state r,
  Scheduler.chunkedSubtask_loop fuel round ctx chunkSize state
    processChunk reportProgress nextChunkSize = Some r ->
  Scheduler.chunkedSubtask_loop (fuel + extra) round ctx chunkSize state
    processChunk reportProgress nextChunkSize = Some r.
Proof.
  induction fuel as [|fuel IH]; intros extra round ctx chunkSize state r;
    [discriminate|].
  cbn [Scheduler.chunkedSubtask_loop Nat.add].
  destruct (processChunk chunkSize state) as [consumed state1].
  destruct (Scheduler.suspend _) as [ctx1 [reason|]]; [auto|].
  destruct (consumed <? chunkSize); [auto|]. apply IH.
Qed.

End ChunkedSubtaskFuel.

(** C1. Chunking is transparent: with no abort request, for every line count
    [count >= 0], every initial chunk size [>= 1] and every later choice of
    positive chunk sizes, [readLinesAsync] resolves with the very tokens
    that [readLines] returns from the same state, and leaves the tokenizer
    in the state in which [readLines] leaves it. *)
Theorem readLinesAsync_agrees_with_readLines
    (fuel : nat) (nextChunkSize : nat -> Z) (state : Tokenizer) (count : Z)
    (ctx : Scheduler.RuntimeContext) (initialLineCount : option Z) :
  0 <= count ->
  1 <= default 100000 initialLineCount ->
  (forall i, 1 <= nextChunkSize i) ->
  never_aborted ctx ->
  (Z.to_nat count < fuel)%nat ->
  exists ctx',
    Tokenizer.readLinesAsync fuel nextChunkSize state count ctx initialLineCount
    = Some (ctx', fst (Tokenizer.readLines state count),
            Resolved (snd (Tokenizer.readLines state count))).
Proof.
  intros Hcount Hinit Hnext Hna Hfuel.
  unfold Tokenizer.readLinesAsync, Scheduler.chunkedSubtask.
  destruct (readLines_loop_transparent count (length state) nextChunkSize Hnext
              fuel 0%nat ctx (default 100000 initialLineCount)
              (Tokenizer.mkReadLinesVars state
                 (TokenBuilder.create state (count * 2)) 0))
    as (ctx' & Hrun).
  { exact Hna. }
  { exact Hinit. }
  { simpl. lia. }
  { simpl. replace (count - 0) with count by lia. exact Hfuel. }
  rewrite Hrun. exists ctx'. simpl.
  replace (count - 0) with count by lia. reflexivity.
Qed.

(** The theorem at three lines read in chunks of two, then one. *)
Lemma readLinesAsync_agrees_witness :
  let ctx := Scheduler.mkRuntimeContext (fun _ => None) (fun _ => true) 0 [] in
  let state := Tokenizer.Tokenizer [97; 10; 98; 13; 10; 99] in
  (0 <= 3 /\ 1 <= 2 /\ (forall i : nat, 1 <= 1) /\ never_aborted ctx /\
   (Z.to_nat 3 < 4)%nat) /\
  exists ctx',
    Tokenizer.readLinesAsync 4 (fun _ => 1) state 3 ctx (Some 2)
    = Some (ctx', fst (Tokenizer.readLines state 3),
            Resolved (snd (Tokenizer.readLines state 3))).
Proof.
  cbv zeta.
  assert (H1 : 0 <= 3) by discriminate.
  assert (H2 : 1 <= 2) by discriminate.
  assert (H3 : forall i : nat, 1 <= 1) by (intros _; discriminate).
  assert (H4 : never_aborted
    (Scheduler.mkRuntimeContext (fun _ => None) (fun _ => true) 0 []))
    by (intros k; reflexivity).
  assert (H5 : (Z.to_nat 3 < 4)%nat) by (vm_compute; repeat constructor).
  split; [repeat split; assumption|].
  exact (readLinesAsync_agrees_with_readLines 4 (fun _ => 1)
           (Tokenizer.Tokenizer [97; 10; 98; 13; 10; 99]) 3
           (Scheduler.mkRuntimeContext (fun _ => None) (fun _ => true) 0 [])
           (Some 2) H1 H2 H3 H4 H5).
Defined.

(** C6. The chunked loop of [readLinesAsync] ends for every [count >= 0] and
    all positive chunk sizes: within [count + 1] chunks the call has settled,
    and more fuel does not change how.  Each [processChunk] call reads
    [min(count - linesAlreadyRead, chunkSize)] lines and returns that number,
    which moves [linesAlreadyRead] strictly up while it is below [count], and
    is smaller than [chunkSize] exactly when fewer lines were left than
    requested. *)
Theorem readLinesAsync_terminates
    (fuel : nat) (nextChunkSize : nat -> Z) (state : Tokenizer) (count : Z)
    (ctx : Scheduler.RuntimeContext) (initialLineCount : option Z) :
  0 <= count ->
  1 <= default 100000 initialLineCount ->
  (forall i, 1 <= nextChunkSize i) ->
  (Z.to_nat count < fuel)%nat ->
  (exists r,
     Tokenizer.readLinesAsync fuel nextChunkSize state count ctx
       initialLineCount = Some r /\
     forall extra,
       Tokenizer.readLinesAsync (fuel + extra) nextChunkSize state count ctx
         initialLineCount = Some r) /\
  (forall chunkSize vars,
     let consumed :=
       fst (Tokenizer.readLinesAsync_processChunk count chunkSize vars) in
     let vars' :=
       snd (Tokenizer.readLinesAsync_processChunk count chunkSize vars) in
     let remaining := count - Tokenizer.rl_linesAlreadyRead vars in
     consumed = Z.min remaining chunkSize /\
     (Tokenizer.rl_state vars', Tokenizer.rl_lineTokens vars') =
       Tokenizer.readLinesChunk (Tokenizer.rl_state vars) consumed
         (Tokenizer.rl_lineTokens vars) /\
     Tokenizer.rl_linesAlreadyRead vars' =
       Tokenizer.rl_linesAlreadyRead vars + consumed /\
     (consumed < chunkSize <-> remaining < chunkSize) /\
     (1 <= chunkSize -> 0 < remaining ->
      Tokenizer.rl_linesAlreadyRead vars
        < Tokenizer.rl_linesAlreadyRead vars' <= count)).
Proof.
  intros Hcount Hinit Hnext Hfuel. split.
  - destruct (readLines_loop_settles count (length state) nextChunkSize Hnext
                fuel 0%nat ctx (default 100000 initialLineCount)
                (Tokenizer.mkReadLinesVars state
                   (TokenBuilder.create state (count * 2)) 0))
      as (r & Hr).
    { exact Hinit. }
    { simpl. lia. }
    { simpl. replace (count - 0) with count by lia. exact Hfuel. }
    unfold Tokenizer.readLinesAsync, Scheduler.chunkedSubtask.
    rewrite Hr. destruct r as [[ctx' vars'] [[]|e]].
    + eexists. split; [reflexivity|]. intros extra.
      rewrite (chunkedSubtask_loop_fuel_mono _ _ _ fuel extra _ _ _ _ _ Hr).
      reflexivity.
    + eexists. split; [reflexivity|]. intros extra.
      rewrite (chunkedSubtask_loop_fuel_mono _ _ _ fuel extra _ _ _ _ _ Hr).
      reflexivity.
  - intros chunkSize vars. cbv zeta.
    rewrite processChunk_eq. cbv zeta. simpl.
    split; [reflexivity|].
    split; [destruct (Tokenizer.readLinesChunk _ _ _); reflexivity|].
    split; [reflexivity|]. split; lia.
Qed.

(** The theorem at three lines read in chunks of two, then one, under a
    context whose second checkpoint finds the abort flag set. *)
Lemma readLinesAsync_terminates_witness :
  let ctx := Scheduler.mkRuntimeContext
    (fun k => if (k =? 1)%nat then Some "stop"%string else None)
    (fun _ => true) 0 [] in
  let state := Tokenizer.Tokenizer [97; 10; 98; 13; 10; 99] in
  (0 <= 3 /\ 1 <= 2 /\ (forall i : nat, 1 <= 1) /\ (Z.to_nat 3 < 4)%nat) /\
  exists r,
    Tokenizer.readLinesAsync 4 (fun _ => 1) state 3 ctx (Some 2) = Some r.
Proof.
  cbv zeta.
  assert (H1 : 0 <= 3) by discriminate.
  assert (H2 : 1 <= 2) by discriminate.
  assert (H3 : forall i : nat, 1 <= 1) by (intros _; discriminate).
  assert (H5 : (Z.to_nat 3 < 4)%nat) by (vm_compute; repeat constructor).
  split; [repeat split; assumption|].
  destruct (proj1 (readLinesAsync_terminates 4 (fun _ => 1)
           (Tokenizer.Tokenizer [97; 10; 98; 13; 10; 99]) 3
           (Scheduler.mkRuntimeContext
              (fun k => if (k =? 1)%nat then Some "stop"%string else None)
              (fun _ => true) 0 [])
           (Some 2) H1 H2 H3 H5)) as (r & Hr & _).
  exists r. exact Hr.
Defined.

Section ProgressReports.

Import Tokenizer.

(** At every chunk boundary the tokenizer is well formed and still over
    the text it started with. *)
Lemma chunkReachable_bounds state count vars :
  tokenizer_wf state ->
  chunkReachable state count vars ->
  tokenizer_wf (rl_state vars) /\ advances state (rl_state vars).
Proof.
  intros Hwf Hreach. induction Hreach as [|chunkSize vars Hreach [IHwf IHadv]].
  - simpl. split; [exact Hwf | apply advances_refl].
  - rewrite processChunk_eq. cbv zeta. simpl. unfold readLinesChunk.
    destruct (readLinesChunk_loop_bounds
                (Z.to_nat (Z.min (count - rl_linesAlreadyRead vars) chunkSize))
                (rl_state vars) (rl_lineTokens vars) IHwf) as [H1 H2].
    split; [exact H1 | eapply advances_trans; eauto].
Qed.

End ProgressReports.

(** C7. Every progress report of [readLinesAsync] is a call of [ctx.update]
    with message 'Parsing...', [current] equal to the position of the
    tokenizer and [max] equal to the length of the input; the position never
    exceeds that length, so [current <= max]. *)
Theorem readLinesAsync_reports_position_within_length
    (state : Tokenizer) (count : Z) (ctx : Scheduler.RuntimeContext)
    (vars : Tokenizer.ReadLinesVars) :
  tokenizer_wf state ->
  chunkReachable state count vars ->
  let progress := Tokenizer.readLinesAsync_progress (length state) vars in
  Tokenizer.readLinesAsync_reportProgress (length state) ctx vars
    = Scheduler.update ctx progress /\
  Scheduler.message progress = "Parsing..."%string /\
  Scheduler.current progress = position (Tokenizer.rl_state vars) /\
  Scheduler.max progress = Z.of_nat (List.length (data state)) /\
  0 <= Scheduler.current progress <= Scheduler.max progress.
Proof.
  intros Hwf Hreach progress.
  destruct (chunkReachable_bounds state count vars Hwf Hreach)
    as [[Hlen Hpos] (Hd & Hl & Hp)].
  destruct Hwf as [Hlen0 Hpos0].
  split; [reflexivity|]. subst progress. simpl.
  repeat split; auto; lia.
Qed.

(** The theorem after one chunk of two lines of the text ["a\nb\r\nc"]. *)
Lemma readLinesAsync_reports_witness :
  let state := Tokenizer.Tokenizer [97; 10; 98; 13; 10; 99] in
  let vars := snd (Tokenizer.readLinesAsync_processChunk 3 2
                     (readLinesAsync_start state 3)) in
  (tokenizer_wf state /\ chunkReachable state 3 vars) /\
  Scheduler.current (Tokenizer.readLinesAsync_progress (length state) vars) = 5 /\
  Scheduler.max (Tokenizer.readLinesAsync_progress (length state) vars) = 6.
Proof.
  cbv zeta.
  set (state := Tokenizer.Tokenizer [97; 10; 98; 13; 10; 99]).
  assert (Hwf : tokenizer_wf state) by apply Tokenizer_wf.
  assert (Hreach : chunkReachable state 3
    (snd (Tokenizer.readLinesAsync_processChunk 3 2
            (readLinesAsync_start state 3))))
    by (apply reach_chunk, reach_start).
  split; [split; assumption|].
  destruct (readLinesAsync_reports_position_within_length state 3
    (Scheduler.mkRuntimeContext (fun _ => None) (fun _ => true) 0 [])
    _ Hwf Hreach) as (_ & _ & Hcur & Hmax & _).
  split; [exact Hcur | exact Hmax].
Defined.

(** The same for a whole run of the modelled scheduler: whatever
    [readLinesAsync] has reported when it settles satisfies [current <= max]. *)
Lemma readLinesAsync_run_reports
    (fuel : nat) (nextChunkSize : nat -> Z) (state : Tokenizer) (count : Z)
    (ctx ctx' : Scheduler.RuntimeContext) (initialLineCount : option Z)
    (state' : Tokenizer) (result : Outcome TokenBuilder.Builder) :
  tokenizer_wf state ->
  Tokenizer.readLinesAsync fuel nextChunkSize state count ctx initialLineCount
    = Some (ctx', state', result) ->
  exists reports,
    Scheduler.updates ctx' = Scheduler.updates ctx ++ reports /\
    Forall (fun progress =>
              Scheduler.message progress = "Parsing..."%string /\
              Scheduler.max progress = length state /\
              0 <= Scheduler.current progress <= Scheduler.max progress)
           reports.
Proof.
  intros Hwf.
  assert (Hloop : forall fuel round ctx chunkSize vars ctx' vars' o,
    chunkReachable state count vars ->
    Scheduler.chunkedSubtask_loop fuel round ctx chunkSize vars
      (Tokenizer.readLinesAsync_processChunk count)
      (Tokenizer.readLinesAsync_reportProgress (length state)) nextChunkSize
      = Some (ctx', vars', o) ->
    exists reports,
      Scheduler.updates ctx' = Scheduler.updates ctx ++ reports /\
      Forall (fun progress =>
                Scheduler.message progress = "Parsing..."%string /\
                Scheduler.max progress = length state /\
                0 <= Scheduler.current progress <= Scheduler.max progress)
             reports).
  { clear ctx ctx' fuel state' result.
    induction fuel as [|fuel IH];
      intros round ctx chunkSize vars ctx' vars' o Hreach; [discriminate|].
    cbn [Scheduler.chunkedSubtask_loop].
    pose proof (reach_chunk state count chunkSize vars Hreach) as Hreach1.
    destruct (Tokenizer.readLinesAsync_processChunk count chunkSize vars)
      as [consumed vars1]. simpl in Hreach1.
    destruct (chunkReachable_bounds state count vars1 Hwf Hreach1)
      as [[_ Hpos1] (_ & Hl1 & _)].
    set (ctx1 := if Scheduler.shouldUpdate ctx (Scheduler.checkpoint ctx)
                 then _ else ctx).
    assert (Hctx1 : exists reports,
      Scheduler.updates ctx1 = Scheduler.updates ctx ++ reports /\
      Forall (fun progress =>
                Scheduler.message progress = "Parsing..."%string /\
                Scheduler.max progress = length state /\
                0 <= Scheduler.current progress <= Scheduler.max progress)
             reports).
    { subst ctx1. destruct (Scheduler.shouldUpdate _ _).
      - eexists [_]. split; [reflexivity|]. constructor; [|constructor].
        simpl. repeat split; lia.
      - exists []. split; [now rewrite app_nil_r | constructor]. }
    destruct Hctx1 as (reports1 & Hup1 & Hall1).
    unfold Scheduler.suspend.
    destruct (Scheduler.abortRequested ctx1 (Scheduler.checkpoint ctx1)).
    { intros [= <- <- <-]. exists reports1. simpl. split; assumption. }
    destruct (consumed <? chunkSize).
    { intros [= <- <- <-]. exists reports1. simpl. split; assumption. }
    intros Hrec. apply IH in Hrec; [|exact Hreach1].
    destruct Hrec as (reports2 & Hup2 & Hall2). simpl in Hup2.
    exists (reports1 ++ reports2). split.
    - rewrite Hup2, Hup1. now rewrite app_assoc.
    - apply Forall_app. split; assumption. }
  unfold Tokenizer.readLinesAsync, Scheduler.chunkedSubtask.
  destruct (Scheduler.chunkedSubtask_loop _ _ _ _ _ _ _ _)
    as [[[ctx1 vars1] o]|] eqn:Hrun; [|discriminate].
  apply Hloop in Hrun; [|apply reach_start].
  destruct o; intros [= <- _ _]; exact Hrun.
Qed.

(** ** Numbers: rounding to the nearest double *)

Section Pow2.

Import Number.

Lemma pow2_pos e : (0 < pow2 e)%Q.
Proof. apply Qpower_0_lt. reflexivity. Qed.

Lemma pow2_add a b : (pow2 (a + b) == pow2 a * pow2 b)%Q.
Proof. apply Qpower_plus. discriminate. Qed.

Lemma pow2_le a b : a <= b -> (pow2 a <= pow2 b)%Q.
Proof. intros H. apply Qpower_le_compat_l; [exact H | discriminate]. Qed.

Lemma pow2_lt a b : a < b -> (pow2 a < pow2 b)%Q.
Proof. intros H. apply Qpower_lt_compat_l; [exact H | reflexivity]. Qed.

Lemma pow2_lt_inv a b : (pow2 a < pow2 b)%Q -> a < b.
Proof. intros H. apply (Qpower_lt_compat_l_inv 2); [exact H | reflexivity]. Qed.

Lemma pow2_Z e : 0 <= e -> (pow2 e == inject_Z (2 ^ e))%Q.
Proof. intros H. symmetry. apply (Zpower_Qpower 2 e H). Qed.

Lemma pow2_succ e : (pow2 (e + 1) == 2 * pow2 e)%Q.
Proof. rewrite pow2_add. change (pow2 1) with 2%Q. ring. Qed.

End Pow2.

Section Rne.

Import Number.

Lemma rne_bounds q : Qfloor q <= rne q <= Qfloor q + 1.
Proof.
  unfold rne. cbv zeta.
  destruct (q - inject_Z (Qfloor q) ?= 1 # 2)%Q; [destruct (Z.even _)| |]; lia.
Qed.

Lemma rne_Z k : rne (inject_Z k) = k.
Proof.
  unfold rne. cbv zeta. rewrite Qfloor_Z.
  assert (H : (inject_Z k - inject_Z k ?= 1 # 2)%Q = Lt).
  { apply (proj1 (Qlt_alt _ _)). lra. }
  rewrite H. reflexivity.
Qed.

Lemma rne_mono q1 q2 : (q1 <= q2)%Q -> rne q1 <= rne q2.
Proof.
  intros H. pose proof (Qfloor_resp_le _ _ H) as Hf.
  destruct (Z.eq_dec (Qfloor q1) (Qfloor q2)) as [Heq|Hne].
  - unfold rne. cbv zeta. rewrite Heq.
    destruct (Qcompare_spec (q1 - inject_Z (Qfloor q2)) (1 # 2)) as [H1|H1|H1];
      destruct (Qcompare_spec (q2 - inject_Z (Qfloor q2)) (1 # 2)) as [H2|H2|H2];
      try destruct (Z.even (Qfloor q2)); try lia; exfalso; lra.
  - pose proof (rne_bounds q1). pose proof (rne_bounds q2). lia.
Qed.

Lemma rne_comp q1 q2 : (q1 == q2)%Q -> rne q1 = rne q2.
Proof.
  intros H. apply Z.le_antisymm; apply rne_mono; rewrite H; apply Qle_refl.
Qed.

End Rne.

Section Ilog2.

Import Number.

Lemma Q_num_den (a : Q) : (a * inject_Z (Zpos (Qden a)) == inject_Z (Qnum a))%Q.
Proof.
  destruct a as [n d]. simpl. unfold Qeq, Qmult, inject_Z. simpl. lia.
Qed.

Lemma Qnum_pos (a : Q) : (0 < a)%Q <-> 0 < Qnum a.
Proof. destruct a as [n d]. unfold Qlt. simpl. lia. Qed.

Lemma log2_pow2 n : 0 < n ->
  (pow2 (Z.log2 n) <= inject_Z n < pow2 (Z.log2 n + 1))%Q.
Proof.
  intros Hn. destruct (Z.log2_spec n Hn) as [H1 H2].
  pose proof (Z.log2_nonneg n) as H0.
  rewrite !pow2_Z by lia. rewrite <- Zle_Qle, <- Zlt_Qlt.
  replace (Z.log2 n + 1) with (Z.succ (Z.log2 n)) by lia. split; assumption.
Qed.

Lemma ilog2_rough a : (0 < a)%Q ->
  let k := Z.log2 (Qnum a) - Z.log2 (Zpos (Qden a)) in
  (pow2 (k - 1) < a < pow2 (k + 1))%Q.
Proof.
  intros Ha k.
  pose proof (proj1 (Qnum_pos a) Ha) as Hn.
  destruct (log2_pow2 (Qnum a) Hn) as [Hn1 Hn2].
  destruct (log2_pow2 (Zpos (Qden a)) ltac:(lia)) as [Hd1 Hd2].
  pose proof (Q_num_den a) as Hnd.
  set (ln := Z.log2 (Qnum a)) in *. set (ld := Z.log2 (Zpos (Qden a))) in *.
  set (n := inject_Z (Qnum a)) in *. set (d := inject_Z (Zpos (Qden a))) in *.
  assert (Hd : (0 < d)%Q) by (eapply Qlt_le_trans; [apply (pow2_pos ld) | exact Hd1]).
  split.
  - (* pow2 (k-1) * d < pow2 (k-1) * pow2 (ld+1) = pow2 ln <= n = a * d *)
    apply (Qmult_lt_r _ _ d Hd). rewrite Hnd.
    apply Qlt_le_trans with (pow2 (k - 1) * pow2 (ld + 1))%Q.
    + apply Qmult_lt_l; [apply pow2_pos | exact Hd2].
    + rewrite <- pow2_add. replace (k - 1 + (ld + 1)) with ln by (unfold k; lia).
      exact Hn1.
  - apply (Qmult_lt_r _ _ d Hd). rewrite Hnd.
    apply Qlt_le_trans with (pow2 (k + 1) * pow2 ld)%Q.
    + rewrite <- pow2_add. replace (k + 1 + ld) with (ln + 1) by (unfold k; lia).
      exact Hn2.
    + apply Qmult_le_l; [apply pow2_pos | exact Hd1].
Qed.

Lemma ilog2_spec a : (0 < a)%Q ->
  (pow2 (ilog2 a) <= a < pow2 (ilog2 a + 1))%Q.
Proof.
  intros Ha. destruct (ilog2_rough a Ha) as [H1 H2]. unfold ilog2. cbv zeta.
  destruct (Qle_bool (pow2 (Z.log2 (Qnum a) - Z.log2 (Z.pos (Qden a)))) a) eqn:Hk.
  - apply Qle_bool_iff in Hk. split; assumption.
  - assert (Hlt : (a < pow2 (Z.log2 (Qnum a) - Z.log2 (Z.pos (Qden a))))%Q).
    { apply Qnot_le_lt. intros H. apply Qle_bool_iff in H. congruence. }
    split; [apply Qlt_le_weak; exact H1|].
    replace (Z.log2 (Qnum a) - Z.log2 (Z.pos (Qden a)) - 1 + 1)
      with (Z.log2 (Qnum a) - Z.log2 (Z.pos (Qden a))) by lia.
    exact Hlt.
Qed.

(** The binade of a positive rational is determined by its bounds. *)
Lemma ilog2_unique a b : (pow2 b <= a < pow2 (b + 1))%Q -> ilog2 a = b.
Proof.
  intros [H1 H2].
  assert (Ha : (0 < a)%Q) by (eapply Qlt_le_trans; [apply (pow2_pos b) | exact H1]).
  destruct (ilog2_spec a Ha) as [H3 H4].
  assert (ilog2 a < b + 1).
  { apply pow2_lt_inv. eapply Qle_lt_trans; eauto. }
  assert (b < ilog2 a + 1).
  { apply pow2_lt_inv. eapply Qle_lt_trans; eauto. }
  lia.
Qed.

Lemma ilog2_mono a1 a2 : (0 < a1)%Q -> (a1 <= a2)%Q -> ilog2 a1 <= ilog2 a2.
Proof.
  intros H1 H12.
  assert (H2 : (0 < a2)%Q) by (eapply Qlt_le_trans; eauto).
  destruct (ilog2_spec a1 H1) as [Ha _]. destruct (ilog2_spec a2 H2) as [_ Hb].
  assert (ilog2 a1 < ilog2 a2 + 1); [|lia].
  apply pow2_lt_inv. eapply Qle_lt_trans; [exact Ha|].
  eapply Qle_lt_trans; eauto.
Qed.

End Ilog2.

Section Binade.

Import Number.

Lemma binade_mono a1 a2 : (0 < a1)%Q -> (a1 <= a2)%Q -> binade a1 <= binade a2.
Proof.
  intros H1 H12. unfold binade. pose proof (ilog2_mono a1 a2 H1 H12). lia.
Qed.

Lemma binade_min a : -1074 <= binade a.
Proof. unfold binade. lia. Qed.

Lemma binade_upper a : (0 < a)%Q -> (a < pow2 (binade a + 53))%Q.
Proof.
  intros Ha. destruct (ilog2_spec a Ha) as [_ H].
  eapply Qlt_le_trans; [exact H|]. apply pow2_le. unfold binade. lia.
Qed.

Lemma binade_lower a :
  (0 < a)%Q -> -1074 < binade a -> (pow2 (binade a + 52) <= a)%Q.
Proof.
  intros Ha Hb. destruct (ilog2_spec a Ha) as [H _].
  replace (binade a + 52) with (ilog2 a); [exact H|]. unfold binade in *. lia.
Qed.

(** Scaling by a power of two. *)
Lemma scaled_lt a e k : (a < pow2 (e + k))%Q -> (a / pow2 e < pow2 k)%Q.
Proof.
  intros H. apply Qlt_shift_div_r; [apply pow2_pos|].
  rewrite <- pow2_add, Z.add_comm. exact H.
Qed.

Lemma scaled_le a e k : (pow2 (e + k) <= a)%Q -> (pow2 k <= a / pow2 e)%Q.
Proof.
  intros H. apply Qle_shift_div_l; [apply pow2_pos|].
  rewrite <- pow2_add, Z.add_comm. exact H.
Qed.

Lemma mantissa_bounds a : (0 < a)%Q -> 0 <= mantissa a <= 2 ^ 53.
Proof.
  intros Ha. unfold mantissa. split.
  - rewrite <- (rne_Z 0). apply rne_mono.
    apply Qlt_le_weak, Qlt_shift_div_l; [apply pow2_pos|].
    rewrite Qmult_0_l. exact Ha.
  - rewrite <- (rne_Z (2 ^ 53)). apply rne_mono.
    rewrite <- pow2_Z by lia. apply Qlt_le_weak, scaled_lt, binade_upper, Ha.
Qed.

Lemma mantissa_normal a :
  (0 < a)%Q -> -1074 < binade a -> 2 ^ 52 <= mantissa a.
Proof.
  intros Ha Hb. unfold mantissa.
  rewrite <- (rne_Z (2 ^ 52)). apply rne_mono.
  rewrite <- pow2_Z by lia. apply scaled_le, binade_lower; assumption.
Qed.

Lemma rval_upper a : (0 < a)%Q -> (rval a <= pow2 (binade a + 53))%Q.
Proof.
  intros Ha. unfold rval. rewrite (Z.add_comm (binade a)), pow2_add.
  apply Qmult_le_compat_r; [|apply Qlt_le_weak, pow2_pos].
  rewrite pow2_Z by lia. rewrite <- Zle_Qle. apply mantissa_bounds, Ha.
Qed.

Lemma rval_lower a :
  (0 < a)%Q -> -1074 < binade a -> (pow2 (binade a + 52) <= rval a)%Q.
Proof.
  intros Ha Hb. unfold rval. rewrite (Z.add_comm (binade a)), pow2_add.
  apply Qmult_le_compat_r; [|apply Qlt_le_weak, pow2_pos].
  rewrite pow2_Z by lia. rewrite <- Zle_Qle. apply mantissa_normal; assumption.
Qed.

Lemma rval_nonneg a : (0 < a)%Q -> (0 <= rval a)%Q.
Proof.
  intros Ha. unfold rval. apply Qmult_le_0_compat.
  - change 0%Q with (inject_Z 0). rewrite <- Zle_Qle. apply mantissa_bounds, Ha.
  - apply Qlt_le_weak, pow2_pos.
Qed.

(** Rounding is monotone. *)
Lemma rval_mono a1 a2 : (0 < a1)%Q -> (a1 <= a2)%Q -> (rval a1 <= rval a2)%Q.
Proof.
  intros H1 H12.
  assert (H2 : (0 < a2)%Q) by (eapply Qlt_le_trans; eauto).
  pose proof (binade_mono a1 a2 H1 H12) as HE.
  destruct (Z.eq_dec (binade a1) (binade a2)) as [Heq|Hne].
  - unfold rval, mantissa. rewrite Heq.
    apply Qmult_le_compat_r; [|apply Qlt_le_weak, pow2_pos].
    rewrite <- Zle_Qle. apply rne_mono.
    apply Qmult_le_compat_r; [exact H12|].
    apply Qlt_le_weak, Qinv_lt_0_compat, pow2_pos.
  - apply Qle_trans with (pow2 (binade a1 + 53)); [apply rval_upper, H1|].
    apply Qle_trans with (pow2 (binade a2 + 52)); [apply pow2_le; lia|].
    apply rval_lower; [exact H2|]. pose proof (binade_min a1). lia.
Qed.

(** Rounding keeps what is representable. *)
Lemma rval_exact a m e :
  0 < m < 2 ^ 53 -> -1074 <= e -> (a == inject_Z m * pow2 e)%Q ->
  mantissa a = m * 2 ^ (e - binade a) /\ binade a <= e /\ (rval a == a)%Q.
Proof.
  intros Hm He Ha.
  assert (Hpos : (0 < a)%Q).
  { rewrite Ha. apply Qmult_lt_0_compat; [|apply pow2_pos].
    change 0%Q with (inject_Z 0). rewrite <- Zlt_Qlt. lia. }
  assert (Hup : (a < pow2 (e + 53))%Q).
  { rewrite Ha, (Z.add_comm e), pow2_add.
    apply Qmult_lt_compat_r; [apply pow2_pos|].
    rewrite pow2_Z by lia. rewrite <- Zlt_Qlt. lia. }
  assert (HE : binade a <= e).
  { destruct (ilog2_spec a Hpos) as [Hlow _].
    assert (ilog2 a < e + 53).
    { apply pow2_lt_inv. eapply Qle_lt_trans; eauto. }
    unfold binade. lia. }
  remember (binade a) as b eqn:Hb.
  assert (Hnz : ~ (pow2 b == 0)%Q).
  { intros H0. pose proof (pow2_pos b) as Hp. rewrite H0 in Hp.
    discriminate Hp. }
  assert (Hscaled : (a / pow2 b == inject_Z (m * 2 ^ (e - b)))%Q).
  { rewrite Ha, inject_Z_mult, <- pow2_Z by lia.
    replace e with (e - b + b) at 1 by lia.
    rewrite pow2_add. field. exact Hnz. }
  assert (Hmant : mantissa a = m * 2 ^ (e - b)).
  { unfold mantissa. rewrite <- Hb, (rne_comp _ _ Hscaled). apply rne_Z. }
  split; [exact Hmant|]. split; [exact HE|].
  unfold rval. rewrite Hmant, <- Hb, <- Hscaled. field. exact Hnz.
Qed.

End Binade.

Section Rounding.

Import Number.

Lemma binade_comp a a' : (0 < a)%Q -> (a == a')%Q -> binade a = binade a'.
Proof.
  intros Ha H. unfold binade. f_equal. f_equal.
  symmetry. apply ilog2_unique. rewrite <- H. apply ilog2_spec, Ha.
Qed.

Lemma mantissa_comp a a' : (0 < a)%Q -> (a == a')%Q -> mantissa a = mantissa a'.
Proof.
  intros Ha H. unfold mantissa. rewrite <- (binade_comp a a' Ha H).
  apply rne_comp, Qdiv_comp; [exact H | reflexivity].
Qed.

Lemma round_pos_comp s a a' :
  (0 < a)%Q -> (a == a')%Q -> round_pos s a = round_pos s a'.
Proof.
  intros Ha H. unfold round_pos.
  rewrite (binade_comp a a' Ha H), (mantissa_comp a a' Ha H). reflexivity.
Qed.

Lemma Qnum_sign (q : Q) :
  match Qnum q with
  | Z0 => (q == 0)%Q
  | Zpos _ => (0 < q)%Q
  | Zneg _ => (q < 0)%Q
  end.
Proof. destruct q as [[|n|n] d]; unfold Qeq, Qlt; simpl; lia. Qed.

Lemma round_zero s q : (q == 0)%Q -> round s q = S754_zero s.
Proof.
  intros H. unfold round. pose proof (Qnum_sign q) as Hs.
  destruct (Qnum q); [reflexivity | exfalso; lra | exfalso; lra].
Qed.

Lemma round_positive s q : (0 < q)%Q -> round s q = round_pos false q.
Proof.
  intros H. unfold round. pose proof (Qnum_sign q) as Hs.
  destruct (Qnum q); [exfalso; lra | reflexivity | exfalso; lra].
Qed.

Lemma round_negative s q : (q < 0)%Q -> round s q = round_pos true (- q).
Proof.
  intros H. unfold round. pose proof (Qnum_sign q) as Hs.
  destruct (Qnum q); [exfalso; lra | exfalso; lra | reflexivity].
Qed.

(** What [round_pos] returns, by the rounded value. *)
Lemma round_pos_cases a :
  (0 < a)%Q ->
  ((pow2 1024 <= rval a)%Q /\ forall s, round_pos s a = S754_infinity s) \/
  ((rval a == 0)%Q /\ forall s, round_pos s a = S754_zero s) \/
  (exists m e,
     (forall s, round_pos s a = S754_finite s m e) /\
     (inject_Z (Zpos m) * pow2 e == rval a)%Q /\
     (rval a < pow2 1024)%Q /\ Zpos m < 2 ^ 53 /\ -1074 <= e).
Proof.
  intros Ha. unfold round_pos. cbv zeta.
  pose proof (mantissa_bounds a Ha) as Hm.
  pose proof (binade_min a) as Hmin.
  destruct ((971 <? binade a) || ((binade a =? 971) && (2 ^ 53 <=? mantissa a)))
    eqn:Hover.
  - left. split; [|reflexivity].
    apply orb_true_iff in Hover as [HE|HE].
    + apply Z.ltb_lt in HE.
      apply Qle_trans with (pow2 (binade a + 52)); [apply pow2_le; lia|].
      apply rval_lower; [exact Ha | lia].
    + apply andb_true_iff in HE as [HE Hbig].
      apply Z.eqb_eq in HE. apply Z.leb_le in Hbig.
      unfold rval. rewrite HE.
      change 1024 with (53 + 971). rewrite pow2_add.
      apply Qmult_le_compat_r; [|apply Qlt_le_weak, pow2_pos].
      rewrite pow2_Z by lia. rewrite <- Zle_Qle. exact Hbig.
  - right. apply orb_false_iff in Hover as [HE1 HE2]. apply Z.ltb_ge in HE1.
    assert (Hsmall : (rval a < pow2 1024)%Q).
    { destruct (Z.eq_dec (binade a) 971) as [H971|Hne].
      - rewrite H971 in HE2. simpl in HE2. apply Z.leb_gt in HE2.
        unfold rval. rewrite H971.
        change 1024 with (53 + 971). rewrite pow2_add.
        apply Qmult_lt_compat_r; [apply pow2_pos|].
        rewrite pow2_Z by lia. rewrite <- Zlt_Qlt. exact HE2.
      - eapply Qle_lt_trans; [apply rval_upper, Ha|].
        apply pow2_lt. lia. }
    destruct (2 ^ 53 <=? mantissa a) eqn:Hbig.
    + apply Z.leb_le in Hbig. right.
      exists (2 ^ 52)%positive, (binade a + 1).
      split; [reflexivity|]. split; [|split; [exact Hsmall|split; lia]].
      unfold rval. replace (mantissa a) with (2 ^ 53) by lia.
      rewrite pow2_succ. change (inject_Z (Z.pos (2 ^ 52))) with (inject_Z (2 ^ 52)).
      change (inject_Z (2 ^ 53)) with (2 * inject_Z (2 ^ 52))%Q. ring.
    + apply Z.leb_gt in Hbig.
      destruct (mantissa a) as [|p|p] eqn:Hp; [| |lia].
      * left. split; [|reflexivity]. unfold rval. rewrite Hp. ring.
      * right. exists p, (binade a). split; [reflexivity|].
        split; [unfold rval; rewrite Hp; reflexivity|].
        split; [exact Hsmall|]. split; lia.
Qed.

End Rounding.

Section RoundingOrder.

Import Number.

Lemma round_pos_not_nan s a : round_pos s a <> S754_nan.
Proof.
  unfold round_pos. cbv zeta.
  destruct ((971 <? binade a) || _); [discriminate|].
  destruct (2 ^ 53 <=? mantissa a); [discriminate|].
  destruct (mantissa a); discriminate.
Qed.

Lemma round_pos_sign s a : sign (round_pos s a) = s.
Proof.
  unfold round_pos. cbv zeta.
  destruct ((971 <? binade a) || _); [reflexivity|].
  destruct (2 ^ 53 <=? mantissa a); [reflexivity|].
  destruct (mantissa a); reflexivity.
Qed.

(** A positive rational that is a double is rounded to itself. *)
Lemma round_pos_exact a m e :
  0 < m < 2 ^ 53 -> -1074 <= e -> (a == inject_Z m * pow2 e)%Q ->
  (a < pow2 1024)%Q ->
  exists m' e',
    (forall s, round_pos s a = S754_finite s m' e') /\
    (inject_Z (Zpos m') * pow2 e' == a)%Q /\ Zpos m' < 2 ^ 53 /\ -1074 <= e'.
Proof.
  intros Hm He Ha Hfin.
  destruct (rval_exact a m e Hm He Ha) as (_ & _ & Hr).
  assert (Hpos : (0 < a)%Q).
  { rewrite Ha. apply Qmult_lt_0_compat; [|apply pow2_pos].
    change 0%Q with (inject_Z 0). rewrite <- Zlt_Qlt. lia. }
  destruct (round_pos_cases a Hpos)
    as [[Hinf _]|[[Hz _]|(m' & e' & Heq & Hv & _ & Hm' & He')]].
  - exfalso. rewrite Hr in Hinf. lra.
  - exfalso. rewrite Hr in Hz. lra.
  - exists m', e'. rewrite Hr in Hv. auto.
Qed.

(** Rounding is monotone on the positive rationals. *)
Lemma round_pos_mono a1 a2 :
  (0 < a1)%Q -> (a1 <= a2)%Q ->
  leN (round_pos false a1) (round_pos false a2) /\
  leN (round_pos true a2) (round_pos true a1).
Proof.
  intros H1 H12.
  assert (H2 : (0 < a2)%Q) by (eapply Qlt_le_trans; eauto).
  pose proof (rval_mono a1 a2 H1 H12) as Hr.
  pose proof (rval_nonneg a1 H1) as Hn1.
  pose proof (pow2_pos 1024) as Hbig.
  destruct (round_pos_cases a1 H1)
    as [[B1 E1]|[[B1 E1]|(m1 & e1 & E1 & V1 & B1 & _)]];
    destruct (round_pos_cases a2 H2)
      as [[B2 E2]|[[B2 E2]|(m2 & e2 & E2 & V2 & B2 & _)]];
    rewrite !E1, !E2; simpl; try (split; exact I);
    try (exfalso; lra); split; lra.
Qed.

End RoundingOrder.

Section NumberOrder.

Import Number.

Lemma leN_trans x y z : leN x y -> leN y z -> leN x z.
Proof.
  destruct x as [[|]|[|]| |[|] ? ?], y as [[|]|[|]| |[|] ? ?],
    z as [[|]|[|]| |[|] ? ?]; simpl; try tauto; intros; lra.
Qed.

Lemma value_finite_pos m e : (0 < inject_Z (Zpos m) * pow2 e)%Q.
Proof.
  apply Qmult_lt_0_compat; [|apply pow2_pos].
  change 0%Q with (inject_Z 0). rewrite <- Zlt_Qlt. lia.
Qed.

Lemma round_pos_nonneg a s : (0 < a)%Q -> leN (S754_zero s) (round_pos false a).
Proof.
  intros Ha. pose proof (rval_nonneg a Ha).
  destruct (round_pos_cases a Ha) as [[_ E]|[[_ E]|(m & e & E & V & _)]];
    rewrite E; simpl; try exact I; lra.
Qed.

Lemma round_pos_nonpos a s : (0 < a)%Q -> leN (round_pos true a) (S754_zero s).
Proof.
  intros Ha. pose proof (rval_nonneg a Ha).
  destruct (round_pos_cases a Ha) as [[_ E]|[[_ E]|(m & e & E & V & _)]];
    rewrite E; simpl; try exact I; lra.
Qed.

(** Rounding is monotone. *)
Lemma round_mono s1 s2 q1 q2 :
  (q1 <= q2)%Q -> leN (round s1 q1) (round s2 q2).
Proof.
  intros H.
  destruct (Q_dec q1 0) as [[N1|P1]|Z1]; destruct (Q_dec q2 0) as [[N2|P2]|Z2];
    try (exfalso; lra).
  - rewrite (round_negative _ _ N1), (round_negative _ _ N2).
    apply (round_pos_mono (- q2) (- q1)); lra.
  - rewrite (round_negative _ _ N1), (round_positive _ _ P2).
    apply leN_trans with (S754_zero false);
      [apply round_pos_nonpos | apply round_pos_nonneg]; lra.
  - rewrite (round_negative _ _ N1), (round_zero _ _ Z2).
    apply round_pos_nonpos. lra.
  - rewrite (round_positive _ _ P1), (round_positive _ _ P2).
    apply (round_pos_mono q1 q2); assumption.
  - rewrite (round_zero _ _ Z1), (round_positive _ _ P2).
    apply round_pos_nonneg. exact P2.
  - rewrite (round_zero _ _ Z1), (round_zero _ _ Z2). simpl. lra.
Qed.

(** The exponent of a double is at least -1074. *)
Lemma valid_exponent s m e :
  valid_binary 53 1024 (S754_finite s m e) = true -> -1074 <= e.
Proof.
  unfold valid_binary, bounded, canonical_mantissa, fexp, emin.
  intros H. apply andb_true_iff in H as [H _].
  apply Z.eqb_eq in H. lia.
Qed.

(** Every double is a multiple of the smallest one. *)
Lemma value_grid x :
  valid_binary 53 1024 x = true ->
  exists K, (value x == inject_Z K * pow2 (-1074))%Q.
Proof.
  destruct x as [s|s| |s m e]; intros Hv;
    try (exists 0; simpl; ring).
  apply valid_exponent in Hv.
  exists ((if s then -1 else 1) * (Zpos m * 2 ^ (e + 1074))).
  assert (Hp : (pow2 e == inject_Z (2 ^ (e + 1074)) * pow2 (-1074))%Q).
  { rewrite <- pow2_Z, <- pow2_add by lia. apply Qpower_comp; [reflexivity|lia]. }
  destruct s; simpl value; rewrite Hp, !inject_Z_mult; simpl; ring.
Qed.

Lemma ofZ_zero : ofZ 0 = S754_zero false.
Proof. reflexivity. Qed.

Lemma ofZ_positive k :
  0 < k < 2 ^ 53 ->
  exists m e, ofZ k = S754_finite false m e /\
    (inject_Z (Zpos m) * pow2 e == inject_Z k)%Q.
Proof.
  intros Hk. unfold ofZ.
  assert (Hpos : (0 < inject_Z k)%Q).
  { change 0%Q with (inject_Z 0). rewrite <- Zlt_Qlt. lia. }
  rewrite (round_positive _ _ Hpos).
  destruct (round_pos_exact (inject_Z k) k 0 Hk ltac:(lia))
    as (m & e & E & V & _).
  - change (pow2 0) with 1%Q. ring.
  - apply Qlt_le_trans with (pow2 53); [|apply pow2_le; lia].
    rewrite pow2_Z by lia. rewrite <- Zlt_Qlt. lia.
  - exists m, e. split; [apply E | exact V].
Qed.

End NumberOrder.

(** ** Numbers: signs and order of the results *)

Section Signs.

Import Number.

Lemma round_pos_shape s a :
  match round_pos s a with
  | S754_infinity s' | S754_zero s' | S754_finite s' _ _ => s' = s
  | S754_nan => False
  end.
Proof.
  unfold round_pos. cbv zeta.
  destruct ((971 <? binade a) || _); [reflexivity|].
  destruct (2 ^ 53 <=? mantissa a); [reflexivity|].
  destruct (mantissa a); reflexivity.
Qed.

Lemma round_nonpos s q : (q <= 0)%Q -> isNonPos (round s q).
Proof.
  intros H. destruct (Q_dec q 0) as [[N|P]|Z]; [|exfalso; lra|].
  - rewrite (round_negative _ _ N). pose proof (round_pos_shape true (- q)) as Hs.
    destruct (round_pos true (- q)) as [[|]|[|]| |[|] ? ?]; simpl;
      try exact I; try discriminate; try contradiction.
  - rewrite (round_zero _ _ Z). exact I.
Qed.

Lemma round_nonneg s q : (0 <= q)%Q -> isNonNeg (round s q).
Proof.
  intros H. destruct (Q_dec q 0) as [[N|P]|Z]; [exfalso; lra| |].
  - rewrite (round_positive _ _ P). pose proof (round_pos_shape false q) as Hs.
    destruct (round_pos false q) as [[|]|[|]| |[|] ? ?]; simpl;
      try exact I; try discriminate; try contradiction.
  - rewrite (round_zero _ _ Z). exact I.
Qed.

Lemma compare_finite_le x y :
  match x, y with
  | S754_nan, _ | _, S754_nan
  | S754_infinity _, _ | _, S754_infinity _ => True
  | _, _ => leb x y = true -> (value x <= value y)%Q
  end.
Proof.
  destruct x as [?|?| |? ? ?], y as [?|?| |? ? ?]; try exact I;
    unfold leb, compare;
    match goal with
    | |- context [(?a ?= ?b)%Q] =>
      destruct (Qcompare_spec a b) as [H|H|H]; intros; try discriminate; lra
    end.
Qed.

Lemma sub_nonpos a b :
  leb a b = true -> isNonPos (sub a b) \/ sub a b = S754_nan.
Proof.
  intros H. pose proof (compare_finite_le a b) as Hv.
  destruct a as [[|]|[|]| |sa ma ea], b as [[|]|[|]| |sb mb eb];
    try discriminate H; simpl sub; simpl isNonPos; auto;
    left; apply round_nonpos; specialize (Hv H); simpl in Hv |- *; lra.
Qed.

Lemma sub_nonneg a b :
  leb b a = true -> isNonNeg (sub a b) \/ sub a b = S754_nan.
Proof.
  intros H. pose proof (compare_finite_le b a) as Hv.
  destruct a as [[|]|[|]| |sa ma ea], b as [[|]|[|]| |sb mb eb];
    try discriminate H; simpl sub; simpl isNonNeg; auto;
    left; apply round_nonneg; specialize (Hv H); simpl in Hv |- *; lra.
Qed.

Lemma div_nonpos d f :
  isNonPos d -> isPos f -> isNonPos (div d f) \/ div d f = S754_nan.
Proof.
  destruct d as [[|]|[|]| |[|] md ed], f as [[|]|[|]| |[|] mf ef];
    simpl; try tauto; intros _ _; left;
    match goal with
    | |- isNonPos (round_pos ?s ?a) =>
      pose proof (round_pos_shape s a) as Hs;
      destruct (round_pos s a) as [[|]|[|]| |[|] ? ?]; simpl;
      try exact I; try discriminate; try contradiction
    end.
Qed.

Lemma mul_nonpos q c :
  isNonPos q -> isCount c -> isNonPos (mul q c) \/ mul q c = S754_nan.
Proof.
  destruct q as [[|]|[|]| |[|] mq eq_], c as [[|]|[|]| |[|] mc ec];
    simpl; try tauto; intros _ _; left;
    match goal with
    | |- isNonPos (round_pos ?s ?a) =>
      pose proof (round_pos_shape s a) as Hs;
      destruct (round_pos s a) as [[|]|[|]| |[|] ? ?]; simpl;
      try exact I; try discriminate; try contradiction
    end.
Qed.

Lemma ofZ_count k : 0 <= k < 2 ^ 53 -> isCount (ofZ k).
Proof.
  intros Hk. destruct (Z.eq_dec k 0) as [->|Hne]; [exact I|].
  destruct (ofZ_positive k ltac:(lia)) as (m & e & -> & _). exact I.
Qed.

(** Below the domain the parameter is [+0]. *)
Lemma clamp_nonpos c x :
  isCount c -> isNonPos x ->
  Math_min c (Math_max (ofZ 0) x) = S754_zero false.
Proof.
  intros Hc Hx.
  assert (Hmax : Math_max (ofZ 0) x = S754_zero false).
  { destruct x as [[|]|[|]| |[|] m e]; try contradiction; try reflexivity.
    unfold Math_max, compare. rewrite ofZ_zero.
    pose proof (value_finite_pos m e).
    destruct (Qcompare_spec (value (S754_zero false))
                (value (S754_finite true m e))) as [H0|H0|H0];
      simpl in H0; try reflexivity; exfalso; lra. }
  rewrite Hmax.
  destruct c as [[|]|[|]| |[|] m e]; try contradiction; try reflexivity.
  unfold Math_min, compare. pose proof (value_finite_pos m e).
  destruct (Qcompare_spec (value (S754_finite false m e))
              (value (S754_zero false))) as [H0|H0|H0];
    simpl in H0; try reflexivity; exfalso; lra.
Qed.

End Signs.

(** A difference that is not a special case is a rounded difference. *)
Ltac rounded R :=
  match type of R with
  | ex _ => let s := fresh "s" in destruct R as [s ->]
  end.

Section Values.

Import Number.

Lemma sub_finite_round x y :
  match x, y with
  | S754_nan, _ | _, S754_nan
  | S754_infinity _, _ | _, S754_infinity _ => True
  | _, _ => exists sz, sub x y = round sz (value x - value y)
  end.
Proof.
  destruct x as [sx|?| |sx mx ex], y as [sy|?| |sy my ey]; try exact I.
  - exists (sx && negb sy). simpl. rewrite round_zero; [reflexivity | ring].
  - exists false. reflexivity.
  - exists false. reflexivity.
  - exists false. reflexivity.
Qed.

Lemma compare_finite_lt x y :
  match x, y with
  | S754_nan, _ | _, S754_nan
  | S754_infinity _, _ | _, S754_infinity _ => True
  | _, _ => ltb x y = true -> (value x < value y)%Q
  end.
Proof.
  destruct x as [?|?| |? ? ?], y as [?|?| |? ? ?]; try exact I;
    unfold ltb, compare;
    match goal with
    | |- context [(?a ?= ?b)%Q] =>
      destruct (Qcompare_spec a b) as [H|H|H]; intros; try discriminate; lra
    end.
Qed.

(** A positive difference of two doubles does not round to zero. *)
Lemma round_grid_pos s q K :
  (q == inject_Z K * pow2 (-1074))%Q -> (0 < q)%Q -> isPos (round s q).
Proof.
  intros Hq Hpos. rewrite (round_positive _ _ Hpos).
  assert (HK : 1 <= K).
  { destruct (Z_lt_le_dec 0 K) as [H|H]; [lia|].
    exfalso. rewrite Zle_Qle in H. pose proof (pow2_pos (-1074)) as Hp.
    assert ((inject_Z K * pow2 (-1074) <= 0)%Q); [|lra].
    rewrite <- (Qmult_0_l (pow2 (-1074))).
    apply Qmult_le_compat_r; [exact H | lra]. }
  assert (Hlow : (pow2 (-1074) <= q)%Q).
  { rewrite Hq. rewrite <- (Qmult_1_l (pow2 (-1074))) at 1.
    apply Qmult_le_compat_r; [|apply Qlt_le_weak, pow2_pos].
    change 1%Q with (inject_Z 1). rewrite <- Zle_Qle. exact HK. }
  pose proof (rval_mono (pow2 (-1074)) q (pow2_pos _) Hlow) as Hr.
  destruct (rval_exact (pow2 (-1074)) 1 (-1074)) as (_ & _ & He);
    [lia | lia | ring |].
  rewrite He in Hr. pose proof (pow2_pos (-1074)) as Hp.
  destruct (round_pos_cases q Hpos) as [[_ E]|[[Z _]|(m & e & E & _)]];
    [rewrite E; exact I | exfalso; lra | rewrite E; exact I].
Qed.

Lemma sub_pos lo hi :
  valid_binary 53 1024 lo = true -> valid_binary 53 1024 hi = true ->
  ltb lo hi = true -> isPos (sub hi lo).
Proof.
  intros Vlo Vhi H.
  pose proof (compare_finite_lt lo hi) as Hv.
  pose proof (sub_finite_round hi lo) as Hr.
  destruct (value_grid lo Vlo) as [Kl Hl]. destruct (value_grid hi Vhi) as [Kh Hh].
  destruct lo as [sl|[|]| |sl ml el], hi as [sh|[|]| |sh mh eh];
    try discriminate H; try exact I;
    specialize (Hv H); destruct Hr as [sz ->];
    apply (round_grid_pos _ _ (Kh - Kl));
    try (rewrite Hh, Hl; unfold Z.sub; rewrite inject_Z_plus, inject_Z_opp;
         ring); lra.
Qed.

Lemma round_not_nan s q : round s q <> S754_nan.
Proof.
  unfold round. destruct (Qnum q); [discriminate | |]; apply round_pos_not_nan.
Qed.

Lemma leN_inf_r x : x <> S754_nan -> leN x (S754_infinity false).
Proof. destruct x as [[|]|[|]| |[|] ? ?]; simpl; congruence || auto. Qed.

Lemma sub_mono lo hi v :
  ltb lo hi = true -> leb hi v = true -> leN (sub hi lo) (sub v lo).
Proof.
  intros Hlt Hle.
  pose proof (compare_finite_le hi v) as Hv.
  pose proof (sub_finite_round hi lo) as R1.
  pose proof (sub_finite_round v lo) as R2.
  destruct lo as [sl|[|]| |sl ml el], hi as [sh|[|]| |sh mh eh],
    v as [sv|[|]| |sv mv ev];
    try discriminate Hlt; try discriminate Hle; try (simpl; exact I);
    first [ rounded R1; rounded R2; specialize (Hv Hle); apply round_mono; lra
          | rounded R1; apply leN_inf_r, round_not_nan ].
Qed.

End Values.

Section Clamp.

Import Number.

Lemma inject_Z_pos k : 0 < k -> (0 < inject_Z k)%Q.
Proof. intros H. change 0%Q with (inject_Z 0). rewrite <- Zlt_Qlt. exact H. Qed.

Lemma count_below_overflow k : k < 2 ^ 53 -> (inject_Z k < pow2 1024)%Q.
Proof.
  intros H. apply Qlt_trans with (pow2 53); [|apply pow2_lt; lia].
  rewrite pow2_Z by lia. rewrite <- Zlt_Qlt. exact H.
Qed.

(** Rounding does not take a number below a count that it is above. *)
Lemma round_pos_ge k a :
  0 < k < 2 ^ 53 -> (inject_Z k <= a)%Q ->
  atLeast (inject_Z k) (round_pos false a).
Proof.
  intros Hk Ha.
  destruct (round_pos_exact (inject_Z k) k 0 Hk ltac:(lia)) as (m & e & E & V & _).
  - change (pow2 0) with 1%Q. ring.
  - apply count_below_overflow. lia.
  - destruct (round_pos_mono (inject_Z k) a (inject_Z_pos k ltac:(lia)) Ha) as [M _].
    rewrite E in M. pose proof (round_pos_shape false a) as S.
    pose proof (inject_Z_pos k ltac:(lia)).
    destruct (round_pos false a) as [[|]|[|]| |[|] ? ?]; simpl in *;
      try contradiction; try discriminate; try exact I; lra.
Qed.

Lemma Qabs_finite s m e :
  (Qabs (value (S754_finite s m e)) == inject_Z (Zpos m) * pow2 e)%Q.
Proof.
  pose proof (value_finite_pos m e) as H. simpl. destruct s.
  - rewrite Qabs_opp. apply Qabs_pos. lra.
  - apply Qabs_pos. lra.
Qed.

Lemma div_ge_one d f :
  isPos f -> leN f d -> div d f = S754_nan \/ atLeast 1 (div d f).
Proof.
  intros Hf Hle.
  destruct f as [[|]|[|]| |[|] mf ef]; try contradiction;
    destruct d as [[|]|[|]| |[|] md ed]; try contradiction;
    try (left; reflexivity); try (right; exact I).
  - exfalso. simpl in Hle. pose proof (value_finite_pos mf ef). lra.
  - exfalso. simpl in Hle. pose proof (value_finite_pos mf ef). lra.
  - exfalso. simpl in Hle. pose proof (value_finite_pos mf ef).
    pose proof (value_finite_pos md ed). lra.
  - right. unfold div. cbn [sign xorb]. apply (round_pos_ge 1); [lia|].
    rewrite 2 Qabs_finite. simpl in Hle.
    pose proof (value_finite_pos mf ef) as Pf.
    apply Qle_shift_div_l; [exact Pf|]. change (inject_Z 1) with 1%Q. lra.
Qed.

Lemma mul_ge q c k :
  0 < k < 2 ^ 53 -> atLeast 1 q -> c = ofZ k ->
  atLeast (inject_Z k) (mul q c).
Proof.
  intros Hk Hq ->. destruct (ofZ_positive k Hk) as (m & e & -> & V).
  destruct q as [[|]|[|]| |[|] mq eq_]; try contradiction; [exact I|].
  unfold mul. cbn [sign xorb]. apply (round_pos_ge k _ Hk).
  rewrite 2 Qabs_finite. rewrite V. simpl in Hq.
  pose proof (inject_Z_pos k ltac:(lia)).
  rewrite <- (Qmult_1_l (inject_Z k)) at 1.
  apply Qmult_le_compat_r; [exact Hq | lra].
Qed.

Lemma mul_zero_count q :
  atLeast 1 q -> mul q (ofZ 0) = S754_nan \/ mul q (ofZ 0) = S754_zero false.
Proof.
  destruct q as [[|]|[|]| |[|] mq eq_]; try contradiction; intros _;
    [left | right]; reflexivity.
Qed.

(** At and above the count the parameter is the count. *)
Lemma clamp_top k x :
  0 < k < 2 ^ 53 -> atLeast (inject_Z k) x ->
  exists m e, Math_min (ofZ k) (Math_max (ofZ 0) x) = S754_finite false m e /\
    (value (S754_finite false m e) == inject_Z k)%Q.
Proof.
  intros Hk Hx. destruct (ofZ_positive k Hk) as (m & e & E & V).
  pose proof (inject_Z_pos k ltac:(lia)) as Pk.
  rewrite E, ofZ_zero.
  destruct x as [[|]|[|]| |[|] mx ex]; try contradiction.
  - exists m, e. split; [reflexivity | exact V].
  - simpl in Hx.
    assert (Hmax : Math_max (S754_zero false) (S754_finite false mx ex)
                   = S754_finite false mx ex).
    { unfold Math_max, compare.
      destruct (Qcompare_spec (value (S754_zero false))
                  (value (S754_finite false mx ex))) as [H0|H0|H0];
        simpl in H0; try reflexivity; exfalso; lra. }
    rewrite Hmax. unfold Math_min, compare.
    destruct (Qcompare_spec (value (S754_finite false m e))
                (value (S754_finite false mx ex))) as [H0|H0|H0]; simpl in H0.
    + exists mx, ex. split; [reflexivity|]. simpl. rewrite <- H0. exact V.
    + exists m, e. split; [reflexivity | exact V].
    + exfalso. lra.
Qed.

(** The shape of a clamped number. *)
Lemma clamp_shape k x :
  0 <= k < 2 ^ 53 -> x <> S754_nan ->
  let t := Math_min (ofZ k) (Math_max (ofZ 0) x) in
  t = S754_zero false \/
  exists m e, t = S754_finite false m e /\
    (value (S754_finite false m e) <= inject_Z k)%Q.
Proof.
  intros Hk Hx t. subst t. rewrite ofZ_zero.
  assert (Hmax : Math_max (S754_zero false) x = S754_zero false \/
                 (isPos x /\ Math_max (S754_zero false) x = x)).
  { destruct x as [[|]|[|]| |[|] mx ex]; try congruence;
      try (left; reflexivity); try (right; split; [exact I | reflexivity]);
      pose proof (value_finite_pos mx ex); unfold Math_max, compare;
      match goal with
      | |- context [(?a ?= ?b)%Q] =>
        destruct (Qcompare_spec a b) as [H0|H0|H0]; simpl in H0;
          try (exfalso; lra)
      end.
    - left; reflexivity.
    - right; split; [exact I | reflexivity]. }
  destruct (Z.eq_dec k 0) as [->|Hne].
  - rewrite ofZ_zero. left.
    destruct Hmax as [->|[Hp ->]]; [reflexivity|].
    destruct x as [[|]|[|]| |[|] mx ex]; try contradiction; [reflexivity|].
    pose proof (value_finite_pos mx ex). unfold Math_min, compare.
    match goal with
    | |- context [(?a ?= ?b)%Q] =>
      destruct (Qcompare_spec a b) as [H0|H0|H0]; simpl in H0;
        try (exfalso; lra)
    end. reflexivity.
  - destruct (ofZ_positive k ltac:(lia)) as (m & e & E & V). rewrite E.
    pose proof (inject_Z_pos k ltac:(lia)) as Pk.
    destruct Hmax as [->|[Hp ->]].
    + left. unfold Math_min, compare.
      match goal with
      | |- context [(?a ?= ?b)%Q] =>
        destruct (Qcompare_spec a b) as [H0|H0|H0]; simpl in H0;
          try (exfalso; lra)
      end. reflexivity.
    + right. destruct x as [[|]|[|]| |[|] mx ex]; try contradiction.
      * exists m, e. split; [reflexivity | simpl; lra].
      * unfold Math_min, compare.
        match goal with
        | |- context [(?a ?= ?b)%Q] =>
          destruct (Qcompare_spec a b) as [H0|H0|H0]; simpl in H0
        end.
        -- exists mx, ex. split; [reflexivity | simpl; lra].
        -- exists m, e. split; [reflexivity | simpl; lra].
        -- exists mx, ex. split; [reflexivity | simpl; lra].
Qed.

End Clamp.

Section Reads.

Import Number.

Lemma round_comp s q q' : (q == q')%Q -> round s q = round s q'.
Proof.
  intros H. destruct (Q_dec q 0) as [[N|P]|Z].
  - rewrite (round_negative _ _ N), (round_negative s q') by lra.
    apply round_pos_comp; lra.
  - rewrite (round_positive _ _ P), (round_positive s q') by lra.
    apply round_pos_comp; lra.
  - rewrite (round_zero _ _ Z), (round_zero s q') by lra. reflexivity.
Qed.

Lemma toIndex_integer m e k :
  (value (S754_finite false m e) == inject_Z k)%Q ->
  toIndex (S754_finite false m e) = Some k.
Proof.
  intros H. unfold toIndex. cbv zeta.
  rewrite (Qfloor_comp _ _ H), Qfloor_Z.
  rewrite (proj2 (Qeq_bool_iff _ _) H). reflexivity.
Qed.

Lemma finite_integer m e :
  0 <= e -> (value (S754_finite false m e) == inject_Z (Zpos m * 2 ^ e))%Q.
Proof.
  intros He. simpl. rewrite (pow2_Z e He), inject_Z_mult. reflexivity.
Qed.

Lemma clamped_cases k t :
  clamped k t ->
  t = S754_zero false \/
  exists m e, t = S754_finite false m e /\ (0 < value t <= inject_Z k)%Q.
Proof.
  destruct t as [[|]|[|]| |[|] m e]; try contradiction; intros H.
  - left; reflexivity.
  - right. exists m, e. split; [reflexivity|]. split; [|exact H].
    apply value_finite_pos.
Qed.

(** [Math.floor] of a clamped number is the floor of its value. *)
Lemma floor_clamped k t :
  0 <= k < 2 ^ 53 -> clamped k t ->
  let f := Qfloor (value t) in
  0 <= f <= k /\ toIndex (Math_floor t) = Some f /\
  (value (Math_floor t) == inject_Z f)%Q /\
  Math_floor t <> S754_nan /\
  (forall s, Math_floor t <> S754_infinity s).
Proof.
  intros Hk Ht f.
  destruct (clamped_cases k t Ht) as [->|(m & e & -> & Hpos & Hle)].
  - subst f. change (Qfloor (value (S754_zero false))) with 0.
    repeat split; try lia; try reflexivity; discriminate.
  - assert (Hf : 0 <= f <= k).
    { subst f. split.
      - rewrite <- (Qfloor_Z 0). apply Qfloor_resp_le.
        change (inject_Z 0) with 0%Q. lra.
      - rewrite <- (Qfloor_Z k). apply Qfloor_resp_le. exact Hle. }
    split; [exact Hf|]. unfold Math_floor. destruct (0 <=? e) eqn:He.
    + apply Z.leb_le in He. pose proof (finite_integer m e He) as Hi.
      assert (Ef : f = Zpos m * 2 ^ e).
      { subst f. rewrite (Qfloor_comp _ _ Hi). apply Qfloor_Z. }
      rewrite Ef. repeat split; try discriminate;
        [apply toIndex_integer|]; exact Hi.
    + cbv zeta. fold f. destruct (f =? 0) eqn:Hz.
      * apply Z.eqb_eq in Hz. rewrite Hz. simpl.
        repeat split; try reflexivity; discriminate.
      * apply Z.eqb_neq in Hz.
        destruct (ofZ_positive f ltac:(lia)) as (m' & e' & E & V).
        unfold ofZ in E. rewrite E.
        repeat split; try discriminate; [apply toIndex_integer|]; exact V.
Qed.

(** [Math.ceil] of a clamped number is the ceiling of its value. *)
Lemma ceil_clamped k t :
  0 <= k < 2 ^ 53 -> clamped k t ->
  let c := Qceiling (value t) in
  Qfloor (value t) <= c <= k /\ toIndex (Math_ceil t) = Some c.
Proof.
  intros Hk Ht c.
  assert (Hfc : Qfloor (value t) <= c).
  { subst c. pose proof (Qfloor_le (value t)). pose proof (Qle_ceiling (value t)).
    rewrite Zle_Qle. lra. }
  split; [|clear Hfc].
  { split; [exact Hfc|].
    destruct (clamped_cases k t Ht) as [->|(m & e & -> & Hpos & Hle)].
    - subst c. change (Qceiling (value (S754_zero false))) with 0. lia.
    - subst c. rewrite <- (Qceiling_Z k). apply Qceiling_resp_le. exact Hle. }
  destruct (clamped_cases k t Ht) as [->|(m & e & -> & Hpos & Hle)].
  - reflexivity.
  - assert (Hc : 0 < c <= k).
    { subst c. split.
      - pose proof (Qle_ceiling (value (S754_finite false m e))) as H.
        rewrite Zlt_Qlt. change (inject_Z 0) with 0%Q. lra.
      - rewrite <- (Qceiling_Z k). apply Qceiling_resp_le. exact Hle. }
    unfold Math_ceil. destruct (0 <=? e) eqn:He.
    + apply Z.leb_le in He. pose proof (finite_integer m e He) as Hi.
      assert (Ec : c = Zpos m * 2 ^ e).
      { subst c. rewrite (Qceiling_comp _ _ Hi). apply Qceiling_Z. }
      rewrite Ec. apply toIndex_integer. exact Hi.
    + cbv zeta. fold c. destruct (c =? 0) eqn:Hz.
      * apply Z.eqb_eq in Hz. lia.
      * destruct (ofZ_positive c ltac:(lia)) as (m' & e' & E & V).
        unfold ofZ in E. rewrite E. apply toIndex_integer. exact V.
Qed.

End Reads.

(** ** ColorScale *)

Section ColorScaleFacts.

Import Number ColorScale.

Lemma clamp_clamped k x :
  0 <= k < 2 ^ 53 -> x <> S754_nan ->
  clamped k (Math_min (ofZ k) (Math_max (ofZ 0) x)).
Proof.
  intros Hk Hx. destruct (clamp_shape k x Hk Hx) as [->|(m & e & -> & H)];
    [exact I | exact H].
Qed.

Lemma clamped_bounds k t :
  0 <= k < 2 ^ 53 -> clamped k t ->
  leb (ofZ 0) t = true /\ leb t (ofZ k) = true.
Proof.
  intros Hk Ht. rewrite ofZ_zero.
  destruct (clamped_cases k t Ht) as [->|(m & e & -> & Hpos & Hle)].
  - split; [reflexivity|]. destruct (Z.eq_dec k 0) as [->|Hne]; [reflexivity|].
    destruct (ofZ_positive k ltac:(lia)) as (m & e & -> & V).
    pose proof (value_finite_pos m e). unfold leb, compare.
    match goal with
    | |- context [(?a ?= ?b)%Q] =>
      destruct (Qcompare_spec a b) as [H0|H0|H0]; simpl in H0;
        try reflexivity; exfalso; lra
    end.
  - split.
    + unfold leb, compare.
      match goal with
      | |- context [(?a ?= ?b)%Q] =>
        destruct (Qcompare_spec a b) as [H0|H0|H0]; simpl in H0;
          try reflexivity; exfalso; simpl in Hpos; lra
      end.
    + assert (Hk0 : 0 < k).
      { rewrite Zlt_Qlt. change (inject_Z 0) with 0%Q. lra. }
      destruct (ofZ_positive k ltac:(lia)) as (m' & e' & -> & V).
      unfold leb, compare.
      match goal with
      | |- context [(?a ?= ?b)%Q] =>
        destruct (Qcompare_spec a b) as [H0|H0|H0]; simpl in H0;
          try reflexivity; exfalso; simpl in Hle; lra
      end.
Qed.

Lemma sub_finite_l s m e y :
  y <> S754_nan -> (forall s', y <> S754_infinity s') ->
  sub (S754_finite s m e) y
  = round false (value (S754_finite s m e) - value y).
Proof.
  destruct y; intros Hn Hi; try reflexivity;
    [exfalso; exact (Hi _ eq_refl) | congruence].
Qed.

(** The weight [t - tf] of a clamped parameter. *)
Lemma weight_clamped k t :
  0 <= k < 2 ^ 53 -> clamped k t ->
  sub t (Math_floor t)
  = round false (value t - inject_Z (Qfloor (value t))).
Proof.
  intros Hk Ht.
  destruct (floor_clamped k t Hk Ht) as (_ & _ & V & Hn & Hi).
  destruct (clamped_cases k t Ht) as [E|(m & e & E & _)].
  - rewrite E. reflexivity.
  - rewrite E in *. rewrite (sub_finite_l _ _ _ _ Hn Hi).
    apply round_comp. rewrite V. reflexivity.
Qed.

Lemma setDomain_diff_truthy lo hi scale :
  falsy (diff (setDomain lo hi scale)) = false.
Proof.
  unfold setDomain. simpl.
  destruct (falsy (sub hi lo)) eqn:E; [reflexivity | exact E].
Qed.

Lemma sub_equal lo hi : eqb lo hi = true -> falsy (sub hi lo) = true.
Proof.
  intros H. pose proof (sub_finite_round hi lo) as R.
  destruct lo as [sl|[|]| |sl ml el], hi as [sh|[|]| |sh mh eh];
    try discriminate H; try reflexivity;
    destruct R as [sz ->]; rewrite round_zero; try reflexivity;
    revert H; unfold eqb, compare;
    match goal with
    | |- context [(?a ?= ?b)%Q] =>
      destruct (Qcompare_spec a b) as [H0|H0|H0]; intros; try discriminate; lra
    end.
Qed.

Lemma setDomain_diff_degenerate lo hi scale :
  eqb lo hi = true -> diff (setDomain lo hi scale) = ofZ 1.
Proof.
  intros H. unfold setDomain. simpl. rewrite (sub_equal lo hi H). reflexivity.
Qed.

Lemma ofZ_one : ofZ 1 = S754_finite false 4503599627370496 (-52).
Proof. vm_compute. reflexivity. Qed.

Lemma setDomain_diff_positive lo hi scale :
  leb lo hi = true -> isPos (diff (setDomain lo hi scale)).
Proof.
  intros H. unfold setDomain. simpl.
  destruct (sub_nonneg hi lo H) as [N|N].
  - destruct (sub hi lo) as [[|]|[|]| |[|] ? ?]; try contradiction;
      try exact I; rewrite ofZ_one; exact I.
  - rewrite N. rewrite ofZ_one. exact I.
Qed.

Lemma setDomain_diff_proper lo hi scale :
  isDouble lo -> isDouble hi -> ltb lo hi = true ->
  diff (setDomain lo hi scale) = sub hi lo /\ isPos (sub hi lo).
Proof.
  intros Vl Vh H. pose proof (sub_pos lo hi Vl Vh H) as P.
  split; [|exact P]. unfold setDomain. simpl.
  destruct (sub hi lo) as [[|]|[|]| |[|] ? ?]; try contradiction; reflexivity.
Qed.

Lemma ltb_leb x y : ltb x y = true -> leb x y = true.
Proof. unfold ltb, leb. destruct (compare x y) as [[| |]|]; congruence. Qed.

Lemma div_nan_l f : div S754_nan f = S754_nan.
Proof. reflexivity. Qed.

Lemma mul_nan_l c : mul S754_nan c = S754_nan.
Proof. reflexivity. Qed.

(** Below a domain that is not reversed the scaled value is not positive. *)
Lemma scaled_below lo d v c :
  leb v lo = true -> isPos d -> isCount c ->
  mul (div (sub v lo) d) c = S754_nan \/ isNonPos (mul (div (sub v lo) d) c).
Proof.
  intros Hle Hd Hc.
  destruct (sub_nonpos v lo Hle) as [N|N]; [|rewrite N; left; reflexivity].
  destruct (div_nonpos _ d N Hd) as [N2|N2]; [|rewrite N2; left; reflexivity].
  destruct (mul_nonpos _ c N2 Hc) as [N3|N3]; [right | left]; assumption.
Qed.

(** At and above the upper end of a proper domain the scaled value is at
    least the count. *)
Lemma scaled_above lo hi v k :
  0 < k < 2 ^ 53 -> ltb lo hi = true -> isPos (sub hi lo) ->
  leb hi v = true ->
  mul (div (sub v lo) (sub hi lo)) (ofZ k) = S754_nan \/
  atLeast (inject_Z k) (mul (div (sub v lo) (sub hi lo)) (ofZ k)).
Proof.
  intros Hk Hlt Hp Hle.
  pose proof (sub_mono lo hi v Hlt Hle) as M.
  destruct (div_ge_one _ _ Hp M) as [N|G]; [rewrite N; left; reflexivity|].
  right. apply mul_ge; [exact Hk | exact G | reflexivity].
Qed.

Lemma scaled_above_single lo hi v :
  ltb lo hi = true -> isPos (sub hi lo) -> leb hi v = true ->
  mul (div (sub v lo) (sub hi lo)) (ofZ 0) = S754_nan \/
  mul (div (sub v lo) (sub hi lo)) (ofZ 0) = S754_zero false.
Proof.
  intros Hlt Hp Hle.
  pose proof (sub_mono lo hi v Hlt Hle) as M.
  destruct (div_ge_one _ _ Hp M) as [N|G]; [rewrite N; left; reflexivity|].
  apply mul_zero_count. exact G.
Qed.

Lemma is_nan_false x : is_nan x = false -> x <> S754_nan.
Proof. intros H ->. discriminate H. Qed.

Lemma Math_min_nan c : Math_min c S754_nan = S754_nan.
Proof. destruct c; reflexivity. Qed.

Lemma Math_max_nan c : Math_max c S754_nan = S754_nan.
Proof. destruct c; reflexivity. Qed.

Lemma palette_count (props : ColorScaleProps) lo hi :
  let scale := setDomain lo hi (create props) in
  colors scale = (if reverse props then rev (props_colors props)
                  else props_colors props) /\
  count1 scale = ofZ (Z.of_nat (List.length (colors scale)) - 1) /\
  (props_colors props <> [] ->
   1 <= Z.of_nat (List.length (colors scale))).
Proof.
  cbv zeta. repeat split. simpl. intros Hne.
  assert (L : List.length (if reverse props then rev (props_colors props)
                           else props_colors props)
              = List.length (props_colors props)).
  { destruct (reverse props); [apply length_rev | reflexivity]. }
  rewrite L. destruct (props_colors props); [congruence|]. simpl. lia.
Qed.

(** A clamped parameter reads two entries of the palette. *)
Lemma color_of_clamped interpolate scale value :
  let k := Z.of_nat (List.length (colors scale)) - 1 in
  let t := parameter scale value in
  0 <= k < 2 ^ 53 -> clamped k t ->
  exists c1 c2,
    toIndex (Math_floor t) = Some (Qfloor (Number.value t)) /\
    toIndex (Math_ceil t) = Some (Qceiling (Number.value t)) /\
    0 <= Qfloor (Number.value t) <= Qceiling (Number.value t) /\
    Qceiling (Number.value t) <= k /\
    colors scale !! Z.to_nat (Qfloor (Number.value t)) = Some c1 /\
    colors scale !! Z.to_nat (Qceiling (Number.value t)) = Some c2 /\
    color interpolate scale value
    = Some (interpolate c1 c2 (sub t (Math_floor t))).
Proof.
  intros k t Hk Ht.
  destruct (floor_clamped k t Hk Ht) as (Hf & If & _).
  destruct (ceil_clamped k t Hk Ht) as (Hc & Ic).
  destruct (lookup_lt_is_Some_2 (colors scale)
              (Z.to_nat (Qfloor (Number.value t)))) as [c1 H1]; [lia|].
  destruct (lookup_lt_is_Some_2 (colors scale)
              (Z.to_nat (Qceiling (Number.value t)))) as [c2 H2]; [lia|].
  exists c1, c2. repeat split; try assumption; try lia.
  unfold color. cbv zeta. fold t. unfold index. rewrite If, Ic, H1, H2.
  reflexivity.
Qed.

End ColorScaleFacts.

Section ColorScaleEnds.

Import Number ColorScale.

Variable interpolate : Color -> Color -> number -> Color.

(** A parameter that is [+0] reads the first entry twice. *)
Lemma color_at_zero scale value c :
  parameter scale value = S754_zero false ->
  colors scale !! 0%nat = Some c ->
  color interpolate scale value = Some (interpolate c c (S754_zero false)).
Proof.
  intros Ht Hc. unfold color. cbv zeta. rewrite Ht.
  unfold index. cbn [Math_floor Math_ceil toIndex].
  change (Z.to_nat 0) with 0%nat. rewrite Hc. reflexivity.
Qed.

(** A parameter that is the count reads the last entry twice. *)
Lemma color_at_count scale value m e c :
  let k := Z.of_nat (List.length (colors scale)) - 1 in
  0 < k < 2 ^ 53 ->
  parameter scale value = S754_finite false m e ->
  (Number.value (S754_finite false m e) == inject_Z k)%Q ->
  colors scale !! Z.to_nat k = Some c ->
  color interpolate scale value = Some (interpolate c c (S754_zero false)).
Proof.
  intros k Hk Ht V Hc.
  assert (Hcl : clamped k (parameter scale value)).
  { rewrite Ht. unfold clamped. rewrite V. apply Qle_refl. }
  destruct (color_of_clamped interpolate scale value ltac:(fold k; lia) Hcl)
    as (c1 & c2 & _ & _ & _ & _ & H1 & H2 & Hcol).
  pose proof (weight_clamped k _ ltac:(lia) Hcl) as W.
  rewrite Ht in H1, H2, W. rewrite Hcol, Ht.
  rewrite (Qfloor_comp _ _ V), Qfloor_Z in H1, W.
  rewrite (Qceiling_comp _ _ V), Qceiling_Z in H2.
  rewrite W. rewrite round_zero by (rewrite V; ring).
  congruence.
Qed.

End ColorScaleEnds.

(** C10, amended.  Numbers are doubles.  After [setDomain(min, max)] (as
    [create] does with [props.domain]) the divisor [diff] is never falsy
    (neither zero nor [NaN]), and it is 1 when [min === max].  [color] is
    total exactly where the scaled value [((value - min) / diff) * count1]
    is not [NaN]: where it is [NaN], and for an empty palette, the reads
    miss the palette; where it is not, and the palette is not empty (an
    array has fewer than [2^32] entries), the parameter is clamped to
    [0, colors.length - 1], both reads hit the palette, [color] returns the
    first colour of the (possibly reversed) palette for [value <= min] when
    [min <= max], and the last colour for [value >= max] when [min < max]
    ([min] and [max] being doubles). *)
Theorem color_is_total_and_clamped
    (interpolate : ColorScale.Color -> ColorScale.Color -> Number.number ->
                   ColorScale.Color)
    (props : ColorScale.ColorScaleProps) (lo hi value : Number.number) :
  let scale := ColorScale.setDomain lo hi (ColorScale.create props) in
  let palette := ColorScale.colors scale in
  let n := Z.of_nat (List.length palette) in
  let t := ColorScale.parameter scale value in
  palette = (if ColorScale.reverse props
             then rev (ColorScale.props_colors props)
             else ColorScale.props_colors props) /\
  Number.falsy (ColorScale.diff scale) = false /\
  (Number.eqb lo hi = true -> ColorScale.diff scale = Number.ofZ 1) /\
  (Number.is_nan (ColorScale.scaled scale value) = true ->
   ColorScale.color interpolate scale value = None) /\
  (ColorScale.props_colors props = [] ->
   ColorScale.color interpolate scale value = None) /\
  (ColorScale.props_colors props <> [] -> n < 2 ^ 32 ->
   Number.is_nan (ColorScale.scaled scale value) = false ->
   (Number.leb (Number.ofZ 0) t = true /\
    Number.leb t (Number.ofZ (n - 1)) = true) /\
   (exists i j c1 c2,
      Number.toIndex (Number.Math_floor t) = Some i /\
      Number.toIndex (Number.Math_ceil t) = Some j /\
      0 <= i <= j /\ j <= n - 1 /\
      palette !! Z.to_nat i = Some c1 /\
      palette !! Z.to_nat j = Some c2 /\
      ColorScale.color interpolate scale value
      = Some (interpolate c1 c2 (Number.sub t (Number.Math_floor t)))) /\
   (Number.leb lo hi = true -> Number.leb value lo = true ->
    exists c, palette !! 0%nat = Some c /\
      ColorScale.color interpolate scale value
      = Some (interpolate c c (S754_zero false))) /\
   (isDouble lo -> isDouble hi ->
    Number.ltb lo hi = true -> Number.leb hi value = true ->
    exists c, palette !! Z.to_nat (n - 1) = Some c /\
      ColorScale.color interpolate scale value
      = Some (interpolate c c (S754_zero false)))).
Proof.
  intros scale palette n t.
  destruct (palette_count props lo hi) as (Hpal & Hcount & Hlen).
  fold scale in Hpal, Hcount, Hlen. fold palette in Hpal, Hcount, Hlen.
  fold n in Hcount, Hlen.
  split; [exact Hpal|].
  split; [apply setDomain_diff_truthy|].
  split; [apply setDomain_diff_degenerate|].
  split.
  { intros Hnan. unfold ColorScale.color, ColorScale.parameter. cbv zeta.
    destruct (ColorScale.scaled scale value); try discriminate Hnan.
    rewrite Math_max_nan, Math_min_nan. reflexivity. }
  split.
  { intros Hemp. unfold ColorScale.color, Number.index. cbv zeta.
    fold palette. rewrite Hpal, Hemp.
    destruct (ColorScale.reverse props); simpl;
      destruct (Number.toIndex _); reflexivity. }
  intros Hne Hn Hnan. specialize (Hlen Hne).
  assert (Hk : 0 <= n - 1 < 2 ^ 53) by lia.
  apply is_nan_false in Hnan.
  assert (Hscaled : ColorScale.scaled scale value
    = Number.mul (Number.div (Number.sub value lo) (ColorScale.diff scale))
        (Number.ofZ (n - 1))).
  { unfold ColorScale.scaled. rewrite Hcount. reflexivity. }
  assert (Hcl : clamped (n - 1) t).
  { apply clamp_clamped; assumption. }
  assert (Hfirst : exists c, palette !! 0%nat = Some c).
  { apply lookup_lt_is_Some_2. lia. }
  split; [apply clamped_bounds; assumption|].
  split.
  { destruct (color_of_clamped interpolate scale value Hk Hcl)
      as (c1 & c2 & H1 & H2 & H3 & H4 & H5 & H6 & H7).
    eexists _, _, c1, c2.
    exact (conj H1 (conj H2 (conj H3 (conj H4 (conj H5 (conj H6 H7)))))). }
  split.
  - intros Hdom Hv. destruct Hfirst as [c Hc]. exists c. split; [exact Hc|].
    apply color_at_zero; [|exact Hc].
    unfold ColorScale.parameter. fold palette. fold n.
    apply clamp_nonpos; [apply ofZ_count; exact Hk|].
    rewrite Hscaled in Hnan |- *.
    destruct (scaled_below lo (ColorScale.diff scale) value
                (Number.ofZ (n - 1)) Hv
                (setDomain_diff_positive lo hi _ Hdom)
                (ofZ_count _ Hk)) as [N|N]; [contradiction | exact N].
  - intros Vlo Vhi Hdom Hv.
    destruct (setDomain_diff_proper lo hi (ColorScale.create props)
                Vlo Vhi Hdom) as [Hdiff Hpos].
    fold scale in Hdiff. rewrite Hdiff in Hscaled.
    destruct (Z.eq_dec (n - 1) 0) as [Hz|Hnz].
    + destruct Hfirst as [c Hc]. exists c. rewrite Hz.
      split; [exact Hc|]. apply color_at_zero; [|exact Hc].
      unfold ColorScale.parameter. fold palette. fold n.
      rewrite Hscaled in Hnan |- *. rewrite Hz in Hnan |- *.
      destruct (scaled_above_single lo hi value Hdom Hpos Hv) as [N|N];
        [contradiction | rewrite N; reflexivity].
    + assert (Hk' : 0 < n - 1 < 2 ^ 53) by lia.
      destruct (lookup_lt_is_Some_2 palette (Z.to_nat (n - 1))) as [c Hc];
        [lia|].
      exists c. split; [exact Hc|].
      rewrite Hscaled in Hnan.
      destruct (scaled_above lo hi value (n - 1) Hk' Hdom Hpos Hv) as [N|G];
        [contradiction|].
      destruct (clamp_top (n - 1) _ Hk' G) as (m & e & Ht & V).
      apply (color_at_count interpolate scale value m e c Hk'); [|exact V|exact Hc].
      unfold ColorScale.parameter. fold palette. fold n. rewrite Hscaled.
      exact Ht.
Qed.

(** The theorem at a reversed two-colour palette over the domain [0, 10],
    for the value 12. *)
Lemma color_is_total_witness :
  let props := ColorScale.mkColorScaleProps (Number.ofZ 0, Number.ofZ 10) true
                 [255; 16711680] in
  let scale :=
    ColorScale.setDomain (Number.ofZ 0) (Number.ofZ 10)
      (ColorScale.create props) in
  (ColorScale.props_colors props <> [] /\
   Z.of_nat (List.length (ColorScale.colors scale)) < 2 ^ 32 /\
   Number.is_nan (ColorScale.scaled scale (Number.ofZ 12)) = false /\
   isDouble (Number.ofZ 0) /\ isDouble (Number.ofZ 10) /\
   Number.ltb (Number.ofZ 0) (Number.ofZ 10) = true /\
   Number.leb (Number.ofZ 10) (Number.ofZ 12) = true) /\
  exists c, ColorScale.colors scale !! 1%nat = Some c /\ c = 255 /\
    ColorScale.color (fun c1 _ _ => c1) scale (Number.ofZ 12) = Some c.
Proof.
  cbv zeta.
  assert (H1 : ColorScale.props_colors
    (ColorScale.mkColorScaleProps (Number.ofZ 0, Number.ofZ 10) true
       [255; 16711680]) <> []) by discriminate.
  assert (H2 : Z.of_nat (List.length (ColorScale.colors
    (ColorScale.setDomain (Number.ofZ 0) (Number.ofZ 10)
       (ColorScale.create (ColorScale.mkColorScaleProps
          (Number.ofZ 0, Number.ofZ 10) true [255; 16711680]))))) < 2 ^ 32)
    by reflexivity.
  assert (H3 : Number.is_nan (ColorScale.scaled
    (ColorScale.setDomain (Number.ofZ 0) (Number.ofZ 10)
       (ColorScale.create (ColorScale.mkColorScaleProps
          (Number.ofZ 0, Number.ofZ 10) true [255; 16711680])))
    (Number.ofZ 12)) = false) by (vm_compute; reflexivity).
  assert (H4 : isDouble (Number.ofZ 0)) by (vm_compute; reflexivity).
  assert (H5 : isDouble (Number.ofZ 10)) by (vm_compute; reflexivity).
  assert (H6 : Number.ltb (Number.ofZ 0) (Number.ofZ 10) = true)
    by (vm_compute; reflexivity).
  assert (H7 : Number.leb (Number.ofZ 10) (Number.ofZ 12) = true)
    by (vm_compute; reflexivity).
  split; [repeat split; assumption|].
  destruct (color_is_total_and_clamped (fun c1 _ _ => c1)
    (ColorScale.mkColorScaleProps (Number.ofZ 0, Number.ofZ 10) true
       [255; 16711680]) (Number.ofZ 0) (Number.ofZ 10) (Number.ofZ 12))
    as (_ & _ & _ & _ & _ & H).
  destruct (H H1 H2 H3) as (_ & _ & _ & Hlast).
  destruct (Hlast H4 H5 H6 H7) as (c & Hc & Hcol).
  exists c. split; [exact Hc|]. split; [|exact Hcol].
  vm_compute in Hc. congruence.
Defined.

(** C10 as stated fails in five ways.  On a degenerate domain, after
    [setDomain(0, 0)], the value 0 is [>= max], and [color(0)] reads the
    first colour twice, not the last one.  Over the domain [-1e308, 1e308]
    the difference [max - min] overflows to [Infinity]; for the value
    [1e308] the scaled value is [Infinity / Infinity], the parameter is
    [NaN], and both reads miss the palette.  With a single colour over the
    domain [1e308, 1e308], the value [-1e308] is below [min]; [value - min]
    overflows to [-Infinity], the scaled value [-Infinity * 0] is [NaN], and
    the reads miss the palette again.  With an empty palette the parameter
    is [-1] and there is nothing to read.  Over a domain given as [10, 0]
    the value 5 is below [min] and above [max], and [color(5)] blends the
    two colours, returning neither the first nor the last. *)
Lemma color_is_not_total_nor_last_at_max :
  let palette := [16711680; 255] in
  let big := Number.literal (inject_Z (10 ^ 308)) in
  let small := Number.literal (inject_Z (- 10 ^ 308)) in
  (* a degenerate domain: the colour at max is the first, not the last *)
  (let scale := ColorScale.create
       (ColorScale.mkColorScaleProps (Number.ofZ 0, Number.ofZ 0) false
          palette) in
   Number.eqb (ColorScale.min scale) (ColorScale.max scale) = true /\
   Number.leb (ColorScale.max scale) (Number.ofZ 0) = true /\
   ColorScale.colors scale !! 1%nat = Some 255 /\
   (forall interpolate,
      ColorScale.color interpolate scale (Number.ofZ 0)
      = Some (interpolate 16711680 16711680 (S754_zero false))) /\
   ~ (forall interpolate, exists w,
        ColorScale.color interpolate scale (Number.ofZ 0)
        = Some (interpolate 255 255 w))) /\
  (* a domain whose width overflows: both reads miss the palette *)
  (let scale := ColorScale.create
       (ColorScale.mkColorScaleProps (small, big) false palette) in
   isDouble small /\ isDouble big /\
   Number.ltb small big = true /\ Number.leb big big = true /\
   ColorScale.diff scale = S754_infinity false /\
   ColorScale.parameter scale big = S754_nan /\
   forall interpolate, ColorScale.color interpolate scale big = None) /\
  (* one colour and a value far below min: the reads miss the palette *)
  (let scale := ColorScale.create
       (ColorScale.mkColorScaleProps (big, big) false [255]) in
   Number.leb (ColorScale.min scale) (ColorScale.max scale) = true /\
   Number.leb small (ColorScale.min scale) = true /\
   Number.sub small (ColorScale.min scale) = S754_infinity true /\
   ColorScale.scaled scale small = S754_nan /\
   forall interpolate, ColorScale.color interpolate scale small = None) /\
  (* an empty palette: no entry to read *)
  (let scale := ColorScale.create
       (ColorScale.mkColorScaleProps (Number.ofZ 0, Number.ofZ 10) false
          []) in
   ColorScale.parameter scale (Number.ofZ 5) = Number.ofZ (-1) /\
   forall interpolate,
     ColorScale.color interpolate scale (Number.ofZ 5) = None) /\
  (* a domain given as max < min: a value between the two is below min and
     above max, and gets neither the first nor the last colour *)
  (let scale := ColorScale.create
       (ColorScale.mkColorScaleProps (Number.ofZ 10, Number.ofZ 0) false
          palette) in
   Number.leb (Number.ofZ 5) (ColorScale.min scale) = true /\
   Number.leb (ColorScale.max scale) (Number.ofZ 5) = true /\
   (forall interpolate,
      ColorScale.color interpolate scale (Number.ofZ 5)
      = Some (interpolate 16711680 255 (Number.literal (1 # 2)))) /\
   ~ (forall interpolate, exists w,
        ColorScale.color interpolate scale (Number.ofZ 5)
        = Some (interpolate 16711680 16711680 w)) /\
   ~ (forall interpolate, exists w,
        ColorScale.color interpolate scale (Number.ofZ 5)
        = Some (interpolate 255 255 w))).
Proof.
  cbv zeta. repeat split; try (vm_compute; reflexivity);
    try (intros interpolate; vm_compute; reflexivity).
  - intros H. destruct (H (fun c1 _ _ => c1)) as [w Hw].
    vm_compute in Hw. discriminate Hw.
  - intros H. destruct (H (fun _ c2 _ => c2)) as [w Hw].
    vm_compute in Hw. discriminate Hw.
  - intros H. destruct (H (fun c1 _ _ => c1)) as [w Hw].
    vm_compute in Hw. discriminate Hw.
Qed.

(** ** Task tree: paths and the order of cleanup *)

Section LeavesFirst.

Import Task.


Lemma apart_nil_r early : apart early [].
Proof. intros a d _ []. Qed.







End LeavesFirst.

Section CleanupOrder.

Import Task.





End CleanupOrder.

Section ExecutionFacts.

Import Task.











End ExecutionFacts.

Section RunFacts.

Import Task.

(** Virtual time does not run backwards. *)
Lemma exec_time (host : Host) (c : Computation) :
  forall path now kids, now <= fst (fst (exec host c path now kids)).
Proof.
  induction c as [v|e|ms next IH|m next IH|m next IH|m next IH
                  |nm body IHbody cb next IH|i next IH];
    intros path now kids; cbn [exec]; simpl; try lia.
  - specialize (IH path (now + Z.max 0 ms) kids). lia.
  - destruct (abortRequested host now); [simpl; lia | apply IH].
  - apply IH.
  - destruct (shouldUpdate host now); [|apply IH].
    destruct (abortRequested host now); [simpl; lia | apply IH].
  - apply IH.
  - destruct (kids !! i) as [child|]; [|simpl; lia].
    destruct (ex_outcome child); [|simpl; lia].
    specialize (IH value path (Z.max now (ex_finished child)) kids). lia.
Qed.

(** What [Run] returns, in terms of the computation of the root. *)
Lemma Run_unfold (host : Host) (task : Task) :
  let '(finished, outcome, kids) := exec host (run task) [] 0 [] in
  Run host task =
  mkSettled outcome finished
    (concat (map (onAbortCalls finished) kids)
     ++ match outcome with
        | Rejected (Aborted _) =>
          map (fun p => (finished, p)) (concat (map (pendingAt finished) kids))
          ++ match onAbort task with
             | Some _ => [(finished, [])]
             | None => []
             end
        | _ => []
        end).
Proof.
  unfold Run, execute.
  pose proof (exec_time host (run task) [] 0 []) as Htime.
  destruct (exec host (run task) [] 0 []) as [[fin out] kids].
  simpl in Htime. cbn [ex_outcome ex_finished onAbortCalls].
  replace (fin <? 0) with false by (symmetry; apply Z.ltb_ge; lia).
  rewrite Z.leb_refl. reflexivity.
Qed.

(** On a host without abort requests neither the flag nor the throttle
    matters. *)
Lemma exec_quiet (host : Host) :
  (forall t, abortRequested host t = None) ->
  forall c path now kids,
    exec host c path now kids = exec quietHost c path now kids.
Proof.
  intros Hquiet.
  induction c as [v|e|ms next IH|m next IH|m next IH|m next IH
                  |nm body IHbody cb next IH|i next IH];
    intros path now kids; cbn [exec]; try reflexivity.
  - apply IH.
  - rewrite Hquiet. simpl. apply IH.
  - apply IH.
  - rewrite Hquiet. simpl. destruct (shouldUpdate host now); apply IH.
  - rewrite Hquiet. simpl. rewrite IHbody. apply IH.
  - destruct (kids !! i) as [child|]; [|reflexivity].
    destruct (ex_outcome child); [apply IH | reflexivity].
Qed.

(** A computation without a checkpoint runs the same on every host. *)
Lemma exec_checkpointFree (host host' : Host) :
  forall c, checkpointFree c ->
  forall path now kids,
    exec host c path now kids = exec host' c path now kids.
Proof.
  induction c as [v|e|ms next IH|m next IH|m next IH|m next IH
                  |nm body IHbody cb next IH|i next IH];
    intros Hfree path now kids; cbn [exec]; simpl in Hfree;
    try reflexivity; try contradiction.
  - apply IH, Hfree.
  - destruct (kids !! i) as [child|]; [|reflexivity].
    destruct (ex_outcome child); [apply IH, Hfree | reflexivity].
Qed.

End RunFacts.

(** C4. [Run(task)] resolves with the value the computation of the task
    resolves with; [Run] of the task of [test1] resolves with 1; and
    [Run(testTree())], whose children resolve to 1, 2 and 3 and whose parent
    returns their sum plus 1, resolves with 7 when no abort is requested, at
    whatever moments the throttle lets it update. *)
Theorem run_resolves_with_the_value_of_the_computation :
  (forall host task v,
     Task.ex_outcome (Task.execute host task [] 0) = Resolved v ->
     Task.result (Task.Run host task) = Resolved v) /\
  (forall host, Task.result (Task.Run host Tests.test1) = Resolved 1) /\
  (forall host,
     (forall t, Task.abortRequested host t = None) ->
     Task.Run host Tests.testTree = Task.mkSettled (Resolved 7) 1375 []).
Proof.
  split; [|split].
  - intros host task v H. exact H.
  - intros host. reflexivity.
  - intros host Hquiet. unfold Task.Run, Task.execute.
    rewrite (exec_quiet host Hquiet). reflexivity.
Qed.

(** The theorem on a host that never aborts and always lets updates
    through. *)
Lemma run_resolves_witness :
  let host := Task.mkHost (fun _ => None) (fun _ => true) in
  (forall t, Task.abortRequested host t = None) /\
  Task.ex_outcome (Task.execute host Tests.testTree [] 0) = Resolved 7 /\
  Task.result (Task.Run host Tests.testTree) = Resolved 7 /\
  Task.Run host Tests.testTree = Task.mkSettled (Resolved 7) 1375 [].
Proof.
  cbv zeta.
  destruct run_resolves_with_the_value_of_the_computation as (Hval & _ & Htree).
  assert (Hquiet : forall t,
    Task.abortRequested (Task.mkHost (fun _ => None) (fun _ => true)) t = None)
    by reflexivity.
  assert (Hout : Task.ex_outcome
    (Task.execute (Task.mkHost (fun _ => None) (fun _ => true))
       Tests.testTree [] 0) = Resolved 7) by reflexivity.
  split; [exact Hquiet|]. split; [exact Hout|].
  split; [exact (Hval _ _ _ Hout) | exact (Htree _ Hquiet)].
Defined.

(** C3. No cancellation without a checkpoint: a task whose computation never
    calls [ctx.update] or [ctx.runChild] (and so runs no chunked subtask)
    settles on every host as it does when nobody requests an abort; in
    particular it resolves with the value of its computation. *)
Theorem no_cancellation_without_checkpoint
    (host : Task.Host) (task : Task.Task) :
  checkpointFree (Task.run task) ->
  Task.Run host task = Task.Run quietHost task /\
  (forall v, Task.result (Task.Run quietHost task) = Resolved v ->
             Task.result (Task.Run host task) = Resolved v).
Proof.
  intros Hfree.
  assert (Heq : Task.Run host task = Task.Run quietHost task).
  { unfold Task.Run, Task.execute.
    rewrite (exec_checkpointFree host quietHost _ Hfree). reflexivity. }
  split; [exact Heq|]. intros v Hv. rewrite Heq. exact Hv.
Qed.

(** The theorem for a task that waits and returns 42, on a host whose abort
    flag is set from the start. *)
Lemma no_cancellation_witness :
  let host := Task.mkHost (fun _ => Some "stop"%string) (fun _ => true) in
  let task := Task.create "busy" (Task.Delay 100 (Task.Return 42))
                (Some "cleanup"%string) in
  checkpointFree (Task.run task) /\
  Task.Run host task = Task.mkSettled (Resolved 42) 100 [].
Proof.
  cbv zeta.
  assert (Hfree : checkpointFree (Task.run
    (Task.create "busy" (Task.Delay 100 (Task.Return 42))
       (Some "cleanup"%string)))) by exact I.
  split; [exact Hfree|].
  exact (proj1 (no_cancellation_without_checkpoint
    (Task.mkHost (fun _ => Some "stop"%string) (fun _ => true)) _ Hfree)).
Defined.



(** [abortAfter] aborts itself on every host, whatever the delay. *)
Lemma abortAfter_rejects (host : Task.Host) (delay : Z) :
  Task.Run host (Tests.abortAfter delay)
  = Task.mkSettled (Rejected (Aborted "test")) (0 + Z.max 0 delay) [].
Proof. exact (Run_unfold host (Tests.abortAfter delay)). Qed.




(* ================================================================== *)
(** * Further properties of the code *)
(* ================================================================== *)

(** ** Text slices *)

Section SliceFacts.

Lemma slice_nil text a : slice text a a = [].
Proof. unfold slice. replace (Z.to_nat (a - a)) with 0%nat by lia. reflexivity. Qed.

Lemma slice_app text a b c :
  0 <= a <= b -> b <= c ->
  slice text a b ++ slice text b c = slice text a c.
Proof.
  intros Hab Hbc. unfold slice.
  replace (Z.to_nat b) with (Z.to_nat a + Z.to_nat (b - a))%nat by lia.
  rewrite <- drop_drop, take_take_drop. f_equal. lia.
Qed.

Lemma charCodeAt_lookup text i c :
  JS.charCodeAt text i = Some c <-> 0 <= i /\ text !! Z.to_nat i = Some c.
Proof.
  unfold JS.charCodeAt. destruct (0 <=? i) eqn:Hi.
  - apply Z.leb_le in Hi. tauto.
  - apply Z.leb_gt in Hi. split; [discriminate | lia].
Qed.

Lemma slice_one text i c :
  JS.charCodeAt text i = Some c -> slice text i (i + 1) = [c].
Proof.
  intros H. apply charCodeAt_lookup in H as [Hi H]. unfold slice.
  replace (Z.to_nat (i + 1 - i)) with 1%nat by lia.
  apply list_eq. intros [|k].
  - rewrite lookup_take_lt by lia. rewrite lookup_drop.
    rewrite Nat.add_0_r. exact H.
  - rewrite lookup_take_ge by lia. reflexivity.
Qed.

Lemma slice_lookup text a b (k : nat) c :
  0 <= a ->
  slice text a b !! k = Some c ->
  a <= a + Z.of_nat k < b /\ JS.charCodeAt text (a + Z.of_nat k) = Some c.
Proof.
  intros Ha H. unfold slice in H.
  apply lookup_take_Some in H as [H Hk]. rewrite lookup_drop in H.
  split; [lia|]. apply charCodeAt_lookup. split; [lia|].
  replace (Z.to_nat (a + Z.of_nat k)) with (Z.to_nat a + k)%nat by lia.
  exact H.
Qed.

Lemma slice_Forall (P : Z -> Prop) text a b :
  0 <= a ->
  (forall i c, a <= i < b -> JS.charCodeAt text i = Some c -> P c) ->
  Forall P (slice text a b).
Proof.
  intros Ha H. apply Forall_lookup. intros k c Hk.
  apply slice_lookup in Hk as [Hrange Hc]; [|exact Ha]. eapply H; eauto.
Qed.

Lemma slice_length text a b :
  0 <= a <= b -> b <= Z.of_nat (List.length text) ->
  Z.of_nat (List.length (slice text a b)) = b - a.
Proof.
  intros Hab Hb. unfold slice. rewrite length_take, length_drop. lia.
Qed.

Lemma substring_slice text a b :
  0 <= a <= b -> b <= Z.of_nat (List.length text) ->
  JS.substring text a b = slice text a b.
Proof.
  intros Hab Hb. unfold JS.substring, slice. cbv zeta.
  repeat f_equal; lia.
Qed.

Lemma isCode_false c k : JS.isCode (Some c) k = false -> c <> k.
Proof. simpl. intros H. apply Z.eqb_neq. exact H. Qed.

End SliceFacts.

(** ** Tokenizer: what the scanning loops consume *)

Section TokenizerScans.

Local Ltac fields := unfold set_position, set_lineNumber, set_tokenStart,
  set_tokenEnd in *; simpl in *.

Lemma eatLine_loop_scan fuel : forall st,
  tokenizer_wf st ->
  length st - position st <= Z.of_nat fuel ->
  let st' := Tokenizer.eatLine_loop fuel st in
  position st <= tokenEnd st' <= position st' /\
  (forall i c, position st <= i < tokenEnd st' ->
     JS.charCodeAt (data st) i = Some c -> ~ isLineBreak c) /\
  lineEnd st st'.
Proof.
  induction fuel as [|f IH]; intros st [Hlen Hpos] Hfuel; cbv zeta; simpl;
    unfold lineEnd.
  - replace (position st <? length st) with false
      by (symmetry; apply Z.ltb_ge; lia).
    fields. split; [lia|]. split; [intros; lia|]. left. lia.
  - destruct (position st <? length st) eqn:Hlt.
    2:{ apply Z.ltb_ge in Hlt. fields. split; [lia|].
        split; [intros; lia|]. left. lia. }
    apply Z.ltb_lt in Hlt.
    destruct (JS.isCode (JS.charCodeAt (data st) (position st)) 10) eqn:H10.
    { apply isCode_true in H10. fields. split; [lia|].
      split; [intros; lia|]. right. split; [reflexivity|]. left. auto. }
    destruct (JS.isCode (JS.charCodeAt (data st) (position st)) 13) eqn:H13.
    { apply isCode_true in H13.
      destruct (JS.isCode (JS.charCodeAt (data st) (position st + 1)) 10)
        eqn:Hnext; fields.
      - apply isCode_true in Hnext. split; [lia|]. split; [intros; lia|].
        right. split; [reflexivity|]. right. left.
        split; [exact H13|]. split; [exact Hnext | lia].
      - split; [lia|]. split; [intros; lia|].
        right. split; [reflexivity|]. right. right.
        split; [exact H13|]. split; [|reflexivity].
        intros Heq. rewrite Heq in Hnext. simpl in Hnext. discriminate. }
    destruct (IH (set_position (position st + 1) st)) as (Hb & Hnone & Hend).
    { unfold tokenizer_wf; fields; split; [auto | lia]. }
    { fields. lia. }
    fields. split; [lia|]. split.
    + intros i c Hi Hc.
      destruct (Z.eq_dec i (position st)) as [->|Hne].
      * rewrite Hc in H10, H13.
        apply isCode_false in H10, H13. unfold isLineBreak. lia.
      * apply (Hnone i c); [lia | exact Hc].
    + exact Hend.
Qed.

Lemma eatValue_loop_scan fuel : forall st,
  tokenizer_wf st ->
  length st - position st <= Z.of_nat fuel ->
  let st' := Tokenizer.eatValue_loop fuel st in
  position st <= position st' <= length st /\
  tokenEnd st' = position st' /\
  lineNumber st' = lineNumber st /\ tokenStart st' = tokenStart st /\
  (forall i c, position st <= i < position st' ->
     JS.charCodeAt (data st) i = Some c -> ~ isWhitespace c) /\
  (position st' = length st \/
   exists c, JS.charCodeAt (data st) (position st') = Some c /\ isWhitespace c).
Proof.
  induction fuel as [|f IH]; intros st [Hlen Hpos] Hfuel; cbv zeta; simpl.
  - replace (position st <? length st) with false
      by (symmetry; apply Z.ltb_ge; lia).
    fields. repeat split; try lia; left; lia.
  - destruct (position st <? length st) eqn:Hlt.
    2:{ apply Z.ltb_ge in Hlt. fields. repeat split; try lia; left; lia. }
    apply Z.ltb_lt in Hlt.
    destruct (JS.charCodeAt (data st) (position st)) as [c0|] eqn:Hc0.
    2:{ exfalso. unfold JS.charCodeAt in Hc0.
        rewrite (proj2 (Z.leb_le 0 (position st))) in Hc0 by lia.
        apply lookup_ge_None in Hc0. lia. }
    destruct (JS.isCode (Some c0) 9 || JS.isCode (Some c0) 10
              || JS.isCode (Some c0) 13 || JS.isCode (Some c0) 32) eqn:Hws.
    { fields. repeat split; try lia. right. exists c0.
      split; [exact Hc0|]. unfold isWhitespace.
      repeat (apply orb_true_iff in Hws as [Hws|Hws]);
        apply Z.eqb_eq in Hws; lia. }
    destruct (IH (set_position (position st + 1) st))
      as (Hb & He & Hl & Hs & Hnone & Hstop).
    { unfold tokenizer_wf; fields; split; [auto | lia]. }
    { fields. lia. }
    fields. repeat split; try lia; auto.
    intros i c Hi Hc.
    destruct (Z.eq_dec i (position st)) as [->|Hne].
    + rewrite Hc0 in Hc. injection Hc as <-.
      repeat (apply orb_false_iff in Hws as [Hws ?]).
      unfold isWhitespace.
      repeat match goal with H : (_ =? _) = false |- _ =>
        apply Z.eqb_neq in H end. lia.
    + apply (Hnone i c); [lia | exact Hc].
Qed.

Lemma slice_cons text a b c :
  0 <= a < b -> JS.charCodeAt text a = Some c ->
  slice text a b = c :: slice text (a + 1) b.
Proof.
  intros Hab Hc. rewrite <- (slice_app text a (a + 1) b) by lia.
  rewrite (slice_one text a c Hc). reflexivity.
Qed.

Lemma skipWhitespace_loop_scan fuel : forall prev st,
  tokenizer_wf st ->
  length st - position st <= Z.of_nat fuel ->
  let r := Tokenizer.skipWhitespace_loop fuel prev st in
  let st' := snd r in
  position st <= position st' <= length st /\
  tokenStart st' = tokenStart st /\ tokenEnd st' = tokenEnd st /\
  (forall i c, position st <= i < position st' ->
     JS.charCodeAt (data st) i = Some c -> isWhitespace c) /\
  (position st' = length st \/
   exists c, JS.charCodeAt (data st) (position st') = Some c /\
             ~ isWhitespace c) /\
  ((position st' = position st /\ fst r = prev) \/
   (position st < position st' /\
    JS.charCodeAt (data st) (position st' - 1) = Some (fst r))) /\
  lineNumber st' = lineNumber st
    + lineBreaksFrom prev (slice (data st) (position st) (position st')).
Proof.
  induction fuel as [|f IH]; intros prev st [Hlen Hpos] Hfuel; cbv zeta; simpl.
  - replace (position st <? length st) with false
      by (symmetry; apply Z.ltb_ge; lia).
    simpl. rewrite slice_nil. simpl.
    repeat split; try lia; left; lia.
  - destruct (position st <? length st) eqn:Hlt.
    2:{ apply Z.ltb_ge in Hlt. simpl. rewrite slice_nil. simpl.
        repeat split; try lia; left; lia. }
    apply Z.ltb_lt in Hlt.
    destruct (JS.charCodeAt (data st) (position st)) as [c0|] eqn:Hc0.
    2:{ exfalso. unfold JS.charCodeAt in Hc0.
        rewrite (proj2 (Z.leb_le 0 (position st))) in Hc0 by lia.
        apply lookup_ge_None in Hc0. lia. }
    assert (Hstep : forall (st1 : Tokenizer) (delta : Z),
      data st1 = data st -> length st1 = length st ->
      position st1 = position st + 1 ->
      tokenStart st1 = tokenStart st -> tokenEnd st1 = tokenEnd st ->
      lineNumber st1 = lineNumber st + delta ->
      isWhitespace c0 ->
      delta = (if (c0 =? 13) || ((c0 =? 10) && negb (prev =? 13))
               then 1 else 0) ->
      let r := Tokenizer.skipWhitespace_loop f c0 st1 in
      position st <= position (snd r) <= length st /\
      tokenStart (snd r) = tokenStart st /\ tokenEnd (snd r) = tokenEnd st /\
      (forall i c, position st <= i < position (snd r) ->
         JS.charCodeAt (data st) i = Some c -> isWhitespace c) /\
      (position (snd r) = length st \/
       exists c, JS.charCodeAt (data st) (position (snd r)) = Some c /\
                 ~ isWhitespace c) /\
      ((position (snd r) = position st /\ fst r = prev) \/
       (position st < position (snd r) /\
        JS.charCodeAt (data st) (position (snd r) - 1) = Some (fst r))) /\
      lineNumber (snd r) = lineNumber st
        + lineBreaksFrom prev
            (slice (data st) (position st) (position (snd r)))).
    { intros st1 delta Hd Hl Hp Hts Hte Hln Hws Hdelta. cbv zeta.
      destruct (IH c0 st1) as (Hb & Hs & He & Hall & Hstop & Hret & Hlines).
      { unfold tokenizer_wf. rewrite Hd, Hl, Hp. split; [auto | lia]. }
      { rewrite Hl, Hp. lia. }
      rewrite Hd, Hl, Hp, ?Hts, ?Hte, ?Hln in *.
      split; [lia|]. split; [exact Hs|]. split; [exact He|].
      split.
      { intros i c Hi Hc.
        destruct (Z.eq_dec i (position st)) as [->|Hne].
        - rewrite Hc0 in Hc. injection Hc as <-. exact Hws.
        - apply (Hall i c); [lia | exact Hc]. }
      split; [exact Hstop|].
      split.
      { right. split; [lia|].
        destruct Hret as [[Heq Hfst]|[Hlt' Hfst]]; [|exact Hfst].
        rewrite Heq, Hfst.
        replace (position st + 1 - 1) with (position st) by lia.
        exact Hc0. }
      rewrite Hlines.
      rewrite (slice_cons (data st) (position st) _ c0) by (auto; lia).
      simpl. rewrite <- Hdelta. lia. }
    destruct (JS.isCode (Some c0) 9) eqn:H9.
    { apply Z.eqb_eq in H9. subst c0.
      apply (Hstep _ 0); fields; auto; try lia. unfold isWhitespace. lia. }
    destruct (JS.isCode (Some c0) 32) eqn:H32.
    { apply Z.eqb_eq in H32. subst c0.
      apply (Hstep _ 0); fields; auto; try lia. unfold isWhitespace. lia. }
    destruct (JS.isCode (Some c0) 10) eqn:H10.
    { apply Z.eqb_eq in H10. subst c0.
      destruct (negb (prev =? 13)) eqn:Hprev.
      - apply (Hstep _ 1); fields; auto; try lia. unfold isWhitespace. lia.
      - apply (Hstep _ 0); fields; auto; try lia. unfold isWhitespace. lia. }
    destruct (JS.isCode (Some c0) 13) eqn:H13.
    { apply Z.eqb_eq in H13. subst c0.
      apply (Hstep _ 1); fields; auto; try lia. unfold isWhitespace. lia. }
    simpl. rewrite slice_nil. simpl.
    split; [lia|]. split; [reflexivity|]. split; [reflexivity|].
    split; [intros; lia|].
    split.
    { right. exists c0. split; [exact Hc0|].
      simpl in H9, H32, H10, H13.
      apply Z.eqb_neq in H9, H32, H10, H13. unfold isWhitespace. lia. }
    split; [left; auto | lia].
Qed.

End TokenizerScans.

(** X1. [readLine] returns the text from the current position up to the next
    line break, without the break, and moves the position just behind the
    break: the text consumed is the returned line followed by a line feed, a
    carriage return, both, or (only at the end of the input) nothing.  The
    line number goes up by one exactly when a break was consumed. *)
Theorem readLine_returns_the_line_without_its_break (st : Tokenizer) :
  tokenizer_wf st ->
  let line := fst (Tokenizer.readLine st) in
  let st' := snd (Tokenizer.readLine st) in
  tokenStart st' = position st /\
  line = slice (data st) (tokenStart st') (tokenEnd st') /\
  Forall (fun c => ~ isLineBreak c) line /\
  exists br,
    In br [[]; [10]; [13]; [13; 10]] /\
    slice (data st) (position st) (position st') = line ++ br /\
    (br = [] -> position st' = length st /\ lineNumber st' = lineNumber st) /\
    (br <> [] -> lineNumber st' = lineNumber st + 1).
Proof.
  intros Hwf. cbv zeta. unfold Tokenizer.readLine. simpl.
  pose proof (markLine_tokenStart st) as Hts.
  destruct (markLine_bounds st Hwf) as ([Hlen' Hpos'] & Hd & Hl & Hp).
  unfold Tokenizer.markLine, Tokenizer.eatLine in *.
  set (st0 := set_tokenStart (position st) st) in *.
  assert (Hwf0 : tokenizer_wf st0) by exact Hwf.
  destruct (eatLine_loop_scan (Z.to_nat (length st0 - position st0)) st0 Hwf0)
    as (Hb & Hnone & Hend); [lia|].
  set (st' := Tokenizer.eatLine_loop _ st0) in *.
  unfold lineEnd in Hend.
  change (position st0) with (position st) in *.
  change (data st0) with (data st) in *.
  change (length st0) with (length st) in *.
  change (lineNumber st0) with (lineNumber st) in *.
  destruct Hwf as [Hlen Hpos].
  assert (Hline : Tokenizer.getTokenString st'
                  = slice (data st) (position st) (tokenEnd st')).
  { unfold Tokenizer.getTokenString. rewrite Hts, Hd.
    apply substring_slice; lia. }
  split; [exact Hts|]. rewrite Hts.
  split; [exact Hline|]. rewrite Hline.
  split; [apply slice_Forall; [lia | exact Hnone]|].
  assert (Hsplit : slice (data st) (position st) (position st')
    = slice (data st) (position st) (tokenEnd st')
      ++ slice (data st) (tokenEnd st') (position st'))
    by (symmetry; apply slice_app; lia).
  rewrite Hsplit.
  destruct Hend as [(He & Hp' & Hn)|(Hn & [(Hc & Hp')|[(Hc & Hc' & Hp')|(Hc & Hc' & Hp')]])].
  - exists []. rewrite He, Hp', slice_nil.
    split; [simpl; auto|]. split; [reflexivity|]. split; [auto | congruence].
  - exists [10]. rewrite Hp', (slice_one _ _ _ Hc).
    split; [simpl; auto|]. split; [reflexivity|]. split; [discriminate | auto].
  - exists [13; 10].
    rewrite Hp', <- (slice_app _ (tokenEnd st') (tokenEnd st' + 1)) by lia.
    rewrite (slice_one _ _ _ Hc).
    replace (tokenEnd st' + 2) with (tokenEnd st' + 1 + 1) by lia.
    rewrite (slice_one _ _ _ Hc').
    split; [simpl; auto|]. split; [reflexivity|]. split; [discriminate | auto].
  - exists [13]. rewrite Hp', (slice_one _ _ _ Hc).
    split; [simpl; auto|]. split; [reflexivity|]. split; [discriminate | auto].
Qed.

(** The theorem at the text ["ab\r\ncd"]. *)
Lemma readLine_returns_the_line_witness :
  let st := Tokenizer.Tokenizer [97; 98; 13; 10; 99; 100] in
  tokenizer_wf st /\
  fst (Tokenizer.readLine st) = [97; 98] /\
  Forall (fun c => ~ isLineBreak c) (fst (Tokenizer.readLine st)).
Proof.
  cbv zeta.
  assert (Hwf : tokenizer_wf (Tokenizer.Tokenizer [97; 98; 13; 10; 99; 100]))
    by apply Tokenizer_wf.
  destruct (readLine_returns_the_line_without_its_break _ Hwf)
    as (_ & _ & Hall & _).
  split; [exact Hwf|]. split; [reflexivity | exact Hall].
Defined.

(** X2. [eatValue] moves the position over characters that are not
    whitespace, up to the first tab, line feed, carriage return or space, or
    to the end of the input, and sets [tokenEnd] there; it leaves
    [tokenStart] and the line number alone. *)
Theorem eatValue_stops_at_whitespace (st : Tokenizer) :
  tokenizer_wf st ->
  let st' := Tokenizer.eatValue st in
  position st <= position st' <= length st /\
  tokenEnd st' = position st' /\
  tokenStart st' = tokenStart st /\ lineNumber st' = lineNumber st /\
  Forall (fun c => ~ isWhitespace c)
    (slice (data st) (position st) (position st')) /\
  (position st' = length st \/
   exists c, JS.charCodeAt (data st) (position st') = Some c /\ isWhitespace c).
Proof.
  intros Hwf. cbv zeta. unfold Tokenizer.eatValue.
  destruct (eatValue_loop_scan (Z.to_nat (length st - position st)) st Hwf)
    as (Hb & He & Hl & Hs & Hnone & Hstop); [lia|].
  split; [exact Hb|]. split; [exact He|]. split; [exact Hs|].
  split; [exact Hl|]. split; [|exact Hstop].
  apply slice_Forall; [apply Hwf | exact Hnone].
Qed.

(** The theorem at the text ["ab cd"]. *)
Lemma eatValue_stops_witness :
  let st := Tokenizer.Tokenizer [97; 98; 32; 99; 100] in
  tokenizer_wf st /\ position (Tokenizer.eatValue st) = 2 /\
  tokenEnd (Tokenizer.eatValue st) = 2.
Proof.
  cbv zeta.
  assert (Hwf : tokenizer_wf (Tokenizer.Tokenizer [97; 98; 32; 99; 100]))
    by apply Tokenizer_wf.
  destruct (eatValue_stops_at_whitespace _ Hwf) as (_ & He & _).
  split; [exact Hwf|]. split; [reflexivity | exact He].
Defined.

(** X3. [skipWhitespace] moves the position over whitespace only and stops at
    the first other character or at the end of the input; it never touches
    [tokenStart] or [tokenEnd]; and it returns the last character it skipped,
    or 10 when it skipped none. *)
Theorem skipWhitespace_skips_whitespace_only (st : Tokenizer) :
  tokenizer_wf st ->
  let prev := fst (Tokenizer.skipWhitespace st) in
  let st' := snd (Tokenizer.skipWhitespace st) in
  position st <= position st' <= length st /\
  tokenStart st' = tokenStart st /\ tokenEnd st' = tokenEnd st /\
  Forall isWhitespace (slice (data st) (position st) (position st')) /\
  (position st' = length st \/
   exists c, JS.charCodeAt (data st) (position st') = Some c /\
             ~ isWhitespace c) /\
  ((position st' = position st /\ prev = 10) \/
   (position st < position st' /\
    JS.charCodeAt (data st) (position st' - 1) = Some prev)).
Proof.
  intros Hwf. cbv zeta. unfold Tokenizer.skipWhitespace.
  destruct (skipWhitespace_loop_scan (Z.to_nat (length st - position st)) 10
              st Hwf) as (Hb & Hs & He & Hall & Hstop & Hret & _); [lia|].
  split; [exact Hb|]. split; [exact Hs|]. split; [exact He|].
  split; [apply slice_Forall; [apply Hwf | exact Hall]|].
  split; [exact Hstop | exact Hret].
Qed.

(** The theorem at the text [" \t\nx"]. *)
Lemma skipWhitespace_skips_witness :
  let st := Tokenizer.Tokenizer [32; 9; 10; 120] in
  tokenizer_wf st /\ position (snd (Tokenizer.skipWhitespace st)) = 3 /\
  Forall isWhitespace
    (slice (data st) (position st) (position (snd (Tokenizer.skipWhitespace st)))).
Proof.
  cbv zeta.
  assert (Hwf : tokenizer_wf (Tokenizer.Tokenizer [32; 9; 10; 120]))
    by apply Tokenizer_wf.
  destruct (skipWhitespace_skips_whitespace_only _ Hwf) as (_ & _ & _ & Hall & _).
  split; [exact Hwf|]. split; [reflexivity | exact Hall].
Defined.

(** X4. [skipWhitespace] counts lines: the line number grows by the number of
    carriage returns skipped plus the number of line feeds skipped that do
    not directly follow a carriage return, so that the pair of both counts
    as one line break. *)
Theorem skipWhitespace_counts_line_breaks (st : Tokenizer) :
  tokenizer_wf st ->
  let st' := snd (Tokenizer.skipWhitespace st) in
  lineNumber st' = lineNumber st
    + lineBreaksFrom 10 (slice (data st) (position st) (position st')).
Proof.
  intros Hwf. cbv zeta. unfold Tokenizer.skipWhitespace.
  destruct (skipWhitespace_loop_scan (Z.to_nat (length st - position st)) 10
              st Hwf) as (_ & _ & _ & _ & _ & _ & Hlines); [lia|].
  exact Hlines.
Qed.

(** The theorem at the text ["\r\n\n\r x"]: three line breaks. *)
Lemma skipWhitespace_counts_witness :
  let st := Tokenizer.Tokenizer [13; 10; 10; 13; 32; 120] in
  tokenizer_wf st /\ lineNumber (snd (Tokenizer.skipWhitespace st)) = 4.
Proof.
  cbv zeta.
  assert (Hwf : tokenizer_wf (Tokenizer.Tokenizer [13; 10; 10; 13; 32; 120]))
    by apply Tokenizer_wf.
  split; [exact Hwf|].
  exact (skipWhitespace_counts_line_breaks _ Hwf).
Defined.

(** X5. Skipping whitespace, marking the start and eating a value yields a
    token that is not empty unless the input is exhausted: the token starts
    where the whitespace ended, holds no whitespace, and has at least one
    character whenever a character is left. *)
Theorem value_after_whitespace_is_not_empty (st : Tokenizer) :
  tokenizer_wf st ->
  let st1 := snd (Tokenizer.skipWhitespace st) in
  let st2 := Tokenizer.eatValue (Tokenizer.markStart st1) in
  tokenStart st2 = position st1 /\ tokenEnd st2 = position st2 /\
  Forall (fun c => ~ isWhitespace c)
    (slice (data st) (tokenStart st2) (tokenEnd st2)) /\
  (tokenStart st2 < tokenEnd st2 \/ position st1 = length st).
Proof.
  intros Hwf. cbv zeta.
  destruct (skipWhitespace_loop_bounds
              (Z.to_nat (length st - position st)) 10 st Hwf)
    as (Hwf1 & Hd1 & Hl1 & _).
  unfold Tokenizer.skipWhitespace.
  destruct (skipWhitespace_loop_scan (Z.to_nat (length st - position st)) 10
              st Hwf) as (Hb & _ & _ & _ & Hstop & _); [lia|].
  set (st1 := snd (Tokenizer.skipWhitespace_loop _ 10 st)) in *.
  unfold Tokenizer.eatValue, Tokenizer.markStart.
  set (st1' := set_tokenStart (position st1) st1).
  assert (Hwf1' : tokenizer_wf st1') by exact Hwf1.
  destruct (eatValue_loop_scan (Z.to_nat (length st1' - position st1')) st1'
              Hwf1') as (Hb2 & He2 & _ & Hs2 & Hnone2 & _); [lia|].
  set (st2 := Tokenizer.eatValue_loop _ st1') in *.
  change (position st1') with (position st1) in *.
  change (data st1') with (data st1) in *.
  change (length st1') with (length st1) in *.
  change (tokenStart st1') with (position st1) in *.
  rewrite Hd1 in Hnone2. rewrite Hl1 in Hb2.
  split; [exact Hs2|]. split; [exact He2|]. rewrite Hs2, He2.
  pose proof Hwf1 as [Hlen1 Hpos1].
  split; [apply slice_Forall; [lia | exact Hnone2]|].
  destruct Hstop as [Hend|(c & Hc & Hnot)]; [right; exact Hend|].
  left.
  destruct (Z.eq_dec (position st2) (position st1)) as [Heq|Hne]; [|lia].
  exfalso.
  assert (Hlt : position st1 < length st).
  { apply charCodeAt_Some in Hc. destruct Hwf as [Hlen _]. lia. }
  assert (Hst2 : st2 = Tokenizer.eatValue st1') by reflexivity.
  rewrite eatValue_unfold in Hst2.
  change (position st1') with (position st1) in Hst2.
  change (length st1') with (length st1) in Hst2.
  change (data st1') with (data st1) in Hst2.
  rewrite Hl1, (proj2 (Z.ltb_lt _ _) Hlt) in Hst2. cbv zeta in Hst2.
  rewrite Hd1, Hc in Hst2.
  destruct (JS.isCode (Some c) 9 || JS.isCode (Some c) 10
            || JS.isCode (Some c) 13 || JS.isCode (Some c) 32) eqn:Hws.
  - apply Hnot. unfold isWhitespace.
    repeat (apply orb_true_iff in Hws as [Hws|Hws]);
      apply Z.eqb_eq in Hws; lia.
  - destruct (eatValue_loop_bounds
                (Z.to_nat (length (set_position (position st1 + 1) st1')
                           - position (set_position (position st1 + 1) st1')))
                (set_position (position st1 + 1) st1'))
      as (_ & _ & _ & Hadv).
    { unfold tokenizer_wf, set_position. simpl. lia. }
    unfold Tokenizer.eatValue in Hst2. rewrite <- Hst2 in Hadv.
    unfold set_position in Hadv. simpl in Hadv. lia.
Qed.

(** The theorem at the text ["  ab c"]. *)
Lemma value_after_whitespace_witness :
  let st := Tokenizer.Tokenizer [32; 32; 97; 98; 32; 99] in
  let st2 := Tokenizer.eatValue
               (Tokenizer.markStart (snd (Tokenizer.skipWhitespace st))) in
  tokenizer_wf st /\ tokenStart st2 = 2 /\ tokenEnd st2 = 4 /\
  Tokenizer.getTokenString st2 = [97; 98].
Proof.
  cbv zeta.
  assert (Hwf : tokenizer_wf (Tokenizer.Tokenizer [32; 32; 97; 98; 32; 99]))
    by apply Tokenizer_wf.
  destruct (value_after_whitespace_is_not_empty _ Hwf) as (Hs & _).
  split; [exact Hwf|]. split; [exact Hs|]. split; reflexivity.
Defined.

(** ** Tokenizer: the tokens of [readLines] *)

Section ReadLinesTokens.

(** One [markLine]: the token it marks starts at the old position and ends
    before the new one. *)
Lemma markLine_token st :
  tokenizer_wf st ->
  let st' := Tokenizer.markLine st in
  tokenizer_wf st' /\ data st' = data st /\ length st' = length st /\
  tokenStart st' = position st /\
  position st <= tokenEnd st' <= position st'.
Proof.
  intros Hwf. cbv zeta.
  destruct (markLine_bounds st Hwf) as (Hwf' & Hd & Hl & _).
  split; [exact Hwf'|]. split; [exact Hd|]. split; [exact Hl|].
  split; [apply markLine_tokenStart|].
  unfold Tokenizer.markLine, Tokenizer.eatLine.
  destruct (eatLine_loop_scan
              (Z.to_nat (length (set_tokenStart (position st) st)
                         - position (set_tokenStart (position st) st)))
              (set_tokenStart (position st) st) Hwf) as (Hb & _); [lia|].
  exact Hb.
Qed.

Lemma iter_markLine_wf n : forall st,
  tokenizer_wf st ->
  tokenizer_wf (Nat.iter n Tokenizer.markLine st) /\
  data (Nat.iter n Tokenizer.markLine st) = data st /\
  length (Nat.iter n Tokenizer.markLine st) = length st.
Proof.
  induction n as [|n IH]; intros st Hwf;
    [split; [exact Hwf | split; reflexivity]|].
  destruct (IH st Hwf) as (Hwf' & Hd & Hl). simpl.
  destruct (markLine_token _ Hwf') as (H1 & H2 & H3 & _).
  split; [exact H1|]. split; congruence.
Qed.

(** The loop of [readLinesChunk]: it leaves the state that [n] calls of
    [markLine] leave, and the [i]-th pair it writes holds the token of the
    [i]-th of these calls. *)
Lemma readLinesChunk_loop_tokens n : forall st tk,
  tokenizer_wf st -> length st < 2 ^ 32 ->
  0 <= TokenBuilder.offset tk ->
  TokenBuilder.offset tk + 2 * Z.of_nat n
    <= Z.of_nat (List.length (TokenBuilder.indices tk)) ->
  let r := Tokenizer.readLinesChunk_loop n st tk in
  fst r = Nat.iter n Tokenizer.markLine st /\
  TokenBuilder.data (snd r) = TokenBuilder.data tk /\
  (forall j : nat, (j < Z.to_nat (TokenBuilder.offset tk))%nat ->
     TokenBuilder.indices (snd r) !! j = TokenBuilder.indices tk !! j) /\
  (forall i : nat, (i < n)%nat ->
     TokenBuilder.indices (snd r)
       !! Z.to_nat (TokenBuilder.offset tk + 2 * Z.of_nat i)
       = Some (tokenStart (Nat.iter (S i) Tokenizer.markLine st)) /\
     TokenBuilder.indices (snd r)
       !! Z.to_nat (TokenBuilder.offset tk + 2 * Z.of_nat i + 1)
       = Some (tokenEnd (Nat.iter (S i) Tokenizer.markLine st))).
Proof.
  induction n as [|n IH]; intros st tk Hwf H32 H0 Hroom; cbv zeta.
  - simpl. repeat split; auto; lia.
  - cbn [Tokenizer.readLinesChunk_loop].
    set (st1 := Tokenizer.markLine st).
    destruct (markLine_token st Hwf) as (Hwf1 & Hd1 & Hl1 & Hs1 & He1).
    fold st1 in Hwf1, Hd1, Hl1, Hs1, He1.
    pose proof Hwf as [_ Hpos]. pose proof Hwf1 as [_ Hpos1].
    unfold TokenBuilder.addUnchecked.
    destruct (push_spec tk (tokenStart st1) (tokenEnd st1))
      as (_ & Ho & Hdt & _ & Hlen & Hat & Hat' & Hold); [lia | lia |].
    set (tk1 := TokenBuilder.push tk (tokenStart st1) (tokenEnd st1)) in *.
    rewrite toUint32_id in Hat by (unfold uint32; lia).
    rewrite toUint32_id in Hat' by (unfold uint32; lia).
    destruct (IH st1 tk1 Hwf1) as (Hst & Hdata & Hbelow & Hpairs);
      [lia | lia | lia |].
    split; [rewrite Hst; symmetry; apply Nat.iter_succ_r|].
    split; [congruence|].
    split.
    { intros j Hj. rewrite Hbelow by lia. apply Hold. exact Hj. }
    intros [|i] Hi.
    + replace (TokenBuilder.offset tk + 2 * Z.of_nat 0)
        with (TokenBuilder.offset tk) by lia.
      rewrite !Hbelow by lia. simpl. fold st1. split; assumption.
    + destruct (Hpairs i) as [Hp Hp']; [lia|].
      unfold st1 in Hp, Hp'. rewrite <- !Nat.iter_succ_r in Hp, Hp'.
      replace (TokenBuilder.offset tk + 2 * Z.of_nat (S i))
        with (TokenBuilder.offset tk1 + 2 * Z.of_nat i) by lia.
      split; assumption.
Qed.

End ReadLinesTokens.

(** X6. [readLines] records the lines that successive calls of [readLine]
    return: it leaves the state that [count] calls leave, and slots [2i] and
    [2i + 1] of the token buffer hold the start and end of the [i]-th line,
    so that the text between them is what the [i]-th [readLine] returns.
    The token starts where the previous line (with its break) ended, and
    ends within the input. *)
Theorem readLines_records_each_line (st : Tokenizer) (count : Z) :
  tokenizer_wf st -> length st < 2 ^ 32 -> 0 <= count < 2 ^ 30 ->
  let st' := fst (Tokenizer.readLines st count) in
  let tokens := snd (Tokenizer.readLines st count) in
  st' = Nat.iter (Z.to_nat count) Tokenizer.markLine st /\
  TokenBuilder.count tokens = count /\
  TokenBuilder.data tokens = data st /\
  forall i : nat, Z.of_nat i < count ->
    let before := Nat.iter i Tokenizer.markLine st in
    exists s e,
      TokenBuilder.indices tokens !! (2 * i)%nat = Some s /\
      TokenBuilder.indices tokens !! (2 * i + 1)%nat = Some e /\
      s = position before /\
      s <= e <= position (snd (Tokenizer.readLine before)) /\
      e <= length st /\
      slice (data st) s e = fst (Tokenizer.readLine before).
Proof.
  intros Hwf H32 Hcount. cbv zeta.
  unfold Tokenizer.readLines, Tokenizer.readLinesChunk.
  set (tk := TokenBuilder.create st (count * 2)).
  assert (Hlen : Z.of_nat (List.length (TokenBuilder.indices tk))
                 = Z.max 10 (count * 2)).
  { unfold tk, TokenBuilder.create. simpl. rewrite length_replicate. lia. }
  destruct (readLinesChunk_loop_tokens (Z.to_nat count) st tk Hwf H32)
    as (Hst & Hdata & _ & Hpairs);
    [change (TokenBuilder.offset tk) with 0; lia
    |change (TokenBuilder.offset tk) with 0; lia |].
  destruct (readLinesChunk_loop_writes (Z.to_nat count) st tk)
    as (_ & Hc & _);
    [change (TokenBuilder.offset tk) with 0; lia
    |change (TokenBuilder.offset tk) with 0; lia |].
  cbv zeta in Hc.
  split; [exact Hst|].
  split; [rewrite Hc; simpl; lia|].
  split; [rewrite Hdata; reflexivity|].
  intros i Hi.
  destruct (Hpairs i) as [Hs He]; [lia|].
  change (TokenBuilder.offset tk) with 0 in Hs, He.
  replace (Z.to_nat (0 + 2 * Z.of_nat i)) with (2 * i)%nat in Hs by lia.
  replace (Z.to_nat (0 + 2 * Z.of_nat i + 1)) with (2 * i + 1)%nat in He by lia.
  destruct (iter_markLine_wf i st Hwf) as (Hwfi & Hdi & Hli).
  set (before := Nat.iter i Tokenizer.markLine st) in *.
  destruct (markLine_token before Hwfi) as (Hwf1 & Hd1 & Hl1 & Hs1 & He1).
  change (Nat.iter (S i) Tokenizer.markLine st)
    with (Tokenizer.markLine before) in Hs, He.
  exists (tokenStart (Tokenizer.markLine before)),
         (tokenEnd (Tokenizer.markLine before)).
  pose proof Hwfi as [_ Hposi]. pose proof Hwf1 as [Hlen1 Hpos1].
  split; [exact Hs|]. split; [exact He|]. split; [exact Hs1|].
  unfold Tokenizer.readLine. simpl.
  split; [lia|]. split; [lia|].
  unfold Tokenizer.getTokenString. rewrite Hd1, Hdi.
  symmetry. apply substring_slice; [lia|].
  pose proof Hwf as [Hlen0 _]. lia.
Qed.

(** The theorem at the text ["ab\ncd\n"], two lines. *)
Lemma readLines_records_witness :
  let st := Tokenizer.Tokenizer [97; 98; 10; 99; 100; 10] in
  tokenizer_wf st /\ length st < 2 ^ 32 /\ 0 <= 2 < 2 ^ 30 /\
  TokenBuilder.count (snd (Tokenizer.readLines st 2)) = 2 /\
  take 4 (TokenBuilder.indices (snd (Tokenizer.readLines st 2))) = [0; 2; 3; 5].
Proof.
  cbv zeta.
  assert (Hwf : tokenizer_wf (Tokenizer.Tokenizer [97; 98; 10; 99; 100; 10]))
    by apply Tokenizer_wf.
  assert (H32 : length (Tokenizer.Tokenizer [97; 98; 10; 99; 100; 10]) < 2 ^ 32)
    by (simpl; lia).
  assert (Hc : 0 <= 2 < 2 ^ 30) by lia.
  destruct (readLines_records_each_line _ 2 Hwf H32 Hc) as (_ & Hcount & _).
  split; [exact Hwf|]. split; [exact H32|]. split; [exact Hc|].
  split; [exact Hcount | reflexivity].
Defined.

(** ** Trimming *)

Section TrimLoops.

Lemma blank_guard text i :
  JS.isCode (JS.charCodeAt text i) 9 || JS.isCode (JS.charCodeAt text i) 32
    = true <-> blankAt text i.
Proof.
  unfold blankAt, isBlank. split.
  - destruct (JS.charCodeAt text i) as [c|]; [|discriminate].
    simpl. intros H. exists c. split; [reflexivity|].
    apply orb_true_iff in H as [H|H]; apply Z.eqb_eq in H; auto.
  - intros (c & -> & [->| ->]); reflexivity.
Qed.

(** The first loop stops at the first character that is not blank, or just
    behind [e]. *)
Lemma trimStart_loop_scan text e fuel : forall s,
  e - s + 1 <= Z.of_nat fuel ->
  let s' := Tokenizer.trimStart_loop fuel text (JS.charCodeAt text s) s e in
  s <= s' <= Z.max s (e + 1) /\
  (forall i, s <= i < s' -> blankAt text i) /\
  (s' <= e -> ~ blankAt text s').
Proof.
  induction fuel as [|f IH]; intros s Hfuel; cbv zeta; simpl.
  - destruct (JS.isCode (JS.charCodeAt text s) 9
              || JS.isCode (JS.charCodeAt text s) 32) eqn:Hb;
      destruct (s <=? e) eqn:Hse; simpl;
      try apply Z.leb_le in Hse; try apply Z.leb_gt in Hse;
      (split; [lia|]; split; [intros; lia|]); intros Hle; lia.
  - destruct (JS.isCode (JS.charCodeAt text s) 9
              || JS.isCode (JS.charCodeAt text s) 32) eqn:Hb;
      destruct (s <=? e) eqn:Hse; simpl;
      try apply Z.leb_le in Hse; try apply Z.leb_gt in Hse.
    + destruct (IH (s + 1)) as (Hr & Hall & Hstop); [lia|].
      split; [lia|]. split; [|exact Hstop].
      intros i Hi. destruct (Z.eq_dec i s) as [->|Hne].
      * apply blank_guard. exact Hb.
      * apply Hall. lia.
    + split; [lia|]. split; [intros; lia|]. intros; lia.
    + split; [lia|]. split; [intros; lia|]. intros _.
      rewrite <- blank_guard, Hb. discriminate.
    + split; [lia|]. split; [intros; lia|]. intros; lia.
Qed.

(** The second loop stops at the last character that is not blank, or just
    before [s]. *)
Lemma trimEnd_loop_scan text s fuel : forall e,
  e - s + 1 <= Z.of_nat fuel ->
  let e' := Tokenizer.trimEnd_loop fuel text (JS.charCodeAt text e) s e in
  Z.min e (s - 1) <= e' <= e /\
  (forall i, e' < i <= e -> blankAt text i) /\
  (s <= e' -> ~ blankAt text e').
Proof.
  induction fuel as [|f IH]; intros e Hfuel; cbv zeta; simpl.
  - destruct (JS.isCode (JS.charCodeAt text e) 9
              || JS.isCode (JS.charCodeAt text e) 32) eqn:Hb;
      destruct (s <=? e) eqn:Hse; simpl;
      try apply Z.leb_le in Hse; try apply Z.leb_gt in Hse;
      (split; [lia|]; split; [intros; lia|]); intros Hle; lia.
  - destruct (JS.isCode (JS.charCodeAt text e) 9
              || JS.isCode (JS.charCodeAt text e) 32) eqn:Hb;
      destruct (s <=? e) eqn:Hse; simpl;
      try apply Z.leb_le in Hse; try apply Z.leb_gt in Hse.
    + destruct (IH (e - 1)) as (Hr & Hall & Hstop); [lia|].
      split; [lia|]. split; [|exact Hstop].
      intros i Hi. destruct (Z.eq_dec i e) as [->|Hne].
      * apply blank_guard. exact Hb.
      * apply Hall. lia.
    + split; [lia|]. split; [intros; lia|]. intros; lia.
    + split; [lia|]. split; [intros; lia|]. intros _.
      rewrite <- blank_guard, Hb. discriminate.
    + split; [lia|]. split; [intros; lia|]. intros; lia.
Qed.

(** Both loops one after the other, as [trim] and [trimStr] run them. *)
Lemma trim_loops_scan text start end_ :
  start <= end_ ->
  let s := Tokenizer.trimStart_loop (Z.to_nat (end_ - 1 - start + 1)) text
             (JS.charCodeAt text start) start (end_ - 1) in
  let e := Tokenizer.trimEnd_loop (Z.to_nat (end_ - 1 - s + 1)) text
             (JS.charCodeAt text (end_ - 1)) s (end_ - 1) in
  start <= s <= e + 1 /\ e + 1 <= end_ /\
  (forall i, start <= i < s \/ e + 1 <= i < end_ -> blankAt text i) /\
  (s < e + 1 -> ~ blankAt text s /\ ~ blankAt text e).
Proof.
  intros Hse. cbv zeta.
  destruct (trimStart_loop_scan text (end_ - 1)
              (Z.to_nat (end_ - 1 - start + 1)) start)
    as (Hr & Hall & Hstop); [lia|].
  set (s := Tokenizer.trimStart_loop _ text _ start (end_ - 1)) in *.
  destruct (trimEnd_loop_scan text s (Z.to_nat (end_ - 1 - s + 1)) (end_ - 1))
    as (Hr' & Hall' & Hstop'); [lia|].
  set (e := Tokenizer.trimEnd_loop _ text _ s (end_ - 1)) in *.
  split; [lia|]. split; [lia|]. split.
  - intros i [Hi|Hi]; [apply Hall | apply Hall']; lia.
  - intros Hlt. split; [apply Hstop | apply Hstop']; lia.
Qed.

Lemma slice_blank text a b :
  0 <= a -> (forall i, a <= i < b -> blankAt text i) ->
  Forall isBlank (slice text a b).
Proof.
  intros Ha H. apply slice_Forall; [exact Ha|].
  intros i c Hi Hc. destruct (H i Hi) as (c' & Hc' & Hb). congruence.
Qed.

Lemma slice_head text a b c :
  0 <= a -> head (slice text a b) = Some c -> JS.charCodeAt text a = Some c.
Proof.
  intros Ha H. rewrite head_lookup in H.
  apply slice_lookup in H as [_ H]; [|exact Ha].
  replace (a + Z.of_nat 0) with a in H by lia. exact H.
Qed.

Lemma slice_last text a b c :
  0 <= a <= b -> b <= Z.of_nat (List.length text) ->
  last (slice text a b) = Some c -> JS.charCodeAt text (b - 1) = Some c.
Proof.
  intros Hab Hb H. rewrite last_lookup in H.
  pose proof (slice_length text a b Hab Hb) as Hlen.
  destruct (List.length (slice text a b)) as [|n] eqn:Hn;
    [apply lookup_lt_Some in H; rewrite Hn in H; lia|].
  apply slice_lookup in H as [_ H]; [|lia].
  simpl in H. replace (b - 1) with (a + Z.of_nat n) by lia. exact H.
Qed.

End TrimLoops.

(** X7. [trim] narrows the range [start, end) to a token by dropping tabs and
    spaces from both of its ends, and nothing else: the token lies within
    the range, every character of the range outside of the token is a tab
    or a space, and unless the token is empty its first and last characters
    are not.  The position is set to [end], and data, length and line
    number are kept. *)
Theorem trim_drops_blanks_at_both_ends (st : Tokenizer) (start end_ : Z) :
  start <= end_ ->
  let st' := Tokenizer.trim st start end_ in
  start <= tokenStart st' <= tokenEnd st' /\ tokenEnd st' <= end_ /\
  (forall i, start <= i < tokenStart st' \/ tokenEnd st' <= i < end_ ->
     blankAt (data st) i) /\
  (tokenStart st' < tokenEnd st' ->
     ~ blankAt (data st) (tokenStart st') /\
     ~ blankAt (data st) (tokenEnd st' - 1)) /\
  position st' = end_ /\ data st' = data st /\ length st' = length st /\
  lineNumber st' = lineNumber st.
Proof.
  intros Hse. cbv zeta.
  destruct (trim_loops_scan (data st) start end_ Hse)
    as (Hr & Hr' & Hall & Hstop).
  unfold Tokenizer.trim. cbv zeta.
  unfold set_position, set_tokenEnd, set_tokenStart. simpl.
  set (s := Tokenizer.trimStart_loop _ (data st) _ start (end_ - 1)) in *.
  set (e := Tokenizer.trimEnd_loop _ (data st) _ s (end_ - 1)) in *.
  split; [lia|]. split; [lia|]. split; [exact Hall|].
  split; [|repeat split].
  intros Hlt. replace (e + 1 - 1) with e by lia. apply Hstop. exact Hlt.
Qed.

(** The theorem at the text ["  ab \t"], whole range. *)
Lemma trim_drops_blanks_witness :
  let st := Tokenizer.trim (Tokenizer.Tokenizer [32; 32; 97; 98; 32; 9]) 0 6 in
  0 <= 6 /\ tokenStart st = 2 /\ tokenEnd st = 4 /\ position st = 6.
Proof.
  cbv zeta.
  assert (H : 0 <= 6) by lia.
  destruct (trim_drops_blanks_at_both_ends
              (Tokenizer.Tokenizer [32; 32; 97; 98; 32; 9]) 0 6 H)
    as (_ & _ & _ & _ & Hp & _).
  split; [exact H|]. split; [reflexivity|]. split; [reflexivity | exact Hp].
Defined.

(** X8. [trimStr] returns the text of the range [start, end) without the
    tabs and spaces at its two ends: the range is the result with blanks
    before and after it, and the result neither starts nor ends with a
    blank. *)
Theorem trimStr_is_the_range_without_outer_blanks
    (text : list Z) (start end_ : Z) :
  0 <= start <= end_ -> end_ <= Z.of_nat (List.length text) ->
  let r := trimStr text start end_ in
  (exists before after,
     slice text start end_ = before ++ r ++ after /\
     Forall isBlank before /\ Forall isBlank after) /\
  (forall c, head r = Some c -> ~ isBlank c) /\
  (forall c, last r = Some c -> ~ isBlank c).
Proof.
  intros Hse Hlen. cbv zeta.
  destruct (trim_loops_scan text start end_ (proj2 Hse))
    as (Hr & Hr' & Hall & Hstop).
  unfold trimStr. cbv zeta.
  set (s := Tokenizer.trimStart_loop _ text _ start (end_ - 1)) in *.
  set (e := Tokenizer.trimEnd_loop _ text _ s (end_ - 1)) in *.
  rewrite substring_slice by lia.
  split; [|split].
  - exists (slice text start s), (slice text (e + 1) end_).
    rewrite (slice_app text s (e + 1) end_) by lia.
    rewrite (slice_app text start s end_) by lia.
    split; [reflexivity|].
    split; apply slice_blank; try lia; intros i Hi; apply Hall; lia.
  - intros c Hc Hb.
    destruct (Z.eq_dec s (e + 1)) as [Heq|Hne].
    { rewrite Heq, slice_nil in Hc. discriminate. }
    apply slice_head in Hc; [|lia].
    destruct Hstop as [Hs _]; [lia|]. apply Hs. exists c. auto.
  - intros c Hc Hb.
    destruct (Z.eq_dec s (e + 1)) as [Heq|Hne].
    { rewrite Heq, slice_nil in Hc. discriminate. }
    apply slice_last in Hc; [|lia|lia].
    replace (e + 1 - 1) with e in Hc by lia.
    destruct Hstop as [_ He]; [lia|]. apply He. exists c. auto.
Qed.

(** The theorem at the text ["\t ab c  "], whole range. *)
Lemma trimStr_witness :
  let text := [9; 32; 97; 98; 32; 99; 32; 32] in
  0 <= 0 <= 8 /\ 8 <= Z.of_nat (List.length text) /\
  trimStr text 0 8 = [97; 98; 32; 99] /\
  (forall c, head (trimStr text 0 8) = Some c -> ~ isBlank c).
Proof.
  cbv zeta.
  assert (H1 : 0 <= 0 <= 8) by lia.
  assert (H2 : 8 <= Z.of_nat (List.length [9; 32; 97; 98; 32; 99; 32; 32]))
    by (simpl; lia).
  destruct (trimStr_is_the_range_without_outer_blanks
              [9; 32; 97; 98; 32; 99; 32; 32] 0 8 H1 H2) as (_ & Hh & _).
  split; [exact H1|]. split; [exact H2|]. split; [reflexivity | exact Hh].
Defined.

(** ** TokenBuilder: many tokens *)

Section AddMany.

(** One [add], with the buffer length kept below a bound [B] that the next
    pair already accounts for. *)
Lemma add_within b start end_ (B : Z) :
  builder_wf b -> uint32 start -> uint32 end_ ->
  Z.of_nat (List.length (TokenBuilder.indices b)) <= B ->
  161 * (TokenBuilder.offset b + 2) / 100 <= B ->
  161 * B / 100 < 2 ^ 31 ->
  exists b',
    TokenBuilder.add b start end_ = Some b' /\
    builder_wf b' /\
    Z.of_nat (List.length (TokenBuilder.indices b')) <= B /\
    TokenBuilder.count b' = TokenBuilder.count b + 1 /\
    TokenBuilder.offset b' = TokenBuilder.offset b + 2 /\
    TokenBuilder.data b' = TokenBuilder.data b /\
    TokenBuilder.indices b' !! Z.to_nat (TokenBuilder.offset b) = Some start /\
    TokenBuilder.indices b' !! Z.to_nat (TokenBuilder.offset b + 1)
      = Some end_ /\
    (forall j : nat, (j < Z.to_nat (TokenBuilder.offset b))%nat ->
       TokenBuilder.indices b' !! j = TokenBuilder.indices b !! j).
Proof.
  intros Hwf Hs He HB Hnext Hmax.
  pose proof Hwf as (Hlen & Hoff & Hm2).
  assert (Hgrow : builder_can_grow b).
  { unfold builder_can_grow.
    apply Z.le_lt_trans with (161 * B / 100); [|exact Hmax].
    apply Z.div_le_mono; lia. }
  unfold TokenBuilder.add.
  destruct (TokenBuilder.indicesLenMinus2 b <? TokenBuilder.offset b) eqn:Hfull.
  - apply Z.ltb_lt in Hfull.
    destruct (resize_spec b Hwf Hgrow)
      as (b1 & Hr & Hc1 & Ho1 & Hd1 & Hl1 & Hm1 & Hkeep1).
    rewrite Hr.
    assert (Hnew : Z.of_nat (List.length (TokenBuilder.indices b)) + 6
                   <= Z.of_nat (List.length (TokenBuilder.indices b1))).
    { rewrite Hl1. apply Z.div_le_lower_bound; lia. }
    destruct (push_spec b1 start end_)
      as (Hc & Ho & Hd & Hm & Hl & Hst & Hen & Hkeep); [lia | lia |].
    eexists. split; [reflexivity|].
    rewrite Ho1 in *.
    rewrite (toUint32_id _ Hs) in Hst. rewrite (toUint32_id _ He) in Hen.
    split; [unfold builder_wf; rewrite Hl, Ho, Hm; cbv zeta; lia|].
    split.
    { rewrite Hl, Hl1.
      apply Z.le_trans with (161 * (TokenBuilder.offset b + 2) / 100);
        [|exact Hnext].
      apply Z.div_le_mono; lia. }
    split; [lia|]. split; [lia|]. split; [congruence|].
    split; [exact Hst|]. split; [exact Hen|].
    intros j Hj. rewrite Hkeep by exact Hj. apply Hkeep1. lia.
  - apply Z.ltb_ge in Hfull.
    destruct (push_spec b start end_)
      as (Hc & Ho & Hd & Hm & Hl & Hst & Hen & Hkeep); [lia | lia |].
    eexists. split; [reflexivity|].
    rewrite (toUint32_id _ Hs) in Hst. rewrite (toUint32_id _ He) in Hen.
    split; [unfold builder_wf; rewrite Hl, Ho, Hm; cbv zeta; lia|].
    split; [rewrite Hl; exact HB|].
    split; [lia|]. split; [lia|]. split; [exact Hd|].
    split; [exact Hst|]. split; [exact Hen|]. exact Hkeep.
Qed.

Lemma addAll_within (B : Z) : forall pairs b,
  builder_wf b ->
  Forall (fun p => uint32 (fst p) /\ uint32 (snd p)) pairs ->
  Z.of_nat (List.length (TokenBuilder.indices b)) <= B ->
  161 * (TokenBuilder.offset b + 2 * Z.of_nat (List.length pairs)) / 100 <= B ->
  161 * B / 100 < 2 ^ 31 ->
  exists b',
    addAll b pairs = Some b' /\
    builder_wf b' /\
    TokenBuilder.count b'
      = TokenBuilder.count b + Z.of_nat (List.length pairs) /\
    TokenBuilder.offset b'
      = TokenBuilder.offset b + 2 * Z.of_nat (List.length pairs) /\
    TokenBuilder.data b' = TokenBuilder.data b /\
    (forall j : nat, (j < Z.to_nat (TokenBuilder.offset b))%nat ->
       TokenBuilder.indices b' !! j = TokenBuilder.indices b !! j) /\
    (forall (i : nat) p, pairs !! i = Some p ->
       TokenBuilder.indices b'
         !! Z.to_nat (TokenBuilder.offset b + 2 * Z.of_nat i) = Some (fst p) /\
       TokenBuilder.indices b'
         !! Z.to_nat (TokenBuilder.offset b + 2 * Z.of_nat i + 1)
         = Some (snd p)).
Proof.
  induction pairs as [|[start end_] rest IH]; intros b Hwf Hall HB Hfin Hmax.
  - exists b. split; [reflexivity|]. split; [exact Hwf|]. simpl.
    split; [lia|]. split; [lia|]. split; [reflexivity|].
    split; [reflexivity|]. intros i p Hp. discriminate.
  - apply Forall_cons in Hall as [[Hs He] Hall]. simpl in Hs, He.
    pose proof Hwf as (_ & Hoff & _).
    cbn [List.length] in Hfin.
    destruct (add_within b start end_ B Hwf Hs He HB)
      as (b1 & Hadd & Hwf1 & HB1 & Hc1 & Ho1 & Hd1 & Hst & Hen & Hkeep);
      [|exact Hmax|].
    { apply Z.le_trans with
        (161 * (TokenBuilder.offset b + 2 * Z.of_nat (S (List.length rest)))
         / 100); [|exact Hfin].
      apply Z.div_le_mono; lia. }
    destruct (IH b1 Hwf1 Hall HB1) as
      (b' & Hrest & Hwf' & Hc' & Ho' & Hd' & Hkeep' & Hpairs');
      [|exact Hmax|].
    { rewrite Ho1.
      replace (TokenBuilder.offset b + 2 + 2 * Z.of_nat (List.length rest))
        with (TokenBuilder.offset b + 2 * Z.of_nat (S (List.length rest)))
        by lia.
      exact Hfin. }
    exists b'. cbn [addAll List.length]. rewrite Hadd.
    split; [exact Hrest|]. split; [exact Hwf'|].
    split; [lia|]. split; [lia|]. split; [congruence|].
    split.
    { intros j Hj. rewrite Hkeep' by lia. apply Hkeep. exact Hj. }
    intros [|i] p Hp.
    + injection Hp as <-. simpl fst. simpl snd.
      replace (TokenBuilder.offset b + 2 * Z.of_nat 0)
        with (TokenBuilder.offset b) by lia.
      rewrite !Hkeep' by lia. split; assumption.
    + destruct (Hpairs' i p Hp) as [H1 H2].
      replace (TokenBuilder.offset b + 2 * Z.of_nat (S i))
        with (TokenBuilder.offset b1 + 2 * Z.of_nat i) by lia.
      split; assumption.
Qed.

End AddMany.

(** X9. Tokens added one after the other with [add] to a builder from
    [create] are all kept, in order, however often the buffer is resized on
    the way: no call throws, the count is the number of tokens added, and
    slots [2i] and [2i + 1] hold the start and end of the [i]-th token. *)
Theorem added_tokens_survive_resizing
    (st : Tokenizer) (size : Z) (pairs : list (Z * Z)) :
  size < 2 ^ 30 -> Z.of_nat (List.length pairs) < 2 ^ 28 ->
  Forall (fun p => uint32 (fst p) /\ uint32 (snd p)) pairs ->
  exists tokens,
    addAll (TokenBuilder.create st size) pairs = Some tokens /\
    TokenBuilder.count tokens = Z.of_nat (List.length pairs) /\
    TokenBuilder.data tokens = data st /\
    forall (i : nat) p, pairs !! i = Some p ->
      TokenBuilder.indices tokens !! (2 * i)%nat = Some (fst p) /\
      TokenBuilder.indices tokens !! (2 * i + 1)%nat = Some (snd p).
Proof.
  intros Hsize Hn Hall.
  destruct (create_wf st size) as (Hwf & Hlen & Ho & Hc); [lia|].
  destruct (addAll_within (2 ^ 30) pairs (TokenBuilder.create st size)
              Hwf Hall)
    as (b' & Hadd & _ & Hc' & _ & Hd' & _ & Hpairs).
  { rewrite Hlen. lia. }
  { rewrite Ho. apply Z.div_le_upper_bound; lia. }
  { reflexivity. }
  exists b'. split; [exact Hadd|]. split; [lia|]. split; [exact Hd'|].
  intros i p Hp. destruct (Hpairs i p Hp) as [H1 H2].
  rewrite Ho in H1, H2.
  replace (Z.to_nat (0 + 2 * Z.of_nat i)) with (2 * i)%nat in H1 by lia.
  replace (Z.to_nat (0 + 2 * Z.of_nat i + 1)) with (2 * i + 1)%nat in H2
    by lia.
  split; assumption.
Qed.

(** The theorem at seven tokens added to a builder of ten slots, which
    grows to sixteen on the way. *)
Lemma added_tokens_witness :
  let st := Tokenizer.Tokenizer [] in
  let pairs := [(0, 1); (2, 3); (4, 5); (6, 7); (8, 9); (10, 11); (12, 13)] in
  (4 < 2 ^ 30 /\ Z.of_nat (List.length pairs) < 2 ^ 28 /\
   Forall (fun p => uint32 (fst p) /\ uint32 (snd p)) pairs) /\
  exists tokens,
    addAll (TokenBuilder.create st 4) pairs = Some tokens /\
    TokenBuilder.count tokens = 7 /\
    List.length (TokenBuilder.indices tokens) = 16%nat.
Proof.
  cbv zeta.
  assert (H1 : 4 < 2 ^ 30) by lia.
  assert (H2 : Z.of_nat (List.length
            [(0, 1); (2, 3); (4, 5); (6, 7); (8, 9); (10, 11); (12, 13)])
          < 2 ^ 28) by (simpl; lia).
  assert (H3 : Forall (fun p => uint32 (fst p) /\ uint32 (snd p))
            [(0, 1); (2, 3); (4, 5); (6, 7); (8, 9); (10, 11); (12, 13)]).
  { repeat constructor; simpl; unfold uint32; lia. }
  split; [auto|].
  destruct (added_tokens_survive_resizing (Tokenizer.Tokenizer []) 4 _
              H1 H2 H3) as (tokens & Hadd & Hc & _).
  exists tokens. split; [exact Hadd|]. split; [exact Hc|].
  vm_compute in Hadd. injection Hadd as <-. reflexivity.
Defined.

(** ** ColorScale: between the ends of the domain *)

Section ColorScaleInside.

Import Number ColorScale.

Lemma round_pos_bounded s a : (0 < a)%Q -> bounded53 (round_pos s a).
Proof.
  intros Ha.
  destruct (round_pos_cases a Ha) as [[_ E]|[[_ E]|(m & e & E & _ & _ & B)]];
    rewrite E; [exact I | exact I | exact B].
Qed.

Lemma round_bounded s q : bounded53 (round s q).
Proof.
  destruct (Q_dec q 0) as [[N|P]|Z].
  - rewrite (round_negative _ _ N). apply round_pos_bounded. lra.
  - rewrite (round_positive _ _ P). apply round_pos_bounded. exact P.
  - rewrite (round_zero _ _ Z). exact I.
Qed.

Lemma mul_bounded x y : bounded53 (mul x y).
Proof.
  destruct x as [?|?| |sx mx ex], y as [?|?| |sy my ey]; try exact I.
  unfold mul. apply round_pos_bounded. rewrite 2 Qabs_finite.
  apply Qmult_lt_0_compat; apply value_finite_pos.
Qed.

Lemma Math_max_bounded x y :
  bounded53 x -> bounded53 y -> bounded53 (Math_max x y).
Proof.
  intros Hx Hy. unfold Math_max.
  destruct (compare x y) as [[| |]|]; try assumption; try exact I.
  destruct (sign x); assumption.
Qed.

Lemma Math_min_bounded x y :
  bounded53 x -> bounded53 y -> bounded53 (Math_min x y).
Proof.
  intros Hx Hy. unfold Math_min.
  destruct (compare x y) as [[| |]|]; try assumption; try exact I.
  destruct (sign x); assumption.
Qed.

Lemma parameter_bounded scale value :
  count1 scale = ofZ (Z.of_nat (List.length (colors scale)) - 1) ->
  bounded53 (parameter scale value).
Proof.
  intros Hc. unfold parameter, scaled. rewrite Hc.
  apply Math_min_bounded; [apply round_bounded|].
  apply Math_max_bounded; [apply round_bounded | apply mul_bounded].
Qed.

(** The fractional part of a positive double is a double: the weight
    [t - tf] is exact. *)
Lemma fraction_exact m e :
  Zpos m < 2 ^ 53 -> -1074 <= e ->
  let v := Number.value (S754_finite false m e) in
  (0 < v - inject_Z (Qfloor v))%Q ->
  exists m' e',
    round false (v - inject_Z (Qfloor v)) = S754_finite false m' e' /\
    (Number.value (S754_finite false m' e') == v - inject_Z (Qfloor v))%Q.
Proof.
  intros Hm He v Hfrac.
  pose proof (value_finite_pos m e) as Hv. fold (Number.value (S754_finite false m e)) in Hv.
  destruct (Z_lt_le_dec e 0) as [Hneg|Hpos].
  - set (f := Qfloor v) in *. set (D := 2 ^ (- e)).
    assert (HD : 0 < D) by (apply Z.pow_pos_nonneg; lia).
    assert (Hf : 0 <= f).
    { subst f. rewrite <- (Qfloor_Z 0). apply Qfloor_resp_le.
      change (inject_Z 0) with 0%Q. apply Qlt_le_weak. exact Hv. }
    assert (Hone : (inject_Z D * pow2 e == 1)%Q).
    { unfold D. rewrite <- (pow2_Z (- e)) by lia. rewrite <- pow2_add.
      replace (- e + e) with 0 by lia. reflexivity. }
    assert (Hr : (v - inject_Z f == inject_Z (Zpos m - f * D) * pow2 e)%Q).
    { unfold Z.sub. rewrite inject_Z_plus, inject_Z_opp, inject_Z_mult.
      transitivity (inject_Z (Zpos m) * pow2 e
                    - inject_Z f * (inject_Z D * pow2 e))%Q; [|ring].
      rewrite Hone. unfold v. simpl. ring. }
    assert (Hr0 : 0 < Zpos m - f * D).
    { destruct (Z_lt_le_dec 0 (Zpos m - f * D)) as [H|H]; [exact H|].
      exfalso. rewrite Zle_Qle in H. pose proof (pow2_pos e) as Hp.
      assert ((inject_Z (Zpos m - f * D) * pow2 e <= 0)%Q); [|lra].
      rewrite <- (Qmult_0_l (pow2 e)).
      apply Qmult_le_compat_r; [exact H | lra]. }
    assert (Hr1 : Zpos m - f * D < 2 ^ 53) by nia.
    assert (Hlt : (v - inject_Z f < pow2 1024)%Q).
    { pose proof (Qlt_floor v) as H. fold f in H.
      rewrite inject_Z_plus in H. change (inject_Z 1) with 1%Q in H.
      apply Qlt_trans with 1%Q; [lra|].
      change 1%Q with (pow2 0). apply pow2_lt. lia. }
    destruct (round_pos_exact (v - inject_Z f) (Zpos m - f * D) e
                (conj Hr0 Hr1) He Hr Hlt) as (m' & e' & E & V & _).
    exists m', e'. rewrite (round_positive _ _ Hfrac). split; [apply E | exact V].
  - exfalso. pose proof (finite_integer m e Hpos) as Hi. fold v in Hi.
    rewrite (Qfloor_comp _ _ Hi), Qfloor_Z in Hfrac. lra.
Qed.

Lemma floor_ceiling_adjacent (t : Q) :
  (Qceiling t = Qfloor t /\ (t - inject_Z (Qfloor t) == 0)%Q) \/
  (Qceiling t = Qfloor t + 1 /\ (0 < t - inject_Z (Qfloor t) < 1)%Q).
Proof.
  pose proof (Qfloor_le t) as H1. pose proof (Qlt_floor t) as H2.
  pose proof (Qle_ceiling t) as H3. pose proof (Qceiling_lt t) as H4.
  assert (Hlo : Qfloor t <= Qceiling t).
  { rewrite Zle_Qle. lra. }
  assert (Hhi : Qceiling t - 1 < Qfloor t + 1).
  { rewrite Zlt_Qlt. lra. }
  destruct (Z.eq_dec (Qceiling t) (Qfloor t)) as [Heq|Hne].
  - left. split; [exact Heq|]. rewrite Heq in H3. lra.
  - right. assert (Heq : Qceiling t = Qfloor t + 1) by lia.
    split; [exact Heq|].
    rewrite Heq in H4. replace (Qfloor t + 1 - 1) with (Qfloor t) in H4 by lia.
    rewrite inject_Z_plus in H2. change (inject_Z 1) with 1%Q in H2. lra.
Qed.

End ColorScaleInside.

(** X10. Where [color] is total (a palette that is not empty, a scaled value
    that is not [NaN]) it blends two neighbouring entries of the palette:
    [Color.interpolate] gets the entries [i] and [i + 1] for the integer part
    [i] of the parameter, with the fractional part of the parameter as the
    weight, which the subtraction [t - tf] yields without rounding and which
    lies strictly between 0 and 1; or, when the parameter is an integer, the
    entry [i] twice with the weight [+0]. *)
Theorem color_blends_neighbouring_entries
    (interpolate : ColorScale.Color -> ColorScale.Color -> Number.number ->
                   ColorScale.Color)
    (props : ColorScale.ColorScaleProps) (lo hi value : Number.number) :
  let scale := ColorScale.setDomain lo hi (ColorScale.create props) in
  let t := ColorScale.parameter scale value in
  ColorScale.props_colors props <> [] ->
  Z.of_nat (List.length (ColorScale.colors scale)) < 2 ^ 32 ->
  Number.is_nan (ColorScale.scaled scale value) = false ->
  exists (i : nat) c1 c2 w,
    Number.toIndex (Number.Math_floor t) = Some (Z.of_nat i) /\
    ColorScale.colors scale !! i = Some c1 /\
    ColorScale.color interpolate scale value = Some (interpolate c1 c2 w) /\
    ((w = S754_zero false /\ c2 = c1 /\
      (Number.value t == inject_Z (Z.of_nat i))%Q) \/
     (ColorScale.colors scale !! S i = Some c2 /\
      Number.sign w = false /\
      (Number.value w == Number.value t - inject_Z (Z.of_nat i))%Q /\
      (0 < Number.value w < 1)%Q)).
Proof.
  intros scale t Hne Hn Hnan.
  destruct (palette_count props lo hi) as (_ & Hcount & Hlen).
  fold scale in Hcount, Hlen. specialize (Hlen Hne).
  set (k := Z.of_nat (List.length (ColorScale.colors scale)) - 1) in *.
  assert (Hk : 0 <= k < 2 ^ 53) by lia.
  assert (Hcl : clamped k t).
  { apply clamp_clamped; [exact Hk | apply is_nan_false; exact Hnan]. }
  destruct (color_of_clamped interpolate scale value Hk Hcl)
    as (c1 & c2 & H1 & H2 & H3 & H4 & H5 & H6 & H7).
  fold t in H1, H2, H3, H4, H5, H6, H7.
  pose proof (weight_clamped k t Hk Hcl) as W.
  pose proof (parameter_bounded scale value Hcount) as B. fold t in B.
  set (f := Qfloor (Number.value t)) in *.
  exists (Z.to_nat f), c1, c2, (Number.sub t (Number.Math_floor t)).
  rewrite Z2Nat.id by lia.
  split; [exact H1|]. split; [exact H5|]. split; [exact H7|].
  destruct (floor_ceiling_adjacent (Number.value t)) as [[E F]|[E F]];
    fold f in E, F.
  - left. rewrite E in H6. split; [|split; [congruence | lra]].
    rewrite W. apply round_zero. exact F.
  - right. rewrite E in H6.
    replace (S (Z.to_nat f)) with (Z.to_nat (f + 1)) by lia.
    split; [exact H6|]. rewrite W.
    destruct (clamped_cases k t Hcl) as [Ez|(m & e & Em & _)].
    + exfalso. unfold f in F. rewrite Ez in F. destruct F as [F _].
      vm_compute in F. discriminate F.
    + unfold f in *. rewrite Em in *. destruct B as [Bm Be].
      destruct (fraction_exact m e Bm Be (proj1 F)) as (m' & e' & -> & V).
      split; [reflexivity|]. split; [exact V|]. rewrite V. exact F.
Qed.

(** The theorem for a three-colour palette over the domain [0, 10], at the
    value 7. *)
Lemma color_blends_witness :
  let props := ColorScale.mkColorScaleProps (Number.ofZ 0, Number.ofZ 10) false
                 [1; 2; 3] in
  let scale :=
    ColorScale.setDomain (Number.ofZ 0) (Number.ofZ 10)
      (ColorScale.create props) in
  (ColorScale.props_colors props <> [] /\
   Z.of_nat (List.length (ColorScale.colors scale)) < 2 ^ 32 /\
   Number.is_nan (ColorScale.scaled scale (Number.ofZ 7)) = false) /\
  exists (i : nat) c1 c2 w,
    ColorScale.colors scale !! i = Some c1 /\
    ColorScale.color (fun a b _ => a + b) scale (Number.ofZ 7)
    = Some (c1 + c2) /\
    ((w = S754_zero false /\ c2 = c1) \/
     (ColorScale.colors scale !! S i = Some c2 /\
      (0 < Number.value w < 1)%Q)).
Proof.
  cbv zeta.
  assert (H1 : ColorScale.props_colors
    (ColorScale.mkColorScaleProps (Number.ofZ 0, Number.ofZ 10) false
       [1; 2; 3]) <> []) by discriminate.
  assert (H2 : Z.of_nat (List.length (ColorScale.colors
    (ColorScale.setDomain (Number.ofZ 0) (Number.ofZ 10)
       (ColorScale.create (ColorScale.mkColorScaleProps
          (Number.ofZ 0, Number.ofZ 10) false [1; 2; 3]))))) < 2 ^ 32)
    by reflexivity.
  assert (H3 : Number.is_nan (ColorScale.scaled
    (ColorScale.setDomain (Number.ofZ 0) (Number.ofZ 10)
       (ColorScale.create (ColorScale.mkColorScaleProps
          (Number.ofZ 0, Number.ofZ 10) false [1; 2; 3])))
    (Number.ofZ 7)) = false) by (vm_compute; reflexivity).
  split; [repeat split; assumption|].
  destruct (color_blends_neighbouring_entries (fun a b _ => a + b)
    (ColorScale.mkColorScaleProps (Number.ofZ 0, Number.ofZ 10) false
       [1; 2; 3]) (Number.ofZ 0) (Number.ofZ 10) (Number.ofZ 7) H1 H2 H3)
    as (i & c1 & c2 & w & _ & Hc1 & Hcol & Hw).
  exists i, c1, c2, w. split; [exact Hc1|]. split; [exact Hcol|].
  destruct Hw as [(Hz & He & _)|(Hs & _ & _ & Hr)];
    [left; split; assumption | right; split; assumption].
Defined.

(** ** ColorScale: the parameter follows the value *)

Section Monotone.

Import Number.

Lemma leN_refl x : x <> S754_nan -> leN x x.
Proof.
  destruct x as [[|]|[|]| |[|] ? ?]; simpl; try congruence; intros _;
    try exact I; apply Qle_refl.
Qed.

Lemma leN_inf_l x : x <> S754_nan -> leN (S754_infinity true) x.
Proof. destruct x as [[|]|[|]| |[|] ? ?]; simpl; congruence || auto. Qed.

Lemma leN_not_nan x y : leN x y -> x <> S754_nan /\ y <> S754_nan.
Proof.
  destruct x as [[|]|[|]| |[|] ? ?], y as [[|]|[|]| |[|] ? ?]; simpl;
    try contradiction; intros _; split; discriminate.
Qed.

Lemma leb_leN x y : leb x y = true -> leN x y.
Proof.
  intros H. pose proof (compare_finite_le x y) as Hv.
  destruct x as [[|]|[|]| |[|] ? ?], y as [[|]|[|]| |[|] ? ?];
    try discriminate H; try exact I; exact (Hv H).
Qed.

Lemma leN_leb x y : leN x y -> leb x y = true.
Proof.
  destruct x as [[|]|[|]| |[|] ? ?], y as [[|]|[|]| |[|] ? ?]; simpl;
    try contradiction; try reflexivity; intros H; unfold leb, compare;
    match goal with
    | |- context [(?a ?= ?b)%Q] =>
      destruct (Qcompare_spec a b) as [H0|H0|H0]; simpl in H0;
        try reflexivity; exfalso; lra
    end.
Qed.

(** Rounded magnitudes with their signs, in order. *)
Lemma signed_round_mono (s1 s2 : bool) (q1 q2 : Q) :
  (0 < q1)%Q -> (0 < q2)%Q ->
  ((if s1 then - q1 else q1) <= (if s2 then - q2 else q2))%Q ->
  leN (round_pos s1 q1) (round_pos s2 q2).
Proof.
  intros H1 H2 H. destruct s1, s2.
  - apply (round_pos_mono q2 q1 H2). lra.
  - apply leN_trans with (S754_zero false);
      [apply round_pos_nonpos | apply round_pos_nonneg]; assumption.
  - exfalso. lra.
  - apply (round_pos_mono q1 q2 H1). lra.
Qed.

Lemma round_pos_above_zero s q : (0 < q)%Q -> leN (S754_zero s) (round_pos false q).
Proof. intros H. apply round_pos_nonneg. exact H. Qed.

Lemma signed_value s m e :
  (value (S754_finite s m e)
   == if s then - (inject_Z (Zpos m) * pow2 e) else inject_Z (Zpos m) * pow2 e)%Q.
Proof. destruct s; reflexivity. Qed.

Lemma sub_mono_l a b c :
  leN a b -> sub a c = S754_nan \/ sub b c = S754_nan \/ leN (sub a c) (sub b c).
Proof.
  intros H.
  pose proof (sub_finite_round a c) as R1.
  pose proof (sub_finite_round b c) as R2.
  destruct a as [sa|[|]| |sa ma ea], b as [sb|[|]| |sb mb eb],
    c as [sc|[|]| |sc mc ec];
    try contradiction;
    try (left; reflexivity); try (right; left; reflexivity); right; right;
    try (simpl; exact I);
    first [ rounded R1; rounded R2; apply round_mono;
            change (leN ?x ?y) with (value x <= value y)%Q in H; lra
          | rounded R1; apply leN_inf_r, round_not_nan
          | rounded R2; apply leN_inf_l, round_not_nan ].
Qed.

Lemma quotient_pos ma ea mf ef :
  (0 < inject_Z (Zpos ma) * pow2 ea / (inject_Z (Zpos mf) * pow2 ef))%Q.
Proof.
  apply Qlt_shift_div_l; [apply value_finite_pos|].
  rewrite Qmult_0_l. apply value_finite_pos.
Qed.

Lemma div_finite sa ma ea sf mf ef :
  div (S754_finite sa ma ea) (S754_finite sf mf ef)
  = round_pos (xorb sa sf)
      (inject_Z (Zpos ma) * pow2 ea / (inject_Z (Zpos mf) * pow2 ef)).
Proof.
  unfold div. cbn [sign]. symmetry. apply round_pos_comp; [apply quotient_pos|].
  rewrite 2 Qabs_finite. reflexivity.
Qed.

Lemma mul_finite sa ma ea sc mc ec :
  mul (S754_finite sa ma ea) (S754_finite sc mc ec)
  = round_pos (xorb sa sc)
      (inject_Z (Zpos ma) * pow2 ea * (inject_Z (Zpos mc) * pow2 ec)).
Proof.
  unfold mul. cbn [sign]. symmetry. apply round_pos_comp.
  - apply Qmult_lt_0_compat; apply value_finite_pos.
  - rewrite 2 Qabs_finite. reflexivity.
Qed.

Lemma div_mono a b f :
  isPos f -> leN a b ->
  div a f = S754_nan \/ div b f = S754_nan \/ leN (div a f) (div b f).
Proof.
  intros Hf H.
  destruct f as [[|]|[|]| |[|] mf ef]; try contradiction.
  - destruct a as [sa|[|]| |sa ma ea], b as [sb|[|]| |sb mb eb];
      try contradiction;
      try (left; reflexivity); try (right; left; reflexivity); right; right;
      simpl; apply Qle_refl.
  - pose proof (value_finite_pos mf ef) as Pf.
    destruct a as [sa|[|]| |sa ma ea], b as [sb|[|]| |sb mb eb];
      try contradiction; right; right;
      rewrite ?div_finite; try (simpl; exact I);
      try (apply leN_inf_r, round_pos_not_nan);
      try (apply leN_inf_l, round_pos_not_nan).
    + simpl. apply Qle_refl.
    + cbn [div sign xorb]. pose proof (value_finite_pos mb eb) as Pb.
      assert (sb = false).
      { destruct sb; [|reflexivity]. exfalso. simpl in H. lra. }
      subst sb. apply round_pos_nonneg. apply quotient_pos.
    + cbn [div sign xorb]. pose proof (value_finite_pos ma ea) as Pa.
      assert (sa = true).
      { destruct sa; [reflexivity|]. exfalso. simpl in H. lra. }
      subst sa. apply round_pos_nonpos. apply quotient_pos.
    + rewrite 2 xorb_false_r.
      change (leN ?x ?y) with (value x <= value y)%Q in H.
      rewrite 2 signed_value in H.
      pose proof (value_finite_pos ma ea) as Pa.
      pose proof (value_finite_pos mb eb) as Pb.
      apply signed_round_mono; try apply quotient_pos.
      assert (Hi : (0 < / (inject_Z (Zpos mf) * pow2 ef))%Q)
        by (apply Qinv_lt_0_compat; exact Pf).
      unfold Qdiv.
      set (A := (inject_Z (Zpos ma) * pow2 ea)%Q) in *.
      set (B := (inject_Z (Zpos mb) * pow2 eb)%Q) in *.
      set (F := (/ (inject_Z (Zpos mf) * pow2 ef))%Q) in *.
      destruct sa, sb.
      * assert ((B * F <= A * F)%Q); [|lra].
        apply Qmult_le_compat_r; lra.
      * assert ((0 < A * F)%Q) by (apply Qmult_lt_0_compat; assumption).
        assert ((0 < B * F)%Q) by (apply Qmult_lt_0_compat; assumption).
        lra.
      * exfalso. lra.
      * apply Qmult_le_compat_r; lra.
Qed.

Lemma mul_mono a b c :
  isCount c -> leN a b ->
  mul a c = S754_nan \/ mul b c = S754_nan \/ leN (mul a c) (mul b c).
Proof.
  intros Hc H.
  destruct c as [[|]|[|]| |[|] mc ec]; try contradiction.
  - destruct a as [sa|[|]| |sa ma ea], b as [sb|[|]| |sb mb eb];
      try contradiction;
      try (left; reflexivity); try (right; left; reflexivity); right; right;
      simpl; apply Qle_refl.
  - pose proof (value_finite_pos mc ec) as Pc.
    destruct a as [sa|[|]| |sa ma ea], b as [sb|[|]| |sb mb eb];
      try contradiction; right; right;
      rewrite ?mul_finite; try (simpl; exact I);
      try (apply leN_inf_r, round_pos_not_nan);
      try (apply leN_inf_l, round_pos_not_nan).
    + simpl. apply Qle_refl.
    + cbn [mul sign xorb]. pose proof (value_finite_pos mb eb) as Pb.
      assert (sb = false).
      { destruct sb; [|reflexivity]. exfalso. simpl in H. lra. }
      subst sb. apply round_pos_nonneg.
      apply Qmult_lt_0_compat; apply value_finite_pos.
    + cbn [mul sign xorb]. pose proof (value_finite_pos ma ea) as Pa.
      assert (sa = true).
      { destruct sa; [reflexivity|]. exfalso. simpl in H. lra. }
      subst sa. apply round_pos_nonpos.
      apply Qmult_lt_0_compat; apply value_finite_pos.
    + rewrite 2 xorb_false_r.
      change (leN ?x ?y) with (value x <= value y)%Q in H.
      rewrite 2 signed_value in H.
      pose proof (value_finite_pos ma ea) as Pa.
      pose proof (value_finite_pos mb eb) as Pb.
      apply signed_round_mono;
        try (apply Qmult_lt_0_compat; apply value_finite_pos).
      set (A := (inject_Z (Zpos ma) * pow2 ea)%Q) in *.
      set (B := (inject_Z (Zpos mb) * pow2 eb)%Q) in *.
      set (F := (inject_Z (Zpos mc) * pow2 ec)%Q) in *.
      destruct sa, sb.
      * assert ((B * F <= A * F)%Q); [|lra].
        apply Qmult_le_compat_r; lra.
      * assert ((0 < A * F)%Q) by (apply Qmult_lt_0_compat; assumption).
        assert ((0 < B * F)%Q) by (apply Qmult_lt_0_compat; assumption).
        lra.
      * exfalso. lra.
      * apply Qmult_le_compat_r; lra.
Qed.

(** [Math.max] and [Math.min] of two numbers that are not [NaN]. *)
Lemma Math_max_spec x y :
  x <> S754_nan -> y <> S754_nan ->
  leN x (Math_max x y) /\ leN y (Math_max x y) /\
  (Math_max x y = x \/ Math_max x y = y).
Proof.
  intros Hx Hy. pose proof (leN_refl x Hx) as Rx. pose proof (leN_refl y Hy) as Ry.
  unfold Math_max.
  destruct x as [[|]|[|]| |[|] mx ex], y as [[|]|[|]| |[|] my ey];
    try congruence; cbn [compare sign];
    try (split; [|split]; first [exact Rx | exact Ry | exact I | auto]; fail);
    match goal with
    | |- context [(?a ?= ?b)%Q] =>
      destruct (Qcompare_spec a b) as [H0|H0|H0];
        (split; [|split]; first [exact Rx | exact Ry | auto; fail
                                | change (leN ?u ?v) with (value u <= value v)%Q; lra])
    end.
Qed.

Lemma Math_min_spec x y :
  x <> S754_nan -> y <> S754_nan ->
  leN (Math_min x y) x /\ leN (Math_min x y) y /\
  (Math_min x y = x \/ Math_min x y = y).
Proof.
  intros Hx Hy. pose proof (leN_refl x Hx) as Rx. pose proof (leN_refl y Hy) as Ry.
  unfold Math_min.
  destruct x as [[|]|[|]| |[|] mx ex], y as [[|]|[|]| |[|] my ey];
    try congruence; cbn [compare sign];
    try (split; [|split]; first [exact Rx | exact Ry | exact I | auto]; fail);
    match goal with
    | |- context [(?a ?= ?b)%Q] =>
      destruct (Qcompare_spec a b) as [H0|H0|H0];
        (split; [|split]; first [exact Rx | exact Ry | auto; fail
                                | change (leN ?u ?v) with (value u <= value v)%Q; lra])
    end.
Qed.

Lemma Math_max_mono z x y :
  z <> S754_nan -> leN x y -> leN (Math_max z x) (Math_max z y).
Proof.
  intros Hz H. destruct (leN_not_nan x y H) as [Hx Hy].
  destruct (Math_max_spec z x Hz Hx) as (_ & _ & [->| ->]);
    destruct (Math_max_spec z y Hz Hy) as (Lz & Ly & _).
  - exact Lz.
  - apply leN_trans with y; assumption.
Qed.

Lemma Math_min_mono z x y :
  z <> S754_nan -> leN x y -> leN (Math_min z x) (Math_min z y).
Proof.
  intros Hz H. destruct (leN_not_nan x y H) as [Hx Hy].
  destruct (Math_min_spec z y Hz Hy) as (_ & _ & [->| ->]);
    destruct (Math_min_spec z x Hz Hx) as (Lz & Lx & _).
  - exact Lz.
  - apply leN_trans with x; assumption.
Qed.

End Monotone.

(** X11. The parameter of [color] follows the value: over a domain with
    [min <= max], and for a palette that is not empty, a larger value never
    gives a smaller parameter, as long as neither scaled value is [NaN];
    no rounding of the subtraction, the division or the multiplication
    turns the order around. *)
Theorem parameter_is_monotone
    (props : ColorScale.ColorScaleProps) (lo hi v1 v2 : Number.number) :
  let scale := ColorScale.setDomain lo hi (ColorScale.create props) in
  ColorScale.props_colors props <> [] ->
  Z.of_nat (List.length (ColorScale.colors scale)) < 2 ^ 32 ->
  Number.leb lo hi = true -> Number.leb v1 v2 = true ->
  Number.is_nan (ColorScale.scaled scale v1) = false ->
  Number.is_nan (ColorScale.scaled scale v2) = false ->
  Number.leb (ColorScale.parameter scale v1) (ColorScale.parameter scale v2)
  = true.
Proof.
  intros scale Hne Hn Hdom Hv N1 N2.
  destruct (palette_count props lo hi) as (_ & Hcount & Hlen).
  fold scale in Hcount, Hlen. specialize (Hlen Hne).
  set (k := Z.of_nat (List.length (ColorScale.colors scale)) - 1) in *.
  assert (Hk : 0 <= k < 2 ^ 53) by lia.
  apply is_nan_false in N1, N2.
  pose proof (setDomain_diff_positive lo hi (ColorScale.create props) Hdom)
    as Hpos. fold scale in Hpos.
  assert (Hs : leN (ColorScale.scaled scale v1) (ColorScale.scaled scale v2)).
  { unfold ColorScale.scaled in *. rewrite Hcount in *.
    change (ColorScale.min scale) with lo in *.
    destruct (sub_mono_l v1 v2 lo (leb_leN _ _ Hv)) as [E|[E|L1]];
      [rewrite E in N1; contradiction | rewrite E in N2; contradiction |].
    destruct (div_mono _ _ _ Hpos L1) as [E|[E|L2]];
      [rewrite E in N1; contradiction | rewrite E in N2; contradiction |].
    destruct (mul_mono _ _ _ (ofZ_count k Hk) L2) as [E|[E|L3]];
      [contradiction | contradiction | exact L3]. }
  apply leN_leb. unfold ColorScale.parameter. fold k.
  apply Math_min_mono; [apply round_not_nan|].
  apply Math_max_mono; [apply round_not_nan | exact Hs].
Qed.

(** The theorem at the values 2 and 7 over the domain [0, 10]. *)
Lemma parameter_is_monotone_witness :
  let props := ColorScale.mkColorScaleProps (Number.ofZ 0, Number.ofZ 10) false
                 [1; 2; 3] in
  let scale :=
    ColorScale.setDomain (Number.ofZ 0) (Number.ofZ 10)
      (ColorScale.create props) in
  (ColorScale.props_colors props <> [] /\
   Z.of_nat (List.length (ColorScale.colors scale)) < 2 ^ 32 /\
   Number.leb (Number.ofZ 0) (Number.ofZ 10) = true /\
   Number.leb (Number.ofZ 2) (Number.ofZ 7) = true /\
   Number.is_nan (ColorScale.scaled scale (Number.ofZ 2)) = false /\
   Number.is_nan (ColorScale.scaled scale (Number.ofZ 7)) = false) /\
  Number.leb (ColorScale.parameter scale (Number.ofZ 2))
    (ColorScale.parameter scale (Number.ofZ 7)) = true.
Proof.
  cbv zeta.
  assert (H1 : ColorScale.props_colors
    (ColorScale.mkColorScaleProps (Number.ofZ 0, Number.ofZ 10) false
       [1; 2; 3]) <> []) by discriminate.
  assert (H2 : Z.of_nat (List.length (ColorScale.colors
    (ColorScale.setDomain (Number.ofZ 0) (Number.ofZ 10)
       (ColorScale.create (ColorScale.mkColorScaleProps
          (Number.ofZ 0, Number.ofZ 10) false [1; 2; 3]))))) < 2 ^ 32)
    by reflexivity.
  assert (H3 : Number.leb (Number.ofZ 0) (Number.ofZ 10) = true)
    by (vm_compute; reflexivity).
  assert (H4 : Number.leb (Number.ofZ 2) (Number.ofZ 7) = true)
    by (vm_compute; reflexivity).
  assert (H5 : Number.is_nan (ColorScale.scaled
    (ColorScale.setDomain (Number.ofZ 0) (Number.ofZ 10)
       (ColorScale.create (ColorScale.mkColorScaleProps
          (Number.ofZ 0, Number.ofZ 10) false [1; 2; 3])))
    (Number.ofZ 2)) = false) by (vm_compute; reflexivity).
  assert (H6 : Number.is_nan (ColorScale.scaled
    (ColorScale.setDomain (Number.ofZ 0) (Number.ofZ 10)
       (ColorScale.create (ColorScale.mkColorScaleProps
          (Number.ofZ 0, Number.ofZ 10) false [1; 2; 3])))
    (Number.ofZ 7)) = false) by (vm_compute; reflexivity).
  split; [repeat split; assumption|].
  exact (parameter_is_monotone
    (ColorScale.mkColorScaleProps (Number.ofZ 0, Number.ofZ 10) false
       [1; 2; 3]) (Number.ofZ 0) (Number.ofZ 10) (Number.ofZ 2) (Number.ofZ 7)
    H1 H2 H3 H4 H5 H6).
Defined.

(** ** ColorScale: a domain given the other way round *)

Section Antitone.

Import Number.

Lemma SFopp_involutive x : SFopp (SFopp x) = x.
Proof. destruct x as [[|]|[|]| |[|] m e]; reflexivity. Qed.

Lemma leN_opp x y : leN x y -> leN (SFopp y) (SFopp x).
Proof.
  destruct x as [[|]|[|]| |[|] mx ex], y as [[|]|[|]| |[|] my ey]; simpl;
    try tauto; intros; lra.
Qed.

Lemma round_pos_opp s a : round_pos (negb s) a = SFopp (round_pos s a).
Proof.
  unfold round_pos. cbv zeta.
  destruct ((971 <? binade a) || _); [reflexivity|].
  destruct (2 ^ 53 <=? mantissa a); [reflexivity|].
  destruct (mantissa a); reflexivity.
Qed.

(** Dividing by the opposite number gives the opposite quotient. *)
Lemma div_opp_r a f : div a (SFopp f) = SFopp (div a f).
Proof.
  destruct a as [sa|sa| |sa ma ea], f as [sf|sf| |sf mf ef];
    try reflexivity;
    try (cbn [SFopp div sign]; rewrite negb_xorb_r; reflexivity).
  cbn [SFopp]. rewrite 2 div_finite, <- round_pos_opp, negb_xorb_r.
  reflexivity.
Qed.

Lemma div_anti a b f :
  isPos (SFopp f) -> leN a b ->
  div a f = S754_nan \/ div b f = S754_nan \/ leN (div b f) (div a f).
Proof.
  intros Hf H.
  assert (O : forall x, div x f = SFopp (div x (SFopp f))).
  { intros x. rewrite <- div_opp_r, SFopp_involutive. reflexivity. }
  rewrite (O a), (O b).
  destruct (div_mono a b (SFopp f) Hf H) as [E|[E|L]].
  - left. rewrite E. reflexivity.
  - right. left. rewrite E. reflexivity.
  - right. right. apply leN_opp. exact L.
Qed.

(** A negative difference of two doubles does not round to zero. *)
Lemma sub_neg lo hi :
  isDouble lo -> isDouble hi -> ltb hi lo = true -> isPos (SFopp (sub hi lo)).
Proof.
  intros Vlo Vhi H.
  pose proof (compare_finite_lt hi lo) as Hv.
  pose proof (sub_finite_round hi lo) as Hr.
  destruct (value_grid lo Vlo) as [Kl Hl]. destruct (value_grid hi Vhi) as [Kh Hh].
  destruct lo as [sl|[|]| |sl ml el], hi as [sh|[|]| |sh mh eh];
    try discriminate H; try exact I;
    specialize (Hv H); rounded Hr;
    (rewrite round_negative by lra);
    change true with (negb false); rewrite round_pos_opp, SFopp_involutive;
    rewrite <- (round_positive false) by lra;
    apply (round_grid_pos _ _ (Kl - Kh));
    try (rewrite Hh, Hl; unfold Z.sub; rewrite inject_Z_plus, inject_Z_opp;
         ring); lra.
Qed.

End Antitone.

(** X12. Over a domain given the other way round, [max < min], the parameter
    of [color] follows the value backwards: for a palette that is not empty
    a larger value never gives a larger parameter, as long as neither scaled
    value is [NaN]. *)
Theorem parameter_is_antitone_on_a_reversed_domain
    (props : ColorScale.ColorScaleProps) (lo hi v1 v2 : Number.number) :
  let scale := ColorScale.setDomain lo hi (ColorScale.create props) in
  ColorScale.props_colors props <> [] ->
  Z.of_nat (List.length (ColorScale.colors scale)) < 2 ^ 32 ->
  isDouble lo -> isDouble hi ->
  Number.ltb hi lo = true -> Number.leb v1 v2 = true ->
  Number.is_nan (ColorScale.scaled scale v1) = false ->
  Number.is_nan (ColorScale.scaled scale v2) = false ->
  Number.leb (ColorScale.parameter scale v2) (ColorScale.parameter scale v1)
  = true.
Proof.
  intros scale Hne Hn Vlo Vhi Hdom Hv N1 N2.
  destruct (palette_count props lo hi) as (_ & Hcount & Hlen).
  fold scale in Hcount, Hlen. specialize (Hlen Hne).
  set (k := Z.of_nat (List.length (ColorScale.colors scale)) - 1) in *.
  assert (Hk : 0 <= k < 2 ^ 53) by lia.
  apply is_nan_false in N1, N2.
  pose proof (sub_neg lo hi Vlo Vhi Hdom) as Hneg.
  assert (Hdiff : ColorScale.diff scale = Number.sub hi lo).
  { unfold scale, ColorScale.setDomain. simpl.
    destruct (Number.sub hi lo) as [[|]|[|]| |[|] ? ?]; try contradiction;
      reflexivity. }
  assert (Hs : leN (ColorScale.scaled scale v2) (ColorScale.scaled scale v1)).
  { unfold ColorScale.scaled in *. rewrite Hcount, Hdiff in *.
    change (ColorScale.min scale) with lo in *.
    destruct (sub_mono_l v1 v2 lo (leb_leN _ _ Hv)) as [E|[E|L1]];
      [rewrite E in N1; contradiction | rewrite E in N2; contradiction |].
    destruct (div_anti _ _ _ Hneg L1) as [E|[E|L2]];
      [rewrite E in N1; contradiction | rewrite E in N2; contradiction |].
    destruct (mul_mono _ _ _ (ofZ_count k Hk) L2) as [E|[E|L3]];
      [contradiction | contradiction | exact L3]. }
  apply leN_leb. unfold ColorScale.parameter. fold k.
  apply Math_min_mono; [apply round_not_nan|].
  apply Math_max_mono; [apply round_not_nan | exact Hs].
Qed.

(** The theorem at the values 2 and 7 over the domain [10, 0]. *)
Lemma parameter_is_antitone_witness :
  let props := ColorScale.mkColorScaleProps (Number.ofZ 10, Number.ofZ 0) false
                 [1; 2; 3] in
  let scale :=
    ColorScale.setDomain (Number.ofZ 10) (Number.ofZ 0)
      (ColorScale.create props) in
  (ColorScale.props_colors props <> [] /\
   Z.of_nat (List.length (ColorScale.colors scale)) < 2 ^ 32 /\
   isDouble (Number.ofZ 10) /\ isDouble (Number.ofZ 0) /\
   Number.ltb (Number.ofZ 0) (Number.ofZ 10) = true /\
   Number.leb (Number.ofZ 2) (Number.ofZ 7) = true /\
   Number.is_nan (ColorScale.scaled scale (Number.ofZ 2)) = false /\
   Number.is_nan (ColorScale.scaled scale (Number.ofZ 7)) = false) /\
  Number.leb (ColorScale.parameter scale (Number.ofZ 7))
    (ColorScale.parameter scale (Number.ofZ 2)) = true.
Proof.
  cbv zeta.
  assert (H1 : ColorScale.props_colors
    (ColorScale.mkColorScaleProps (Number.ofZ 10, Number.ofZ 0) false
       [1; 2; 3]) <> []) by discriminate.
  assert (H2 : Z.of_nat (List.length (ColorScale.colors
    (ColorScale.setDomain (Number.ofZ 10) (Number.ofZ 0)
       (ColorScale.create (ColorScale.mkColorScaleProps
          (Number.ofZ 10, Number.ofZ 0) false [1; 2; 3]))))) < 2 ^ 32)
    by reflexivity.
  assert (H3 : isDouble (Number.ofZ 10)) by (vm_compute; reflexivity).
  assert (H4 : isDouble (Number.ofZ 0)) by (vm_compute; reflexivity).
  assert (H5 : Number.ltb (Number.ofZ 0) (Number.ofZ 10) = true)
    by (vm_compute; reflexivity).
  assert (H6 : Number.leb (Number.ofZ 2) (Number.ofZ 7) = true)
    by (vm_compute; reflexivity).
  assert (H7 : Number.is_nan (ColorScale.scaled
    (ColorScale.setDomain (Number.ofZ 10) (Number.ofZ 0)
       (ColorScale.create (ColorScale.mkColorScaleProps
          (Number.ofZ 10, Number.ofZ 0) false [1; 2; 3])))
    (Number.ofZ 2)) = false) by (vm_compute; reflexivity).
  assert (H8 : Number.is_nan (ColorScale.scaled
    (ColorScale.setDomain (Number.ofZ 10) (Number.ofZ 0)
       (ColorScale.create (ColorScale.mkColorScaleProps
          (Number.ofZ 10, Number.ofZ 0) false [1; 2; 3])))
    (Number.ofZ 7)) = false) by (vm_compute; reflexivity).
  split; [repeat split; assumption|].
  exact (parameter_is_antitone_on_a_reversed_domain
    (ColorScale.mkColorScaleProps (Number.ofZ 10, Number.ofZ 0) false
       [1; 2; 3]) (Number.ofZ 10) (Number.ofZ 0) (Number.ofZ 2) (Number.ofZ 7)
    H1 H2 H3 H4 H5 H6 H7 H8).
Defined.

(** ** StructConn: the two indices *)

Section StructConnIndex.

Import StructConn.

Lemma pushEntry_lookup {K} `{Countable K} (index : gmap K (list Entry))
    (key key' : K) (e : Entry) :
  default [] (pushEntry index key e !! key')
  = default [] (index !! key') ++ (if decide (key = key') then [e] else []).
Proof.
  unfold pushEntry.
  destruct (decide (key = key')) as [<-|Hne].
  - destruct (index !! key) as [es|] eqn:Hk; rewrite lookup_insert_eq;
      reflexivity.
  - destruct (index !! key) as [es|] eqn:Hk;
      rewrite lookup_insert_ne by exact Hne; rewrite app_nil_r; reflexivity.
Qed.

(** A loop that pushes [e] under a key computed from each element. *)
Lemma push_loop_lookup {K} `{Countable K} {A} (keyOf : A -> option K)
    (e : Entry) (key' : K) (xs : list A) : forall index,
  default []
    (foldl (fun index x =>
              match keyOf x with
              | Some key => pushEntry index key e
              | None => index
              end) index xs !! key')
  = default [] (index !! key')
    ++ flat_map (fun x => match keyOf x with
                          | Some key => if decide (key = key') then [e] else []
                          | None => []
                          end) xs.
Proof.
  induction xs as [|x xs IH]; intros index; simpl.
  - rewrite app_nil_r. reflexivity.
  - rewrite IH. destruct (keyOf x) as [key|].
    + rewrite pushEntry_lookup, <- app_assoc. reflexivity.
    + reflexivity.
Qed.

Lemma atomIndex_entry_lookup index e a :
  default [] (atomIndex_entry index e !! a)
  = default [] (index !! a) ++ atomHits a e.
Proof.
  unfold atomIndex_entry, atomHits.
  rewrite (push_loop_lookup (fun p => Some (atomIndex p)) e a
             (partners e) index).
  f_equal. apply flat_map_ext. intros p.
  destruct (decide (atomIndex p = a)) as [->|Hne].
  - rewrite Z.eqb_refl. reflexivity.
  - rewrite (proj2 (Z.eqb_neq _ _) Hne). reflexivity.
Qed.

Lemma atomIndex_lookup a es : forall index,
  default [] (foldl atomIndex_entry index es !! a)
  = default [] (index !! a) ++ flat_map (atomHits a) es.
Proof.
  induction es as [|e es IH]; intros index; simpl.
  - rewrite app_nil_r. reflexivity.
  - rewrite IH, atomIndex_entry_lookup, <- app_assoc. reflexivity.
Qed.

Lemma residuePairIndex_entry_lookup index e key :
  default [] (residuePairIndex_entry index e !! key)
  = default [] (index !! key) ++ residueHits key e.
Proof.
  unfold residuePairIndex_entry, residueHits. cbv zeta.
  generalize (seq 0 (List.length (partners e) - 1)). intros is_.
  revert index. induction is_ as [|i is_ IH]; intros index; simpl.
  - rewrite app_nil_r. reflexivity.
  - rewrite IH, app_assoc. f_equal.
    generalize (seq (i + i) (List.length (partners e) - (i + i))).
    intros js. clear IH. revert index.
    induction js as [|j js IHj]; intros index; simpl.
    + rewrite app_nil_r. reflexivity.
    + rewrite IHj.
      destruct (partners e !! i) as [pi|]; [|reflexivity].
      destruct (partners e !! j) as [pj|]; [|reflexivity].
      rewrite pushEntry_lookup, <- app_assoc. reflexivity.
Qed.

Lemma residuePairIndex_lookup key es : forall index,
  default [] (foldl residuePairIndex_entry index es !! key)
  = default [] (index !! key) ++ flat_map (residueHits key) es.
Proof.
  induction es as [|e es IH]; intros index; simpl.
  - rewrite app_nil_r. reflexivity.
  - rewrite IH, residuePairIndex_entry_lookup, <- app_assoc. reflexivity.
Qed.

(** A query leaves the object as it is, or with the index it built. *)
Lemma getAtomIndex_ok sc :
  index_ok sc ->
  fst (getAtomIndex sc) = foldl atomIndex_entry ∅ (entries sc) /\
  index_ok (snd (getAtomIndex sc)) /\
  entries (snd (getAtomIndex sc)) = entries sc.
Proof.
  intros [Hr Ha]. unfold getAtomIndex.
  destruct Ha as [Ha|Ha]; rewrite Ha; simpl.
  - split; [reflexivity|]. split; [|reflexivity].
    split; simpl; [exact Hr | right; reflexivity].
  - split; [reflexivity|]. split; [|reflexivity].
    split; [exact Hr | right; exact Ha].
Qed.

Lemma getResiduePairIndex_ok sc :
  index_ok sc ->
  fst (getResiduePairIndex sc)
    = foldl residuePairIndex_entry ∅ (entries sc) /\
  index_ok (snd (getResiduePairIndex sc)) /\
  entries (snd (getResiduePairIndex sc)) = entries sc.
Proof.
  intros [Hr Ha]. unfold getResiduePairIndex.
  destruct Hr as [Hr|Hr]; rewrite Hr; simpl.
  - split; [reflexivity|]. split; [|reflexivity].
    split; simpl; [right; reflexivity | exact Ha].
  - split; [reflexivity|]. split; [|reflexivity].
    split; [right; exact Hr | exact Ha].
Qed.

Lemma getResidueEntries_hits sc a b :
  index_ok sc ->
  fst (getResidueEntries sc a b)
  = flat_map (residueHits (_resKey a b)) (entries sc).
Proof.
  intros Hok. unfold getResidueEntries.
  destruct (getResiduePairIndex_ok sc Hok) as (Hidx & _).
  destruct (getResiduePairIndex sc) as [index sc']. simpl in *.
  rewrite Hidx. unfold _emptyEntry.
  rewrite residuePairIndex_lookup, lookup_empty. reflexivity.
Qed.

(** What [residueHits] holds. *)
Lemma residueHits_In key e e' :
  In e' (residueHits key e) <->
  e' = e /\
  exists (i j : nat) pi pj,
    (i + 1 < List.length (partners e))%nat /\ (i + i <= j)%nat /\
    partners e !! i = Some pi /\ partners e !! j = Some pj /\
    _resKey (residueIndex pi) (residueIndex pj) = key.
Proof.
  unfold residueHits. cbv zeta. rewrite in_flat_map. split.
  - intros (i & Hi & Hin). apply in_seq in Hi.
    apply in_flat_map in Hin as (j & Hj & Hin). apply in_seq in Hj.
    destruct (partners e !! i) as [pi|] eqn:Hpi; [|destruct Hin].
    destruct (partners e !! j) as [pj|] eqn:Hpj; [|destruct Hin].
    destruct (decide (_resKey (residueIndex pi) (residueIndex pj) = key))
      as [Hk|Hk]; [|destruct Hin].
    destruct Hin as [<-|[]]. split; [reflexivity|].
    exists i, j, pi, pj. repeat split; try assumption; lia.
  - intros (-> & i & j & pi & pj & Hi & Hj & Hpi & Hpj & Hk).
    assert (Hjl : (j < List.length (partners e))%nat)
      by (apply lookup_lt_Some in Hpj; exact Hpj).
    exists i. split; [apply in_seq; lia|].
    apply in_flat_map. exists j. split; [apply in_seq; lia|].
    rewrite Hpi, Hpj.
    destruct (decide (_resKey (residueIndex pi) (residueIndex pj) = key));
      [left; reflexivity | contradiction].
Qed.

(** Decimal numerals hold no dash. *)
Lemma pretty_N_go_noDash (x : N) : forall s,
  noDash s -> noDash (pretty_N_go x s).
Proof.
  induction (N.lt_wf_0 x) as [x _ IH]. intros s Hs.
  destruct (N.eq_dec x 0%N) as [->|Hx].
  - rewrite pretty_N_go_0. exact Hs.
  - rewrite pretty_N_go_step by lia. apply IH.
    + apply N.div_lt; lia.
    + split; [|exact Hs]. unfold pretty_N_char.
      repeat case_match; discriminate.
Qed.

Lemma pretty_noDash (x : Z) : 0 <= x -> noDash (pretty x).
Proof.
  intros Hx. destruct x as [|p|p]; [| |lia].
  - simpl. split; [discriminate | exact I].
  - change (pretty (Z.pos p)) with (pretty (N.pos p)).
    unfold pretty, pretty_N. destruct (decide (N.pos p = 0%N)); [discriminate|].
    apply pretty_N_go_noDash. exact I.
Qed.

Lemma append_nil_l (s : string) : EmptyString +:+ s = s.
Proof. reflexivity. Qed.

Lemma append_cons (c : ascii) (s t : string) :
  String c s +:+ t = String c (s +:+ t).
Proof. reflexivity. Qed.

(** A dash splits two strings without dashes in one way only. *)
Lemma dash_split (s1 : string) : forall s2 t1 t2,
  noDash s1 -> noDash s2 ->
  s1 +:+ "-" +:+ t1 = s2 +:+ "-" +:+ t2 -> s1 = s2 /\ t1 = t2.
Proof.
  induction s1 as [|c s1 IH]; intros [|c2 s2] t1 t2 H1 H2 Heq;
    repeat (rewrite append_nil_l in Heq || rewrite append_cons in Heq);
    simpl in H1, H2.
  - injection Heq as ->. split; reflexivity.
  - injection Heq as Hc _. destruct H2 as [Hd _]. congruence.
  - injection Heq as Hc _. destruct H1 as [Hd _]. congruence.
  - injection Heq as -> Hrest. destruct H1 as [_ H1]. destruct H2 as [_ H2].
    destruct (IH s2 t1 t2 H1 H2 Hrest) as [-> ->]. split; reflexivity.
Qed.

Lemma _resKey_min_max a b :
  _resKey a b = pretty (Z.min a b) +:+ "-" +:+ pretty (Z.max a b).
Proof.
  unfold _resKey. destruct (a <? b) eqn:Hab.
  - apply Z.ltb_lt in Hab. rewrite Z.min_l, Z.max_r by lia. reflexivity.
  - apply Z.ltb_ge in Hab. rewrite Z.min_r, Z.max_l by lia. reflexivity.
Qed.

Lemma _resKey_inj a b c d :
  0 <= a -> 0 <= b -> 0 <= c -> 0 <= d ->
  _resKey a b = _resKey c d ->
  (a = c /\ b = d) \/ (a = d /\ b = c).
Proof.
  intros Ha Hb Hc Hd Heq. rewrite !_resKey_min_max in Heq.
  apply dash_split in Heq as [Hmin Hmax];
    [|apply pretty_noDash; lia | apply pretty_noDash; lia].
  apply (inj pretty) in Hmin. apply (inj pretty) in Hmax. lia.
Qed.

Lemma _resKey_sym a b : _resKey a b = _resKey b a.
Proof.
  rewrite !_resKey_min_max, Z.min_comm, Z.max_comm. reflexivity.
Qed.

End StructConnIndex.

(** X13. [_resKey] names the unordered pair of its arguments: for residue
    indices that are not negative, two calls give the same key exactly when
    they were given the same two indices, in the same or in the opposite
    order. *)
Theorem resKey_identifies_the_residue_pair (a b c d : Z) :
  0 <= a -> 0 <= b -> 0 <= c -> 0 <= d ->
  (StructConn._resKey a b = StructConn._resKey c d <->
   (a = c /\ b = d) \/ (a = d /\ b = c)).
Proof.
  intros Ha Hb Hc Hd. split.
  - apply _resKey_inj; assumption.
  - intros [[-> ->]|[-> ->]]; [reflexivity | apply _resKey_sym].
Qed.

(** The theorem at the residues 12 and 3: the key is ["3-12"] both ways. *)
Lemma resKey_identifies_witness :
  (0 <= 12 /\ 0 <= 3) /\
  StructConn._resKey 12 3 = "3-12" /\
  StructConn._resKey 12 3 = StructConn._resKey 3 12.
Proof.
  assert (H12 : 0 <= 12) by lia. assert (H3 : 0 <= 3) by lia.
  split; [split; assumption|]. split; [reflexivity|].
  apply (resKey_identifies_the_residue_pair 12 3 3 12 H12 H3 H3 H12).
  right. split; reflexivity.
Defined.

(** X14. [getAtomEntries] returns the entries that have the atom as a
    partner, in the order of [entries], once for each partner that is this
    atom, and nothing else; the call changes nothing but the index it may
    have built. *)
Theorem getAtomEntries_returns_the_entries_of_the_atom
    (sc : StructConn.StructConnImpl) (a : Z) :
  index_ok sc ->
  let r := StructConn.getAtomEntries sc a in
  fst r = flat_map (atomHits a) (StructConn.entries sc) /\
  (forall e, In e (fst r) <->
     In e (StructConn.entries sc) /\
     exists p, In p (StructConn.partners e) /\ StructConn.atomIndex p = a) /\
  index_ok (snd r) /\ StructConn.entries (snd r) = StructConn.entries sc.
Proof.
  intros Hok. cbv zeta. unfold StructConn.getAtomEntries.
  destruct (getAtomIndex_ok sc Hok) as (Hidx & Hok' & Hentries).
  destruct (StructConn.getAtomIndex sc) as [index sc']. simpl in *.
  assert (Hres : default StructConn._emptyEntry (index !! a)
                 = flat_map (atomHits a) (StructConn.entries sc)).
  { rewrite Hidx. unfold StructConn._emptyEntry.
    rewrite atomIndex_lookup, lookup_empty. reflexivity. }
  split; [exact Hres|]. split; [|split; assumption].
  intros e. rewrite Hres, in_flat_map. unfold atomHits. split.
  - intros (e0 & He0 & Hin). apply in_flat_map in Hin as (p & Hp & Hin).
    destruct (StructConn.atomIndex p =? a) eqn:Hpa; [|destruct Hin].
    destruct Hin as [<-|[]]. split; [exact He0|].
    exists p. split; [exact Hp | apply Z.eqb_eq; exact Hpa].
  - intros (He & p & Hp & Hpa). exists e. split; [exact He|].
    apply in_flat_map. exists p. split; [exact Hp|].
    rewrite (proj2 (Z.eqb_eq _ _) Hpa). left. reflexivity.
Qed.

(** The theorem at two links that share atom 7. *)
Lemma getAtomEntries_witness :
  let e1 := StructConn.mkEntry 2 1 0
              [StructConn.mkPartner 0 7 "1_555";
               StructConn.mkPartner 1 9 "1_555"] in
  let e2 := StructConn.mkEntry 3 1 0
              [StructConn.mkPartner 2 11 "1_555";
               StructConn.mkPartner 0 7 "1_555"] in
  let sc := StructConn.StructConnImpl_new [e1; e2] in
  index_ok sc /\
  fst (StructConn.getAtomEntries sc 7) = [e1; e2] /\
  fst (StructConn.getAtomEntries sc 9) = [e1] /\
  fst (StructConn.getAtomEntries sc 8) = [].
Proof.
  cbv zeta.
  set (e1 := StructConn.mkEntry 2 1 0
              [StructConn.mkPartner 0 7 "1_555";
               StructConn.mkPartner 1 9 "1_555"]).
  set (e2 := StructConn.mkEntry 3 1 0
              [StructConn.mkPartner 2 11 "1_555";
               StructConn.mkPartner 0 7 "1_555"]).
  assert (Hok : index_ok (StructConn.StructConnImpl_new [e1; e2]))
    by (split; left; reflexivity).
  split; [exact Hok|].
  split; [|split].
  - exact (proj1 (getAtomEntries_returns_the_entries_of_the_atom _ 7 Hok)).
  - exact (proj1 (getAtomEntries_returns_the_entries_of_the_atom _ 9 Hok)).
  - exact (proj1 (getAtomEntries_returns_the_entries_of_the_atom _ 8 Hok)).
Defined.

(** X15. [getResidueEntries] returns entries of the object only, and an
    entry is among them exactly when the two residues asked for are those
    of two of its partners as the index loops pair them: the partner at a
    position [i < l - 1] with the partner at a position [j] from [i + i] on,
    in either order.  Residue indices are taken not to be negative. *)
Theorem getResidueEntries_returns_the_entries_of_the_pair
    (sc : StructConn.StructConnImpl) (ra rb : Z) :
  index_ok sc ->
  (forall e p, In e (StructConn.entries sc) -> In p (StructConn.partners e) ->
     0 <= StructConn.residueIndex p) ->
  0 <= ra -> 0 <= rb ->
  let r := StructConn.getResidueEntries sc ra rb in
  (forall e, In e (fst r) <->
     In e (StructConn.entries sc) /\ linksResidues e ra rb) /\
  index_ok (snd r) /\ StructConn.entries (snd r) = StructConn.entries sc.
Proof.
  intros Hok Hpos Ha Hb. cbv zeta. split.
  - intros e. rewrite (getResidueEntries_hits sc ra rb Hok), in_flat_map.
    split.
    + intros (e0 & He0 & Hin).
      apply residueHits_In in Hin as (-> & i & j & pi & pj & Hi & Hj & Hpi
                                        & Hpj & Hkey).
      split; [exact He0|].
      exists i, j, pi, pj.
      split; [exact Hi|]. split; [exact Hj|].
      split; [exact Hpi|]. split; [exact Hpj|].
      apply _resKey_inj in Hkey; [exact Hkey | | | exact Ha | exact Hb].
      * apply (Hpos e0 pi He0). eapply list_elem_of_In, list_elem_of_lookup_2.
        exact Hpi.
      * apply (Hpos e0 pj He0). eapply list_elem_of_In, list_elem_of_lookup_2.
        exact Hpj.
    + intros (He & i & j & pi & pj & Hi & Hj & Hpi & Hpj & Hres).
      exists e. split; [exact He|].
      apply residueHits_In. split; [reflexivity|].
      exists i, j, pi, pj.
      split; [exact Hi|]. split; [exact Hj|].
      split; [exact Hpi|]. split; [exact Hpj|].
      destruct Hres as [[-> ->]|[-> ->]]; [reflexivity | apply _resKey_sym].
  - unfold StructConn.getResidueEntries.
    destruct (getResiduePairIndex_ok sc Hok) as (_ & Hok' & Hentries).
    destruct (StructConn.getResiduePairIndex sc) as [index sc'].
    simpl in *. split; assumption.
Qed.

(** The theorem at one link between the residues 4 and 9. *)
Lemma getResidueEntries_witness :
  let e := StructConn.mkEntry 2 1 0
             [StructConn.mkPartner 4 40 "1_555";
              StructConn.mkPartner 9 90 "1_555"] in
  let sc := StructConn.StructConnImpl_new [e] in
  (index_ok sc /\ 0 <= 9 /\ 0 <= 4) /\
  fst (StructConn.getResidueEntries sc 9 4) = [e] /\
  (forall e', In e' (fst (StructConn.getResidueEntries sc 9 4)) <->
     In e' (StructConn.entries sc) /\ linksResidues e' 9 4).
Proof.
  cbv zeta.
  set (e := StructConn.mkEntry 2 1 0
             [StructConn.mkPartner 4 40 "1_555";
              StructConn.mkPartner 9 90 "1_555"]).
  assert (Hok : index_ok (StructConn.StructConnImpl_new [e]))
    by (split; left; reflexivity).
  assert (H9 : 0 <= 9) by lia. assert (H4 : 0 <= 4) by lia.
  assert (Hpos : forall e' p,
            In e' (StructConn.entries (StructConn.StructConnImpl_new [e])) ->
            In p (StructConn.partners e') -> 0 <= StructConn.residueIndex p).
  { intros e' p [<-|[]] [<-|[<-|[]]]; simpl; lia. }
  split; [auto|]. split; [reflexivity|].
  exact (proj1 (getResidueEntries_returns_the_entries_of_the_pair
                  _ 9 4 Hok Hpos H9 H4)).
Defined.

(** X16. [getResidueEntries] does not depend on the order of its two
    arguments, and it finds every link of two partners under the residues
    of its partners.  With the inner loop starting at [i + i], such a link
    is also found under the residue of its first partner paired with
    itself. *)
Theorem links_are_found_under_their_residues
    (sc : StructConn.StructConnImpl) :
  index_ok sc ->
  (forall ra rb,
     fst (StructConn.getResidueEntries sc ra rb)
     = fst (StructConn.getResidueEntries sc rb ra)) /\
  (forall e p q,
     In e (StructConn.entries sc) -> StructConn.partners e = [p; q] ->
     In e (fst (StructConn.getResidueEntries sc
                  (StructConn.residueIndex p) (StructConn.residueIndex q))) /\
     In e (fst (StructConn.getResidueEntries sc
                  (StructConn.residueIndex p) (StructConn.residueIndex p)))).
Proof.
  intros Hok. split.
  - intros ra rb. rewrite !getResidueEntries_hits by exact Hok.
    rewrite (_resKey_sym ra rb). reflexivity.
  - intros e p q He Hps.
    rewrite !getResidueEntries_hits by exact Hok.
    split; apply in_flat_map; exists e; (split; [exact He|]);
      apply residueHits_In; (split; [reflexivity|]).
    + exists 0%nat, 1%nat, p, q. rewrite Hps. simpl.
      repeat split; try reflexivity; lia.
    + exists 0%nat, 0%nat, p, p. rewrite Hps. simpl.
      repeat split; try reflexivity; lia.
Qed.

(** The theorem at one link between the residues 4 and 9. *)
Lemma links_are_found_witness :
  let e := StructConn.mkEntry 2 1 0
             [StructConn.mkPartner 4 40 "1_555";
              StructConn.mkPartner 9 90 "1_555"] in
  let sc := StructConn.StructConnImpl_new [e] in
  index_ok sc /\
  fst (StructConn.getResidueEntries sc 4 9)
  = fst (StructConn.getResidueEntries sc 9 4) /\
  fst (StructConn.getResidueEntries sc 4 4) = [e] /\
  fst (StructConn.getResidueEntries sc 9 9) = [].
Proof.
  cbv zeta.
  set (e := StructConn.mkEntry 2 1 0
             [StructConn.mkPartner 4 40 "1_555";
              StructConn.mkPartner 9 90 "1_555"]).
  assert (Hok : index_ok (StructConn.StructConnImpl_new [e]))
    by (split; left; reflexivity).
  split; [exact Hok|].
  split; [|split; reflexivity].
  exact (proj1 (links_are_found_under_their_residues _ Hok) 4 9).
Defined.

(** ** The progress tree printer *)

Section MessageTree.

Import ProgressTree.

Lemma append_assoc (s t u : string) : (s +:+ t) +:+ u = s +:+ t +:+ u.
Proof.
  induction s as [|c s IH]; [reflexivity|].
  rewrite !append_cons, IH. reflexivity.
Qed.

(** Induction over a tree and the trees below it. *)
Lemma Node_forall_ind (P : Node -> Prop) :
  (forall t m cs, Forall P cs -> P (mkNode t m cs)) -> forall n, P n.
Proof.
  intros Hnode. fix IH 1. intros [t m cs]. apply Hnode.
  induction cs as [|c cs IHcs]; constructor; [apply IH | exact IHcs].
Qed.

Lemma preorder_nonempty d n : preorder d n <> [].
Proof. destruct n. discriminate. Qed.

(** [join] over a list cut in two. *)
Lemma concat_sep_app sep (l1 l2 : list string) :
  l1 <> [] -> l2 <> [] ->
  String.concat sep (l1 ++ l2)
  = String.concat sep l1 +:+ sep +:+ String.concat sep l2.
Proof.
  intros H1 H2. induction l1 as [|x l1 IH]; [congruence|].
  destruct l1 as [|y l1].
  - destruct l2 as [|z l2]; [congruence|]. reflexivity.
  - change (String.concat sep ((x :: y :: l1) ++ l2))
      with (x +:+ sep +:+ String.concat sep ((y :: l1) ++ l2)).
    rewrite IH by discriminate.
    change (String.concat sep (x :: y :: l1))
      with (x +:+ sep +:+ String.concat sep (y :: l1)).
    rewrite !append_assoc. reflexivity.
Qed.

(** Joining joined blocks is joining all of their lines. *)
Lemma concat_sep_concat sep (blocks : list (list string)) :
  Forall (fun l => l <> []) blocks ->
  String.concat sep (map (String.concat sep) blocks)
  = String.concat sep (concat blocks).
Proof.
  induction 1 as [|l blocks Hl Hall IH]; [reflexivity|].
  destruct blocks as [|l' blocks].
  - simpl. rewrite app_nil_r. reflexivity.
  - change (String.concat sep (map (String.concat sep) (l :: l' :: blocks)))
      with (String.concat sep l +:+ sep
            +:+ String.concat sep (map (String.concat sep) (l' :: blocks))).
    rewrite IH.
    change (concat (l :: l' :: blocks)) with (l ++ concat (l' :: blocks)).
    rewrite concat_sep_app; [reflexivity | exact Hl |].
    apply Forall_cons in Hall as [Hl' _].
    simpl. destruct l'; [congruence | discriminate].
Qed.

End MessageTree.

(** X17. [messageTree] prints one line per node of the progress tree,
    parents before their children and children in order, each line made of
    the prefix, one [  |_ ] marker per level of depth, the task name, a
    colon and the message; the lines are joined by line breaks. *)
Theorem messageTree_prints_the_nodes_in_preorder
    (root : ProgressTree.Node) (prefix : string) :
  ProgressTree.messageTree root prefix
  = String.concat ProgressTree.newline
      (map (renderLine prefix) (preorder 0 root)).
Proof.
  assert (Hgen : forall n d,
    ProgressTree.messageTree n (prefix +:+ indent d)
    = String.concat ProgressTree.newline
        (map (renderLine prefix) (preorder d n))).
  { induction n as [t m cs IH] using Node_forall_ind. intros d.
    destruct cs as [|c cs].
    - simpl. unfold renderLine. simpl. rewrite !append_assoc. reflexivity.
    - set (kids := c :: cs) in *.
      assert (Hkids :
        map (fun k => ProgressTree.messageTree k
                        ((prefix +:+ indent d) +:+ "  |_ ")) kids
        = map (String.concat ProgressTree.newline)
            (map (fun k => map (renderLine prefix) (preorder (S d) k)) kids)).
      { rewrite map_map. apply map_ext_Forall.
        eapply Forall_impl; [exact IH|]. intros k Hk. simpl in Hk.
        rewrite append_assoc. exact (Hk (S d)). }
      change (ProgressTree.messageTree (ProgressTree.mkNode t m kids)
                (prefix +:+ indent d))
        with ((prefix +:+ indent d) +:+ t +:+ ": " +:+ m
              +:+ ProgressTree.newline
              +:+ String.concat ProgressTree.newline
                    (map (fun k => ProgressTree.messageTree k
                                     ((prefix +:+ indent d) +:+ "  |_ "))
                       kids)).
      rewrite Hkids, concat_sep_concat.
      2:{ apply Forall_map, Forall_forall. intros k _.
          pose proof (preorder_nonempty (S d) k) as Hne.
          destruct (preorder (S d) k); [congruence | discriminate]. }
      change (preorder d (ProgressTree.mkNode t m kids))
        with ((d, ProgressTree.mkNode t m kids)
              :: concat (map (preorder (S d)) kids)).
      rewrite map_cons.
      change (renderLine prefix (d, ProgressTree.mkNode t m kids)
              :: map (renderLine prefix) (concat (map (preorder (S d)) kids)))
        with ([renderLine prefix (d, ProgressTree.mkNode t m kids)]
              ++ map (renderLine prefix)
                   (concat (map (preorder (S d)) kids))).
      rewrite concat_sep_app; [|discriminate|].
      2:{ unfold kids. simpl.
          pose proof (preorder_nonempty (S d) c) as Hne.
          destruct (preorder (S d) c); [congruence | discriminate]. }
      assert (Hlines :
        concat (map (fun k => map (renderLine prefix) (preorder (S d) k)) kids)
        = map (renderLine prefix) (concat (map (preorder (S d)) kids))).
      { rewrite concat_map, map_map. reflexivity. }
      assert (Hline :
        String.concat ProgressTree.newline
          [renderLine prefix (d, ProgressTree.mkNode t m kids)]
        = prefix +:+ indent d +:+ t +:+ ": " +:+ m) by reflexivity.
      rewrite Hlines, Hline, !append_assoc. reflexivity. }
  rewrite <- (Hgen root 0%nat). simpl indent.
  f_equal. clear Hgen. induction prefix as [|c p IH]; [reflexivity|].
  rewrite append_cons, <- IH. reflexivity.
Qed.

(** ** The reference atom of a link *)

Section ReferencePosition.

Import IntraUnitLink.

Lemma firstOther_spec arr other il fuel : forall i,
  il - i <= Z.of_nat fuel ->
  match firstOther fuel arr other i il with
  | Some x => firstDiffering arr other i il x
  | None => allEqual arr other i il
  end.
Proof.
  induction fuel as [|f IH]; intros i Hfuel; simpl.
  - destruct (i <? il) eqn:Hlt; intros k Hk; lia.
  - destruct (i <? il) eqn:Hlt; [|apply Z.ltb_ge in Hlt; intros k Hk; lia].
    apply Z.ltb_lt in Hlt.
    destruct (decide (JS.readIndex arr i = other)) as [Heq|Hne].
    + specialize (IH (i + 1)).
      destruct (firstOther f arr other (i + 1) il) as [x|].
      * destruct IH as (j & Hj & Hx & Hneq & Hbefore); [lia|].
        exists j. split; [lia|]. split; [exact Hx|]. split; [exact Hneq|].
        intros k Hk. destruct (Z.eq_dec k i) as [->|Hki]; [exact Heq|].
        apply Hbefore. lia.
      * intros k Hk. destruct (Z.eq_dec k i) as [->|Hki]; [exact Heq|].
        apply IH; lia.
    + exists i. split; [lia|]. split; [reflexivity|]. split; [exact Hne|].
      intros k Hk. lia.
Qed.

Lemma scanEdges_spec links arr v other s e :
  JS.readIndex (offset links) v = Some s ->
  JS.readIndex (offset links) (v + 1) = Some e ->
  match scanEdges links arr (Some v) other with
  | Some x => firstDiffering arr other s e x
  | None => allEqual arr other s e
  end.
Proof.
  intros Hs He. unfold scanEdges. simpl. rewrite Hs, He.
  apply firstOther_spec. lia.
Qed.

(** The two ends of the edge, smaller first. *)
Lemma referencePosition_sorted links edgeIndex u v :
  JS.readIndex (a links) edgeIndex = Some u ->
  JS.readIndex (b links) edgeIndex = Some v ->
  referencePosition links edgeIndex =
  match scanEdges links (b links) (Some (Z.min u v)) (Some (Z.max u v)) with
  | Some x => Some x
  | None =>
    match scanEdges links (a links) (Some (Z.max u v)) (Some (Z.min u v)) with
    | Some x => Some x
    | None => None
    end
  end.
Proof.
  intros Hu Hv. unfold referencePosition. rewrite Hu, Hv.
  destruct (v <? u) eqn:Hlt.
  - apply Z.ltb_lt in Hlt. rewrite Z.min_r, Z.max_l by lia. reflexivity.
  - apply Z.ltb_ge in Hlt. rewrite Z.min_l, Z.max_r by lia. reflexivity.
Qed.

End ReferencePosition.

(** X18. For an edge between the atoms [u] and [v], [referencePosition]
    looks for a third atom: it takes the first entry of [b] in the edge
    range of the smaller of [u] and [v] that is not the larger one; failing
    that, the first entry of [a] in the edge range of the larger one that is
    not the smaller one; and it returns [null] exactly when neither range
    holds such an entry. *)
Theorem referencePosition_takes_the_first_other_neighbour
    (links : IntraUnitLink.Links) (edgeIndex u v s1 e1 s2 e2 : Z) :
  JS.readIndex (IntraUnitLink.a links) edgeIndex = Some u ->
  JS.readIndex (IntraUnitLink.b links) edgeIndex = Some v ->
  JS.readIndex (IntraUnitLink.offset links) (Z.min u v) = Some s1 ->
  JS.readIndex (IntraUnitLink.offset links) (Z.min u v + 1) = Some e1 ->
  JS.readIndex (IntraUnitLink.offset links) (Z.max u v) = Some s2 ->
  JS.readIndex (IntraUnitLink.offset links) (Z.max u v + 1) = Some e2 ->
  match IntraUnitLink.referencePosition links edgeIndex with
  | Some x =>
    firstDiffering (IntraUnitLink.b links) (Some (Z.max u v)) s1 e1 x \/
    (allEqual (IntraUnitLink.b links) (Some (Z.max u v)) s1 e1 /\
     firstDiffering (IntraUnitLink.a links) (Some (Z.min u v)) s2 e2 x)
  | None =>
    allEqual (IntraUnitLink.b links) (Some (Z.max u v)) s1 e1 /\
    allEqual (IntraUnitLink.a links) (Some (Z.min u v)) s2 e2
  end.
Proof.
  intros Hu Hv Hs1 He1 Hs2 He2.
  rewrite (referencePosition_sorted links edgeIndex u v Hu Hv).
  pose proof (scanEdges_spec links (IntraUnitLink.b links) (Z.min u v)
                (Some (Z.max u v)) s1 e1 Hs1 He1) as H1.
  pose proof (scanEdges_spec links (IntraUnitLink.a links) (Z.max u v)
                (Some (Z.min u v)) s2 e2 Hs2 He2) as H2.
  destruct (IntraUnitLink.scanEdges links (IntraUnitLink.b links)
              (Some (Z.min u v)) (Some (Z.max u v))) as [x|].
  - left. exact H1.
  - destruct (IntraUnitLink.scanEdges links (IntraUnitLink.a links)
                (Some (Z.max u v)) (Some (Z.min u v))) as [x|].
    + right. split; assumption.
    + split; assumption.
Qed.

(** The theorem at the path 0 - 1 - 2, each edge stored in both
    directions: the reference of the edge from 1 to 2 is atom 0. *)
Lemma referencePosition_witness :
  let links := IntraUnitLink.mkLinks [0; 1; 1; 2] [1; 0; 2; 1] [0; 1; 3; 4] in
  (JS.readIndex (IntraUnitLink.a links) 2 = Some 1 /\
   JS.readIndex (IntraUnitLink.b links) 2 = Some 2) /\
  IntraUnitLink.referencePosition links 2 = Some (Some 0) /\
  (firstDiffering (IntraUnitLink.b links) (Some 2) 1 3 (Some 0) \/
   (allEqual (IntraUnitLink.b links) (Some 2) 1 3 /\
    firstDiffering (IntraUnitLink.a links) (Some 1) 3 4 (Some 0))).
Proof.
  cbv zeta.
  set (links := IntraUnitLink.mkLinks [0; 1; 1; 2] [1; 0; 2; 1] [0; 1; 3; 4]).
  assert (Hu : JS.readIndex (IntraUnitLink.a links) 2 = Some 1) by reflexivity.
  assert (Hv : JS.readIndex (IntraUnitLink.b links) 2 = Some 2) by reflexivity.
  split; [split; assumption|]. split; [reflexivity|].
  exact (referencePosition_takes_the_first_other_neighbour links 2 1 2 1 3 3 4
           Hu Hv eq_refl eq_refl eq_refl eq_refl).
Defined.

(** X19. Both directions of a link get the same reference:
    [referencePosition] gives the same result for two edge indices whose
    ends are the same two atoms in opposite order. *)
Theorem referencePosition_is_the_same_for_both_directions
    (links : IntraUnitLink.Links) (edge back u v : Z) :
  JS.readIndex (IntraUnitLink.a links) edge = Some u ->
  JS.readIndex (IntraUnitLink.b links) edge = Some v ->
  JS.readIndex (IntraUnitLink.a links) back = Some v ->
  JS.readIndex (IntraUnitLink.b links) back = Some u ->
  IntraUnitLink.referencePosition links edge
  = IntraUnitLink.referencePosition links back.
Proof.
  intros Hu Hv Hv' Hu'.
  rewrite (referencePosition_sorted links edge u v Hu Hv).
  rewrite (referencePosition_sorted links back v u Hv' Hu').
  rewrite (Z.min_comm v u), (Z.max_comm v u). reflexivity.
Qed.

(** The theorem at the two directions of the edge 1 - 2 of the path
    0 - 1 - 2. *)
Lemma referencePosition_directions_witness :
  let links := IntraUnitLink.mkLinks [0; 1; 1; 2] [1; 0; 2; 1] [0; 1; 3; 4] in
  IntraUnitLink.referencePosition links 2
  = IntraUnitLink.referencePosition links 3 /\
  IntraUnitLink.referencePosition links 3 = Some (Some 0).
Proof.
  cbv zeta. split; [|reflexivity].
  exact (referencePosition_is_the_same_for_both_directions
           (IntraUnitLink.mkLinks [0; 1; 1; 2] [1; 0; 2; 1] [0; 1; 3; 4])
           2 3 1 2 eq_refl eq_refl eq_refl eq_refl).
Defined.

(** ** StructConn: the entries that [fromModel] builds *)

Section FromModel.

Import StructConn.

Variables Flag_None Flag_Covalent Flag_Sulfide Flag_Hydrogen
  Flag_MetallicCoordination Flag_Ion : Z.
Variable toLowerCase : string -> string.

Local Abbreviation entryOfRow :=
  (entryOfRow Flag_None Flag_Covalent Flag_Sulfide Flag_Hydrogen
     Flag_MetallicCoordination Flag_Ion toLowerCase).
Local Abbreviation fromModel :=
  (fromModel Flag_None Flag_Covalent Flag_Sulfide Flag_Hydrogen
     Flag_MetallicCoordination Flag_Ion toLowerCase).

(** A partner that [_p] returns was resolved in the model. *)
Lemma _p_Some ps p :
  _p ps = Some p ->
  0 <= residueIndex p /\ 0 <= atomIndex p /\ symmetry p <> EmptyString /\
  residueIndex p = findResidueKey ps /\
  atomIndex p = findAtomIndexByLabelName ps.
Proof.
  unfold _p. cbv zeta.
  destruct (label_asym_id_present ps); [|discriminate]. simpl.
  destruct (findResidueKey ps <? 0) eqn:Hr; [discriminate|].
  destruct (String.eqb (label_atom_id ps) EmptyString); [discriminate|].
  destruct (findAtomIndexByLabelName ps <? 0) eqn:Ha; [discriminate|].
  intros [= <-]. simpl.
  apply Z.ltb_ge in Hr. apply Z.ltb_ge in Ha.
  split; [exact Hr|]. split; [exact Ha|]. split; [|split; reflexivity].
  destruct (String.eqb (symmetry_value ps) EmptyString) eqn:Hs;
    [discriminate|].
  apply String.eqb_neq. exact Hs.
Qed.

(** A row becomes an entry exactly when both of its partners resolve. *)
Lemma entryOfRow_Some row e :
  entryOfRow row = Some e ->
  exists p q,
    partners e = [p; q] /\
    _p (ptnr1 row) = Some p /\ _p (ptnr2 row) = Some q /\
    1 <= order e <= 4 /\ distance e = pdbx_dist_value row.
Proof.
  unfold StructConn.entryOfRow, _ps. cbv zeta.
  destruct (_p (ptnr1 row)) as [p|]; destruct (_p (ptnr2 row)) as [q|];
    simpl; try discriminate.
  intros [= <-]. exists p, q. simpl.
  split; [reflexivity|]. split; [reflexivity|]. split; [reflexivity|].
  split; [|reflexivity].
  repeat match goal with
         | |- context [if ?c then _ else _] => destruct c
         end; lia.
Qed.

Lemma entryOfRow_None row :
  entryOfRow row = None <->
  _p (ptnr1 row) = None \/ _p (ptnr2 row) = None.
Proof.
  unfold StructConn.entryOfRow, _ps. cbv zeta.
  destruct (_p (ptnr1 row)) as [p|]; destruct (_p (ptnr2 row)) as [q|];
    simpl; split; try discriminate; auto; intros [H|H]; discriminate.
Qed.

(** The loop over the rows keeps the entries it has and adds those of the
    rows, in order. *)
Lemma rows_loop rows : forall entries,
  foldl (fun entries row =>
           match entryOfRow row with
           | Some e => entries ++ [e]
           | None => entries
           end) entries rows
  = entries ++ omap entryOfRow rows.
Proof.
  induction rows as [|row rows IH]; intros entries; simpl.
  - rewrite app_nil_r. reflexivity.
  - rewrite IH. destruct (entryOfRow row) as [e|]; [|reflexivity].
    rewrite <- app_assoc. reflexivity.
Qed.

Lemma fromModel_fresh model :
  _staticPropertyData model = None ->
  sourceData_kind model = "mmCIF" -> struct_conn model <> [] ->
  fromModel model
  = (Some (StructConnImpl_new (omap entryOfRow (struct_conn model))),
     mkModel (Some (StructConnImpl_new (omap entryOfRow (struct_conn model))))
       (sourceData_kind model) (struct_conn model)).
Proof.
  intros Hcache Hkind Hrows. unfold StructConn.fromModel.
  rewrite Hcache, Hkind. simpl.
  destruct (struct_conn model) as [|row rows] eqn:Hr; [congruence|].
  cbn [List.length Nat.eqb]. cbv zeta. rewrite rows_loop. reflexivity.
Qed.

End FromModel.

(** X20. On a model without a cached property, [fromModel] returns
    [undefined] exactly when the source is not mmCIF or the [struct_conn]
    table has no rows.  Otherwise it returns a new object, stored in the
    model, whose entries are those of the rows both of whose partners
    resolve, in the order of the rows; every entry has exactly two partners,
    with residue and atom indices that are not negative and a symmetry that
    is not empty, and an order from 1 to 4. *)
Theorem fromModel_builds_links_of_two_resolved_partners
    (fNone fCovalent fSulfide fHydrogen fMetallic fIon : Z)
    (toLowerCase : string -> string) (model : StructConn.Model) :
  StructConn._staticPropertyData model = None ->
  let r := StructConn.fromModel fNone fCovalent fSulfide fHydrogen fMetallic
             fIon toLowerCase model in
  match fst r with
  | None =>
    StructConn.sourceData_kind model <> "mmCIF" \/
    StructConn.struct_conn model = []
  | Some sc =>
    StructConn.sourceData_kind model = "mmCIF" /\
    StructConn.struct_conn model <> [] /\
    StructConn._staticPropertyData (snd r) = Some sc /\
    index_ok sc /\
    StructConn.entries sc
      = omap (StructConn.entryOfRow fNone fCovalent fSulfide fHydrogen
                fMetallic fIon toLowerCase) (StructConn.struct_conn model) /\
    Forall (fun e =>
      exists p q,
        StructConn.partners e = [p; q] /\
        0 <= StructConn.residueIndex p /\ 0 <= StructConn.residueIndex q /\
        0 <= StructConn.atomIndex p /\ 0 <= StructConn.atomIndex q /\
        StructConn.symmetry p <> EmptyString /\
        StructConn.symmetry q <> EmptyString /\
        1 <= StructConn.order e <= 4) (StructConn.entries sc)
  end.
Proof.
  intros Hcache. cbv zeta.
  destruct (String.eqb (StructConn.sourceData_kind model) "mmCIF") eqn:Hkind.
  2:{ unfold StructConn.fromModel. rewrite Hcache, Hkind. simpl.
      left. apply String.eqb_neq. exact Hkind. }
  apply String.eqb_eq in Hkind.
  destruct (StructConn.struct_conn model) as [|row rows] eqn:Hrows.
  { unfold StructConn.fromModel. rewrite Hcache, Hkind, Hrows. simpl.
    right. reflexivity. }
  rewrite <- Hrows.
  rewrite (fromModel_fresh fNone fCovalent fSulfide fHydrogen fMetallic fIon
             toLowerCase model Hcache Hkind) by (rewrite Hrows; discriminate).
  simpl.
  split; [exact Hkind|]. split; [rewrite Hrows; discriminate|].
  split; [reflexivity|]. split; [split; left; reflexivity|].
  split; [reflexivity|].
  apply Forall_forall. intros e He.
  apply list_elem_of_omap in He as (r & _ & Hr).
  apply entryOfRow_Some in Hr as (p & q & Hps & Hp & Hq & Horder & _).
  apply _p_Some in Hp as (Hp1 & Hp2 & Hp3 & _).
  apply _p_Some in Hq as (Hq1 & Hq2 & Hq3 & _).
  exists p, q. repeat split; try assumption; lia.
Qed.

(** The theorem at a table of three rows, the second without an atom name
    for its first partner. *)
Lemma fromModel_builds_links_witness :
  let side r a := StructConn.mkPartnerColumns true r "CA" a "1_555" in
  let model := StructConn.mkModel None "mmCIF"
    [StructConn.mkRow (side 4 40) (side 9 90) "disulf" "sing" 2;
     StructConn.mkRow (StructConn.mkPartnerColumns true 5 EmptyString 50 "1_555")
       (side 6 60) "mismat" EmptyString 3;
     StructConn.mkRow (side 7 70) (side 8 80) "covale" "doub" 1] in
  StructConn._staticPropertyData model = None /\
  exists sc,
    fst (StructConn.fromModel 0 1 16 4 2 8 (fun s => s) model) = Some sc /\
    map StructConn.order (StructConn.entries sc) = [1; 2] /\
    map StructConn.flags (StructConn.entries sc) = [17; 1] /\
    Forall (fun e => exists p q, StructConn.partners e = [p; q])
      (StructConn.entries sc).
Proof.
  cbv zeta.
  set (model := StructConn.mkModel None "mmCIF" _).
  assert (Hcache : StructConn._staticPropertyData model = None)
    by reflexivity.
  split; [exact Hcache|].
  pose proof (fromModel_builds_links_of_two_resolved_partners
                0 1 16 4 2 8 (fun s => s) model Hcache) as H.
  cbv zeta in H.
  destruct (fst (StructConn.fromModel 0 1 16 4 2 8 (fun s => s) model))
    as [sc|] eqn:Hsc; [|vm_compute in Hsc; discriminate].
  exists sc. split; [reflexivity|].
  destruct H as (_ & _ & _ & _ & _ & Hall).
  vm_compute in Hsc. injection Hsc as <-.
  split; [reflexivity|]. split; [reflexivity|].
  eapply Forall_impl; [exact Hall|].
  intros e (p & q & Hps & _). exists p, q. exact Hps.
Defined.

(** X21. The residue index of an object that [fromModel] has built: for
    residues that are not negative, [getResidueEntries(rA, rB)] returns an
    entry exactly when [rA] and [rB] are the residues of its two partners,
    in either order, or are both the residue of its first partner. *)
Theorem residue_entries_of_a_model
    (fNone fCovalent fSulfide fHydrogen fMetallic fIon : Z)
    (toLowerCase : string -> string) (model : StructConn.Model)
    (sc : StructConn.StructConnImpl) (ra rb : Z) :
  StructConn._staticPropertyData model = None ->
  fst (StructConn.fromModel fNone fCovalent fSulfide fHydrogen fMetallic
         fIon toLowerCase model) = Some sc ->
  0 <= ra -> 0 <= rb ->
  forall e,
    In e (fst (StructConn.getResidueEntries sc ra rb)) <->
    In e (StructConn.entries sc) /\
    exists p q,
      StructConn.partners e = [p; q] /\
      ((ra = StructConn.residueIndex p /\ rb = StructConn.residueIndex q) \/
       (ra = StructConn.residueIndex q /\ rb = StructConn.residueIndex p) \/
       (ra = StructConn.residueIndex p /\ rb = StructConn.residueIndex p)).
Proof.
  intros Hcache Hsc Hra Hrb e.
  assert (Hbuilt : index_ok sc /\
    forall e', In e' (StructConn.entries sc) ->
      exists p q, StructConn.partners e' = [p; q] /\
        0 <= StructConn.residueIndex p /\ 0 <= StructConn.residueIndex q).
  { unfold StructConn.fromModel in Hsc. rewrite Hcache in Hsc.
    destruct (negb (String.eqb (StructConn.sourceData_kind model) "mmCIF"));
      [discriminate|].
    destruct (List.length (StructConn.struct_conn model) =? 0)%nat;
      [discriminate|].
    cbv zeta in Hsc. rewrite rows_loop in Hsc. simpl in Hsc.
    injection Hsc as <-. split; [split; left; reflexivity|].
    intros e' He'. simpl in He'.
    apply (proj2 (list_elem_of_In _ _)) in He'.
    apply list_elem_of_omap in He' as (r & _ & Hr).
    apply entryOfRow_Some in Hr as (p & q & Hps & Hp & Hq & _).
    apply _p_Some in Hp as (Hp1 & _). apply _p_Some in Hq as (Hq1 & _).
    exists p, q. repeat split; assumption. }
  destruct Hbuilt as [Hok Htwo].
  rewrite (getResidueEntries_hits sc ra rb Hok), in_flat_map. split.
  - intros (e0 & He0 & Hin).
    apply residueHits_In in Hin as (-> & i & j & pi & pj & Hi & Hj & Hpi
                                      & Hpj & Hkey).
    split; [exact He0|].
    destruct (Htwo e0 He0) as (p & q & Hps & Hp0 & Hq0).
    exists p, q. split; [exact Hps|].
    rewrite Hps in Hi, Hpi, Hpj. simpl in Hi.
    assert (i = 0%nat) by lia. subst i. injection Hpi as <-.
    destruct j as [|[|j]]; [| |discriminate Hpj]; injection Hpj as <-;
      apply _resKey_inj in Hkey; try assumption; lia.
  - intros (He & p & q & Hps & Hres).
    exists e. split; [exact He|].
    apply residueHits_In. split; [reflexivity|]. rewrite Hps.
    destruct Hres as [[-> ->]|[[-> ->]|[-> ->]]].
    + exists 0%nat, 1%nat, p, q. simpl.
      repeat split; try reflexivity; lia.
    + exists 0%nat, 1%nat, p, q. simpl.
      repeat split; try reflexivity; try lia. apply _resKey_sym.
    + exists 0%nat, 0%nat, p, p. simpl.
      repeat split; try reflexivity; lia.
Qed.

(** The theorem at a table with one link between the residues 4 and 9. *)
Lemma residue_entries_of_a_model_witness :
  let side r a := StructConn.mkPartnerColumns true r "SG" a "1_555" in
  let model := StructConn.mkModel None "mmCIF"
    [StructConn.mkRow (side 4 40) (side 9 90) "disulf" "sing" 2] in
  let sc := StructConn.StructConnImpl_new
    [StructConn.mkEntry 2 1 17
       [StructConn.mkPartner 4 40 "1_555"; StructConn.mkPartner 9 90 "1_555"]] in
  (StructConn._staticPropertyData model = None /\
   fst (StructConn.fromModel 0 1 16 4 2 8 (fun s => s) model) = Some sc /\
   0 <= 9 /\ 0 <= 4) /\
  List.length (fst (StructConn.getResidueEntries sc 9 4)) = 1%nat /\
  List.length (fst (StructConn.getResidueEntries sc 4 4)) = 1%nat /\
  List.length (fst (StructConn.getResidueEntries sc 9 9)) = 0%nat /\
  (forall e, In e (fst (StructConn.getResidueEntries sc 9 9)) ->
     In e (StructConn.entries sc)).
Proof.
  cbv zeta.
  set (model := StructConn.mkModel None "mmCIF" _).
  set (sc := StructConn.StructConnImpl_new _).
  assert (Hcache : StructConn._staticPropertyData model = None)
    by reflexivity.
  assert (Hsc : fst (StructConn.fromModel 0 1 16 4 2 8 (fun s => s) model)
                = Some sc) by reflexivity.
  assert (H9 : 0 <= 9) by lia.
  split; [repeat split; try assumption; lia|].
  split; [reflexivity|]. split; [reflexivity|]. split; [reflexivity|].
  intros e He.
  exact (proj1 (proj1 (residue_entries_of_a_model 0 1 16 4 2 8 (fun s => s)
                         model sc 9 9 Hcache Hsc H9 H9 e) He)).
Defined.

(** ** Tokenizer: the lines of [readLines] and the text *)

Section LinesCoverText.

(** One [markLine] consumes its token and a line break. *)
Lemma markLine_consumes st :
  tokenizer_wf st ->
  let st' := Tokenizer.markLine st in
  exists br,
    lineBreak br /\
    slice (data st) (position st) (position st')
    = slice (data st) (tokenStart st') (tokenEnd st') ++ br.
Proof.
  intros Hwf. cbv zeta.
  destruct (markLine_token st Hwf) as (_ & _ & _ & Hs & Hb).
  rewrite Hs.
  unfold Tokenizer.markLine, Tokenizer.eatLine in *.
  set (st0 := set_tokenStart (position st) st) in *.
  destruct (eatLine_loop_scan (Z.to_nat (length st0 - position st0)) st0 Hwf)
    as (_ & _ & Hend); [lia|].
  set (st' := Tokenizer.eatLine_loop _ st0) in *.
  unfold lineEnd in Hend.
  change (position st0) with (position st) in *.
  change (data st0) with (data st) in *.
  change (length st0) with (length st) in *.
  destruct Hwf as [Hlen Hpos].
  rewrite <- (slice_app (data st) (position st) (tokenEnd st') (position st'))
    by lia.
  unfold lineBreak.
  destruct Hend as [(He & Hp & _)|(_ & [(Hc & Hp)|[(Hc & Hc' & Hp)|(Hc & _ & Hp)]])].
  - exists []. split; [auto|]. rewrite He, Hp, slice_nil. reflexivity.
  - exists [10]. split; [auto|]. rewrite Hp, (slice_one _ _ _ Hc). reflexivity.
  - exists [13; 10]. split; [auto|].
    rewrite Hp, <- (slice_app _ (tokenEnd st') (tokenEnd st' + 1)) by lia.
    rewrite (slice_one _ _ _ Hc).
    replace (tokenEnd st' + 2) with (tokenEnd st' + 1 + 1) by lia.
    rewrite (slice_one _ _ _ Hc'). reflexivity.
  - exists [13]. split; [auto|]. rewrite Hp, (slice_one _ _ _ Hc). reflexivity.
Qed.

(** [n] calls of [markLine] consume their tokens, each with its break. *)
Lemma markLines_consume n : forall st,
  tokenizer_wf st ->
  exists breaks,
    List.length breaks = n /\ Forall lineBreak breaks /\
    slice (data st) (position st) (position (Nat.iter n Tokenizer.markLine st))
    = concat (zip_with app
        (map (fun i =>
                slice (data st)
                  (tokenStart (Nat.iter (S i) Tokenizer.markLine st))
                  (tokenEnd (Nat.iter (S i) Tokenizer.markLine st)))
           (seq 0 n))
        breaks).
Proof.
  induction n as [|n IH]; intros st Hwf.
  - exists []. split; [reflexivity|]. split; [constructor|].
    simpl. apply slice_nil.
  - destruct (markLine_consumes st Hwf) as (br & Hbr & Hfirst).
    destruct (markLine_token st Hwf) as (Hwf1 & Hd1 & _ & _ & Hb1).
    destruct (IH (Tokenizer.markLine st) Hwf1) as (breaks & Hlen & Hall & Hrest).
    exists (br :: breaks).
    split; [simpl; lia|]. split; [constructor; assumption|].
    rewrite Nat.iter_succ_r.
    pose proof Hwf as [_ Hpos].
    assert (Hmono : position (Tokenizer.markLine st)
                    <= position (Nat.iter n Tokenizer.markLine
                                   (Tokenizer.markLine st))).
    { clear -Hwf1. revert Hwf1. generalize (Tokenizer.markLine st).
      induction n as [|n IHn]; intros s Hs; [simpl; lia|].
      rewrite Nat.iter_succ_r.
      destruct (markLine_token s Hs) as (Hs1 & _ & _ & _ & Hb).
      specialize (IHn _ Hs1). lia. }
    rewrite <- (slice_app (data st) (position st)
                  (position (Tokenizer.markLine st))) by lia.
    rewrite Hfirst. rewrite Hd1 in Hrest. rewrite Hrest.
    cbn [seq map zip_with concat].
    f_equal. f_equal. f_equal.
    rewrite <- seq_shift, map_map.
    apply map_ext. intros i. rewrite <- !Nat.iter_succ_r. reflexivity.
Qed.

End LinesCoverText.

(** X22. [readLines] loses no text: the text it moves over is the
    concatenation of the lines it has recorded as tokens, each followed by
    the line break that ended it (a line feed, a carriage return, both, or
    nothing at the end of the input). *)
Theorem readLines_tokens_cover_the_text (st : Tokenizer) (count : Z) :
  tokenizer_wf st -> length st < 2 ^ 32 -> 0 <= count < 2 ^ 30 ->
  let st' := fst (Tokenizer.readLines st count) in
  let tokens := snd (Tokenizer.readLines st count) in
  exists breaks,
    List.length breaks = Z.to_nat count /\ Forall lineBreak breaks /\
    slice (data st) (position st) (position st')
    = concat (zip_with app
        (map (tokenText tokens) (seq 0 (Z.to_nat count))) breaks).
Proof.
  intros Hwf H32 Hcount. cbv zeta.
  destruct (markLines_consume (Z.to_nat count) st Hwf)
    as (breaks & Hlen & Hall & Htext).
  exists breaks. split; [exact Hlen|]. split; [exact Hall|].
  unfold Tokenizer.readLines, Tokenizer.readLinesChunk.
  set (tk := TokenBuilder.create st (count * 2)).
  assert (Hcap : Z.of_nat (List.length (TokenBuilder.indices tk))
                 = Z.max 10 (count * 2)).
  { unfold tk, TokenBuilder.create. simpl. rewrite length_replicate. lia. }
  destruct (readLinesChunk_loop_tokens (Z.to_nat count) st tk Hwf H32)
    as (Hst & Hdata & _ & Hpairs);
    [change (TokenBuilder.offset tk) with 0; lia
    |change (TokenBuilder.offset tk) with 0; lia |].
  rewrite Hst, Htext. f_equal. f_equal.
  apply map_ext_in. intros i Hi. apply in_seq in Hi.
  destruct (Hpairs i) as [Hs He]; [lia|].
  change (TokenBuilder.offset tk) with 0 in Hs, He.
  replace (Z.to_nat (0 + 2 * Z.of_nat i)) with (2 * i)%nat in Hs by lia.
  replace (Z.to_nat (0 + 2 * Z.of_nat i + 1)) with (2 * i + 1)%nat in He by lia.
  unfold tokenText. rewrite Hs, He, Hdata.
  change (TokenBuilder.data tk) with (data st).
  destruct (iter_markLine_wf i st Hwf) as (Hwfi & _ & Hli).
  destruct (markLine_token _ Hwfi) as ([Hlen1 Hpos1] & Hd1 & Hl1 & Hs1 & Hb1).
  pose proof Hwfi as [_ Hposi]. pose proof Hwf as [Hlen0 _].
  change (Nat.iter (S i) Tokenizer.markLine st)
    with (Tokenizer.markLine (Nat.iter i Tokenizer.markLine st)).
  symmetry. apply substring_slice; lia.
Qed.

(** The theorem at the text ["ab\r\ncd\n"], two lines. *)
Lemma readLines_tokens_cover_witness :
  let st := Tokenizer.Tokenizer [97; 98; 13; 10; 99; 100; 10] in
  (tokenizer_wf st /\ length st < 2 ^ 32 /\ 0 <= 2 < 2 ^ 30) /\
  map (tokenText (snd (Tokenizer.readLines st 2))) (seq 0 2)
  = [[97; 98]; [99; 100]] /\
  exists breaks,
    List.length breaks = 2%nat /\ Forall lineBreak breaks /\
    [97; 98; 13; 10; 99; 100; 10]
    = concat (zip_with app [[97; 98]; [99; 100]] breaks).
Proof.
  cbv zeta.
  assert (Hwf : tokenizer_wf
                  (Tokenizer.Tokenizer [97; 98; 13; 10; 99; 100; 10]))
    by apply Tokenizer_wf.
  assert (H32 : length (Tokenizer.Tokenizer [97; 98; 13; 10; 99; 100; 10])
                < 2 ^ 32) by (simpl; lia).
  assert (Hc : 0 <= 2 < 2 ^ 30) by lia.
  split; [auto|]. split; [reflexivity|].
  exact (readLines_tokens_cover_the_text _ 2 Hwf H32 Hc).
Defined.
